(** * az-reader deployment tooling: a shallow embedding of [ops/ops/*.py]

    The development follows the Python sources function by function.

    - Python [str] values are sequences of code points.  They are modelled as
      [list ascii], one [ascii] per code point, which covers the code points
      below 256; the character classes used by [str.strip], [str.splitlines]
      and [str.isdigit] are the ones CPython uses on that range.
    - A [dict] keyed by strings is a [gmap]; a list updated by index uses
      stdpp's list insert.
    - Code that runs external programs, reads the clock or touches the file
      system is written in a state-and-error monad over a [World]; what the
      outside does is supplied by an [Externals] record, so every theorem
      holds for all behaviours of the outside. *)

From Stdlib Require Import Ascii String ZArith List Lia DecimalString DecimalNat.
From stdpp Require Import gmap strings list sorting.

Local Open Scope list_scope.

(** ** Python string primitives *)
Module PyStr.

Abbreviation str := (list ascii).

(** String literals of the sources are written [s"..."]. *)
Definition lit (x : string) : str := String.list_ascii_of_string x.
Notation "s$ x" := (lit x) (at level 1, x at level 0, format "s$ x").

Definition LF : ascii := "010"%char.
Definition CR : ascii := "013"%char.
Definition QUOTE : ascii := "034"%char.

Definition code (c : ascii) : N := N_of_ascii c.

(** [str.isspace] on one code point: TAB..CR, FS..US, SPACE, NEL, NBSP. *)
Definition isspace (c : ascii) : bool :=
  bool_decide (code c ∈ [9; 10; 11; 12; 13; 28; 29; 30; 31; 32; 133; 160]%N).

(** The line boundaries of [str.splitlines]: LF, VT, FF, CR, FS, GS, RS, NEL
    (and the pair CR LF, handled in [splitlines]). *)
Definition is_linebreak (c : ascii) : bool :=
  bool_decide (code c ∈ [10; 11; 12; 13; 28; 29; 30; 133]%N).

(** [s.lstrip()], [s.rstrip()], [s.strip()] *)
Fixpoint lstrip (s : str) : str :=
  match s with
  | c :: s' => if isspace c then lstrip s' else s
  | [] => []
  end.

Definition rstrip (s : str) : str := rev (lstrip (rev s)).

Definition strip (s : str) : str := rstrip (lstrip s).

(** [s.startswith(p)], [s.endswith(p)] *)
Fixpoint startswith (s p : str) {struct p} : bool :=
  match p, s with
  | [], _ => true
  | a :: p', b :: s' => bool_decide (a = b) && startswith s' p'
  | _ :: _, [] => false
  end.

Definition endswith (s p : str) : bool := startswith (rev s) (rev p).

(** [c in s] for a one-character string [c] *)
Definition contains (c : ascii) (s : str) : bool := bool_decide (c ∈ s).

(** [s.split(c, 1)]: at most one cut, at the first [c]. *)
Fixpoint before_sep (c : ascii) (s : str) : str :=
  match s with
  | [] => []
  | x :: s' => if bool_decide (x = c) then [] else x :: before_sep c s'
  end.

Fixpoint after_sep (c : ascii) (s : str) : option str :=
  match s with
  | [] => None
  | x :: s' => if bool_decide (x = c) then Some s' else after_sep c s'
  end.

Definition split1 (c : ascii) (s : str) : list str :=
  match after_sep c s with
  | None => [s]
  | Some rest => [before_sep c s; rest]
  end.

(** [s.split(c)]: every [c] cuts; empty pieces are kept. *)
Fixpoint split (c : ascii) (s : str) : list str :=
  match s with
  | [] => [[]]
  | x :: s' =>
      if bool_decide (x = c) then [] :: split c s'
      else match split c s' with
           | piece :: pieces => (x :: piece) :: pieces
           | [] => [[x]]
           end
  end.

(** [s.replace(a, b)] for one-character strings *)
Definition replace (a b : ascii) (s : str) : str :=
  map (fun x => if bool_decide (x = a) then b else x) s.

(** [sep.join(pieces)] *)
Fixpoint join (sep : str) (pieces : list str) : str :=
  match pieces with
  | [] => []
  | [x] => x
  | x :: rest => x ++ sep ++ join sep rest
  end.

(** [s.splitlines()]: cut at every line boundary, CR LF counting as one; the
    boundaries are dropped and no empty last line is produced. *)
Fixpoint splitlines (s : str) : list str :=
  match s with
  | [] => []
  | c :: s' =>
      if is_linebreak c then
        [] :: (if bool_decide (c = CR) then
                 match s' with
                 | d :: s'' => if bool_decide (d = LF) then splitlines s''
                               else splitlines s'
                 | [] => splitlines s'
                 end
               else splitlines s')
      else match splitlines s' with
           | line :: lines => (c :: line) :: lines
           | [] => [[c]]
           end
  end.

(** [str(n)] and [f"{n}"] for a non-negative integer *)
Definition str_of_nat (n : nat) : str :=
  String.list_ascii_of_string (NilEmpty.string_of_uint (Nat.to_uint n)).

(** [s.isdigit()]: non-empty and every character has the Unicode property
    Numeric_Type=Digit or Decimal; below 256 these are 0..9 and the
    superscripts two, three and one. *)
Definition isdigit_char (c : ascii) : bool :=
  bool_decide (code c ∈ [48; 49; 50; 51; 52; 53; 54; 55; 56; 57; 178; 179; 185]%N).

Definition isdigit (s : str) : bool :=
  negb (bool_decide (s = [])) && forallb isdigit_char s.

(** [int(s)] on a string that passed [isdigit]: the decimal value; the
    superscript digits are rejected with ValueError ([None]). *)
Definition decimal_value (c : ascii) : option nat :=
  if bool_decide (48 ≤ code c ≤ 57)%N then Some (N.to_nat (code c) - 48) else None.

Fixpoint int_acc (acc : nat) (s : str) : option nat :=
  match s with
  | [] => Some acc
  | c :: s' =>
      match decimal_value c with
      | Some d => int_acc (10 * acc + d) s'
      | None => None
      end
  end.

Definition int (s : str) : option nat := int_acc 0 s.

End PyStr.

Import PyStr.

(** ** Config patcher ([_deploy_common.py]) *)
Module Patcher.

(** [f'{key} = "{value}"'] *)
Definition new_line (key value : str) : str :=
  key ++ s$" = " ++ [QUOTE] ++ value ++ [QUOTE].

(** The test made on one line by the loop of [_set_tfvar_value]: the line is
    not skipped and its left-hand side is [key]. *)
Definition assigns (key line : str) : bool :=
  let stripped := strip line in
  if bool_decide (stripped = []) || startswith stripped s$"#"
     || negb (contains "="%char stripped)
  then false
  else
    let lhs := strip (hd [] (split1 "="%char stripped)) in
    bool_decide (lhs = key).

(** [for idx, line in enumerate(lines)]: the index at which the loop breaks,
    [None] when it runs into its [else] branch. *)
Fixpoint first_assignment (key : str) (idx : nat) (lines : list str) : option nat :=
  match lines with
  | [] => None
  | line :: rest =>
      if assigns key line then Some idx
      else first_assignment key (S idx) rest
  end.

(** [line[: len(line) - len(line.lstrip())]] *)
Definition indent_of (line : str) : str :=
  take (length line - length (lstrip line)) line.

Definition patched_lines (lines : list str) (key value : str) : list str :=
  match first_assignment key 0 lines with
  | Some idx =>
      let line := nth idx lines [] in
      <[idx := indent_of line ++ new_line key value]> lines
  | None => lines ++ [new_line key value]
  end.

Definition _set_tfvar_value (content key value : str) : str :=
  let lines := patched_lines (splitlines content) key value in
  let updated := join [LF] lines in
  if endswith updated [LF] then updated else updated ++ [LF].

End Patcher.

Import Patcher.


(** ** Values, paths, errors and the outside world *)
Module Runtime.

(** A value produced by [json.loads] or [hcl2.load].  Values other than
    [None], strings and dicts are kept by what the sources observe of them:
    their truth value and the text [str()] gives. *)
#[warnings="-register-all"]
Inductive pyval :=
| VNone
| VStr (text : str)
| VDict (items : list (str * pyval)) (shown : str)
| VOther (truth : bool) (shown : str).

Definition truthy (v : pyval) : bool :=
  match v with
  | VNone => false
  | VStr text => negb (bool_decide (text = []))
  | VDict items _ => negb (bool_decide (items = []))
  | VOther truth _ => truth
  end.

(** [str(v)], also what an f-string puts for [{v}] *)
Definition py_str (v : pyval) : str :=
  match v with
  | VNone => s$"None"
  | VStr text => text
  | VDict _ shown => shown
  | VOther _ shown => shown
  end.

(** [d.get(key)] on the items of a dict *)
Fixpoint dict_get (items : list (str * pyval)) (key : str) : option pyval :=
  match items with
  | [] => None
  | (k, v) :: rest => if bool_decide (k = key) then Some v else dict_get rest key
  end.

(** [a or b] on values that may be [None] *)
Definition str_truthy (o : option str) : bool :=
  match o with
  | Some text => negb (bool_decide (text = []))
  | None => false
  end.

Definition or_else (a b : option str) : option str :=
  if str_truthy a then a else b.

(** [pathlib.Path]: whether the path is anchored at the root, and its parts. *)
Record Path := mkPath { anchored : bool; parts : list str }.

Global Instance Path_eq_dec : EqDecision Path.
Proof. solve_decision. Defined.

(** [Path(text)]: empty and [.] components are dropped. *)
Definition path_of_str (text : str) : Path :=
  {| anchored := startswith text s$"/";
     parts := List.filter (fun part => negb (bool_decide (part = []))
                                       && negb (bool_decide (part = s$".")))
                (split "/"%char text) |}.

(** [p / q] *)
Definition path_join (p q : Path) : Path :=
  if anchored q then q
  else {| anchored := anchored p; parts := parts p ++ parts q |}.

Definition path_div (p : Path) (text : str) : Path := path_join p (path_of_str text).

(** [str(p)] and [p.as_posix()] *)
Definition path_str (p : Path) : str :=
  if anchored p then s$"/" ++ join s$"/" (parts p)
  else match parts p with
       | [] => s$"."
       | _ => join s$"/" (parts p)
       end.

(** [p.name], [p.parent] *)
Definition path_name (p : Path) : str := List.last (parts p) [].

Definition path_parent (p : Path) : Path :=
  {| anchored := anchored p; parts := removelast (parts p) |}.

(** [p.relative_to(base)]; [None] stands for its ValueError. *)
Fixpoint strip_prefix (base full : list str) : option (list str) :=
  match base, full with
  | [], _ => Some full
  | b :: base', f :: full' =>
      if bool_decide (b = f) then strip_prefix base' full' else None
  | _ :: _, [] => None
  end.

Definition relative_to (p base : Path) : option Path :=
  if bool_decide (anchored p = anchored base) then
    match strip_prefix (parts base) (parts p) with
    | Some rest => Some {| anchored := false; parts := rest |}
    | None => None
    end
  else None.

(** The failures of the tooling.  Each constructor is one [raise] of the
    sources, named as the specification names it; [PyError] is an exception
    raised inside a library call. *)
Inductive error :=
| ProcessFailed (returncode : Z) (cmd : list str) (output stderr : option str)
    (* subprocess.CalledProcessError *)
| TextModeOnly                                  (* ValueError, run_logged *)
| RequiredBinaryMissing (binary : str)          (* RuntimeError, ensure *)
| MissingVariableTemplate (env : str) (stack_dir : Path)
    (* FileNotFoundError, ensure_tfvars *)
| MissingStackOutput (key : str)                (* KeyError, bootstrap_state_from_outputs *)
| UpstreamNotBootstrapped (state_path : Path) (env : str)
    (* FileNotFoundError, load_bootstrap_state *)
| RegistryEndpointRequired                      (* RuntimeError, _registry_login_server *)
| MissingBuildTemplate (template : Path)        (* FileNotFoundError, build_and_push *)
| MissingIncludePath (rel_path : Path)          (* FileNotFoundError, build_and_push *)
| MissingBuildContext (target : str) (context : Path)
    (* FileNotFoundError, _staged_context *)
| TokenNameCollision (name : str)               (* ValueError, manage_tokens *)
| InvalidTokenComponent (label : str)           (* ValueError, _validate_component *)
| InvalidTokenSyntax                            (* ValueError, _parse_name_value *)
| EmptyTokenComponent                           (* ValueError, _parse_name_value *)
| TfvarsUnreadable (tfvars : Path)              (* RuntimeError, _load_tfvars_data *)
| KeyVaultNameRequired                          (* RuntimeError, _resolve_targets *)
| PyError (cls : str).

Inductive result (A : Type) :=
| Ok (value : A)
| Raise (e : error).
Arguments Ok {A} value.
Arguments Raise {A} e.

Inductive stream := Stdout | Stderr.

Global Instance stream_eq_dec : EqDecision stream.
Proof. solve_decision. Defined.

(** What a started process does: the lines its two streams deliver, in the
    order in which they are handled, and its exit code. *)
Record ProcRun := {
  arrivals : list (stream * str);
  exit_code : Z
}.

(** What the tooling does to its surroundings, in order. *)
Inductive event :=
| EvLog (message : str)                         (* logging.info *)
| EvSpawn (cmd : list str) (cwd : option Path)  (* the process is started *)
| EvChild (s : stream) (text : str)             (* the child writes on an inherited stream *)
| EvExit (returncode : Z)                       (* the exit code is in, the readers are done *)
| EvWrite (s : stream) (text : str)             (* sys.stdout / sys.stderr written by the tooling *)
| EvPrint (text : str)                          (* print *)
| EvWriteFile (target : Path) (content : str).  (* Path.write_text *)

(** The outside: the file system, the programs on the PATH, the clock, the
    random source and the two parsers.  [None] from a file-system operation
    stands for an OSError. *)
Class Externals := {
  FS : Type;
  repo_root : Path;
  fs_exists : FS -> Path -> bool;
  fs_is_dir : FS -> Path -> bool;
  fs_read_text : FS -> Path -> option str;
  fs_write_text : FS -> Path -> str -> option FS;
  fs_mkdir_parents : FS -> Path -> option FS;
  fs_copy2 : FS -> Path -> Path -> option FS;
  fs_copytree : FS -> Path -> Path -> option FS;
  fs_mkdtemp : FS -> nat -> str -> option (Path * FS);
  fs_rmtree : FS -> Path -> FS;
  which : gmap str str -> FS -> str -> bool;
  spawn : gmap str str -> FS -> nat -> list str -> option Path -> option (ProcRun * FS);
  utc_timestamp : nat -> str;
  random_token : nat -> nat -> str;
  json_loads : str -> option pyval;
  hcl2_loads : str -> option (list (str * pyval))
}.

Section World.
Context `{Externals}.

(** [os.environ], the file system, the number of questions asked to the
    outside so far, and the events so far (oldest first). *)
Record World := {
  environ : gmap str str;
  files : FS;
  tick : nat;
  events : list event
}.

Definition M (A : Type) : Type := World -> result A * World.

Definition ret {A} (a : A) : M A := fun w => (Ok a, w).

Definition raise {A} (e : error) : M A := fun w => (Raise e, w).

Definition bind {A B} (m : M A) (k : A -> M B) : M B :=
  fun w => match m w with
           | (Ok a, w') => k a w'
           | (Raise e, w') => (Raise e, w')
           end.

(** [try: m  except <caught>: handler] *)
Definition try_except {A} (m : M A) (caught : error -> bool) (handler : M A) : M A :=
  fun w => match m w with
           | (Ok a, w') => (Ok a, w')
           | (Raise e, w') => if caught e then handler w' else (Raise e, w')
           end.

(** [try: m  finally: cleanup], for a cleanup that cannot fail *)
Definition finally {A} (m : M A) (cleanup : World -> World) : M A :=
  fun w => let '(r, w') := m w in (r, cleanup w').

(** The world with one component replaced. *)
Definition with_events (evs : list event) (w : World) : World :=
  {| environ := environ w; files := files w; tick := tick w; events := evs |}.

Definition with_tick (t : nat) (w : World) : World :=
  {| environ := environ w; files := files w; tick := t; events := events w |}.

Definition with_files (fs : FS) (w : World) : World :=
  {| environ := environ w; files := fs; tick := tick w; events := events w |}.

Definition with_environ (env : gmap str str) (w : World) : World :=
  {| environ := env; files := files w; tick := tick w; events := events w |}.

Definition emit (e : event) : M unit :=
  fun w => (Ok tt, with_events (events w ++ [e]) w).

Definition next_tick : M nat :=
  fun w => (Ok (tick w), with_tick (S (tick w)) w).

Definition set_files (fs : FS) : M unit :=
  fun w => (Ok tt, with_files fs w).

(** [os.environ.get(name)] and [os.environ[name] = value] *)
Definition environ_get (name : str) : M (option str) :=
  fun w => (Ok (environ w !! name), w).

Definition environ_set (name : str) (value : pyval) : M unit :=
  fun w => match value with
           | VStr text => (Ok tt, with_environ (<[name := text]> (environ w)) w)
           | _ => (Raise (PyError s$"TypeError"), w)
           end.

(** File-system calls of [pathlib] and [shutil] *)
Definition path_exists (p : Path) : M bool :=
  fun w => (Ok (fs_exists (files w) p), w).

Definition path_is_dir (p : Path) : M bool :=
  fun w => (Ok (fs_is_dir (files w) p), w).

Definition read_text (p : Path) : M str :=
  fun w => match fs_read_text (files w) p with
           | Some text => (Ok text, w)
           | None => (Raise (PyError s$"OSError"), w)
           end.

Definition fs_step (op : FS -> option FS) : M unit :=
  fun w => match op (files w) with
           | Some fs => set_files fs w
           | None => (Raise (PyError s$"OSError"), w)
           end.

Definition write_text (p : Path) (content : str) : M unit :=
  bind (fs_step (fun fs => fs_write_text fs p content))
       (fun _ => emit (EvWriteFile p content)).

Definition mkdir_parents (p : Path) : M unit :=
  fs_step (fun fs => fs_mkdir_parents fs p).

Definition copy2 (src dst : Path) : M unit :=
  fs_step (fun fs => fs_copy2 fs src dst).

Definition copytree (src dst : Path) : M unit :=
  fs_step (fun fs => fs_copytree fs src dst).

(** [logging.info(...)], [print(...)] *)
Definition log_info (message : str) : M unit := emit (EvLog message).

Definition print (text : str) : M unit := emit (EvPrint text).

(** [for x in xs: body(x)] *)
Fixpoint for_each {A} (xs : list A) (body : A -> M unit) : M unit :=
  match xs with
  | [] => ret tt
  | x :: rest => bind (body x) (fun _ => for_each rest body)
  end.

End World.

Declare Scope monad_scope.
Delimit Scope monad_scope with monad.
Notation "x <- c ;; k" := (bind c (fun x => k))
  (at level 100, c at next level, right associativity) : monad_scope.
Notation "c ;;; k" := (bind c (fun _ => k))
  (at level 100, right associativity) : monad_scope.

End Runtime.

Import Runtime.
Local Open Scope monad_scope.

(** ** [_utils.py] *)
Module Utils.
Section Utils.
Context `{Externals}.

(** [shutil.which(binary) is not None] *)
Definition shutil_which (binary : str) : M bool :=
  fun w => (Ok (which (environ w) (files w) binary), w).

Definition ensure (binaries : list str) : M unit :=
  for_each binaries (fun b =>
    found <- shutil_which b ;;
    if found then ret tt else raise (RequiredBinaryMissing b)).

Inductive echo_policy := echo_always | echo_on_error | echo_never.

(** [subprocess.CompletedProcess] *)
Record CompletedProcess := {
  args : list str;
  returncode : Z;
  stdout : option str;
  stderr : option str
}.

(** [subprocess.Popen(...)] and the start of [subprocess.run(...)]: the
    outside decides what the process does. *)
Definition start_process (cmd : list str) (cwd : option Path) : M ProcRun :=
  t <- next_tick ;;
  fun w => match spawn (environ w) (files w) t cmd cwd with
           | Some (run, fs) => (set_files fs ;;; emit (EvSpawn cmd cwd) ;;; ret run) w
           | None => (Raise (PyError s$"OSError"), w)
           end.

(** The two lists filled by the reader threads. *)
Record Buffers := { stdout_buf : list str; stderr_buf : list str }.

Definition buffer_append (s : stream) (line : str) (b : Buffers) : Buffers :=
  match s with
  | Stdout => {| stdout_buf := stdout_buf b ++ [line]; stderr_buf := stderr_buf b |}
  | Stderr => {| stdout_buf := stdout_buf b; stderr_buf := stderr_buf b ++ [line] |}
  end.

(** The two [_reader] threads.  Each handles the lines of its own stream in
    order; [lines] is the order in which the two threads get to run.  One
    line: [buffer.append(line)], and under [echo == "always"] the line is
    written to the matching standard stream. *)
Fixpoint readers (echo : echo_policy) (lines : list (stream * str)) (b : Buffers)
  : M Buffers :=
  match lines with
  | [] => ret b
  | (s, line) :: rest =>
      (match echo with
       | echo_always => emit (EvWrite s line)
       | _ => ret tt
       end) ;;;
      readers echo rest (buffer_append s line b)
  end.

(** [stream.writelines(buffer)] under [if buffer:] *)
Definition writelines (s : stream) (buffer : list str) : M unit :=
  if bool_decide (buffer = []) then ret tt
  else for_each buffer (fun line => emit (EvWrite s line)).

Definition run_logged (cmd : list str) (cwd : option Path)
    (capture_output text check : bool) (echo : echo_policy) : M CompletedProcess :=
  if negb text then raise TextModeOnly
  else
    log_info (s$"$ " ++ join s$" " cmd) ;;;
    if negb capture_output then
      run <- start_process cmd cwd ;;
      for_each (arrivals run) (fun a => emit (EvChild a.1 a.2)) ;;;
      emit (EvExit (exit_code run)) ;;;
      if check && negb (exit_code run =? 0)%Z
      then raise (ProcessFailed (exit_code run) cmd None None)
      else ret {| args := cmd; returncode := exit_code run;
                  stdout := None; stderr := None |}
    else
      run <- start_process cmd cwd ;;
      b <- readers echo (arrivals run) {| stdout_buf := []; stderr_buf := [] |} ;;
      emit (EvExit (exit_code run)) ;;;
      (match echo with
       | echo_on_error =>
           if negb (exit_code run =? 0)%Z
           then writelines Stdout (stdout_buf b) ;;; writelines Stderr (stderr_buf b)
           else ret tt
       | _ => ret tt
       end) ;;;
      let stdout_joined := join [] (stdout_buf b) in
      let stderr_joined := join [] (stderr_buf b) in
      if check && negb (exit_code run =? 0)%Z
      then raise (ProcessFailed (exit_code run) cmd
                    (Some stdout_joined) (Some stderr_joined))
      else ret {| args := cmd; returncode := exit_code run;
                  stdout := Some stdout_joined; stderr := Some stderr_joined |}.

(** [dt.datetime.now(dt.timezone.utc).strftime("%Y%m%d%H%M%S")] *)
Definition now_stamp : M str :=
  t <- next_tick ;; ret (utc_timestamp t).

Definition is_process_failed (e : error) : bool :=
  match e with
  | ProcessFailed _ _ _ _ => true
  | _ => false
  end.

(** The [for diff_args in (...)] loop of [derive_image_tag]. *)
Fixpoint any_diff (cmds : list (list str)) : M bool :=
  match cmds with
  | [] => ret false
  | diff_args :: rest =>
      r <- run_logged diff_args None true true false echo_always ;;
      if negb (returncode r =? 0)%Z then ret true else any_diff rest
  end.

Definition derive_image_tag (root : Path) : M str :=
  git <- shutil_which s$"git" ;;
  if git then
    try_except
      (r <- run_logged [s$"git"; s$"-C"; path_str root; s$"rev-parse";
                        s$"--short=12"; s$"HEAD"] None true true true echo_always ;;
       let commit := strip (default [] (stdout r)) in
       timestamp <- now_stamp ;;
       dirty <- any_diff
                  [[s$"git"; s$"-C"; path_str root; s$"diff"; s$"--quiet";
                    s$"--no-ext-diff"; s$"--cached"];
                   [s$"git"; s$"-C"; path_str root; s$"diff"; s$"--quiet";
                    s$"--no-ext-diff"]] ;;
       let suffix := if dirty : bool then s$"-dirty" else [] in
       ret (commit ++ s$"-" ++ timestamp ++ suffix))
      is_process_failed
      now_stamp
  else now_stamp.

End Utils.
End Utils.

Import Utils.

(** ** [_deploy_common.py] *)
Module DeployCommon.
Section DeployCommon.
Context `{Externals}.

Record AzureContext := { subscription_id : pyval; tenant_id : pyval }.

Record Paths := { root : Path; bootstrap : Path; workload : Path }.

Record BootstrapState := {
  resource_group : str;
  storage_account : str;
  container : str;
  blob_key : str
}.

Definition resolve_paths : Paths :=
  let stacks := path_div (path_div (path_div repo_root s$"infra") s$"terraform") s$"stacks" in
  {| root := repo_root;
     bootstrap := path_div stacks s$"00-bootstrap";
     workload := path_div stacks s$"20-workload" |}.

(** [json.loads(result.stdout)] *)
Definition json_loads_m (text : option str) : M pyval :=
  match text with
  | None => raise (PyError s$"TypeError")
  | Some t => match json_loads t with
              | Some v => ret v
              | None => raise (PyError s$"JSONDecodeError")
              end
  end.

(** [data[key]] *)
Definition subscript (data : pyval) (key : str) : M pyval :=
  match data with
  | VDict items _ => match dict_get items key with
                     | Some v => ret v
                     | None => raise (PyError s$"KeyError")
                     end
  | _ => raise (PyError s$"TypeError")
  end.

Definition az_account_show : list str :=
  [s$"az"; s$"account"; s$"show"; s$"--output"; s$"json"].

(** The second half of [azure_context]: ask the [az] command. *)
Definition query_identity : M AzureContext :=
  r <- run_logged az_account_show None true true true echo_on_error ;;
  data <- json_loads_m (stdout r) ;;
  sub <- subscript data s$"id" ;;
  tenant <- subscript data s$"tenantId" ;;
  ret {| subscription_id := sub; tenant_id := tenant |}.

Definition azure_context : M AzureContext :=
  azure_sub <- environ_get s$"AZURE_SUBSCRIPTION_ID" ;;
  arm_sub <- environ_get s$"ARM_SUBSCRIPTION_ID" ;;
  let env_sub := or_else azure_sub arm_sub in
  azure_tenant <- environ_get s$"AZURE_TENANT_ID" ;;
  arm_tenant <- environ_get s$"ARM_TENANT_ID" ;;
  let env_tenant := or_else azure_tenant arm_tenant in
  if str_truthy env_sub && str_truthy env_tenant then
    ret {| subscription_id := VStr (default [] env_sub);
           tenant_id := VStr (default [] env_tenant) |}
  else query_identity.

(** [next((path for path in candidates if path.exists()), None)] *)
Fixpoint first_existing (candidates : list Path) : M (option Path) :=
  match candidates with
  | [] => ret None
  | p :: rest =>
      found <- path_exists p ;;
      if found then ret (Some p) else first_existing rest
  end.

Definition ensure_tfvars (stack_dir : Path) (env : str)
    (subscription_id tenant_id : pyval) : M Path :=
  let target := path_div stack_dir (env ++ s$".tfvars") in
  example <- first_existing
    [path_div stack_dir (s$"terraform.tfvars." ++ env ++ s$".example");
     path_div stack_dir (env ++ s$".tfvars.example");
     path_div stack_dir s$"terraform.tfvars.example"] ;;
  target_exists <- path_exists target ;;
  (if negb target_exists then
     match example with
     | None => raise (MissingVariableTemplate env stack_dir)
     | Some ex =>
         text <- read_text ex ;;
         write_text target text ;;;
         log_info (s$"Seeded tfvars for " ++ env ++ s$" from " ++ path_name ex)
     end
   else ret tt) ;;;
  target_exists <- path_exists target ;;
  content <- (if target_exists then read_text target else ret []) ;;
  let content := _set_tfvar_value content s$"subscription_id" (py_str subscription_id) in
  let content := _set_tfvar_value content s$"tenant_id" (py_str tenant_id) in
  let content := _set_tfvar_value content s$"environment_code" env in
  write_text target content ;;;
  log_info (s$"Updated " ++ path_name target
            ++ s$" with subscription_id, tenant_id, and environment_code") ;;;
  ret target.

(** [load_tfvars]: open the file and hand it to [hcl2.load]. *)
Definition load_tfvars (tfvars_path : Path) : M (list (str * pyval)) :=
  text <- read_text tfvars_path ;;
  match hcl2_loads text with
  | Some data => ret data
  | None => raise (PyError s$"HclError")
  end.

(** [for key, value in updates.items(): content = _set_tfvar_value(...)] *)
Definition apply_updates (content : str) (updates : list (str * str)) : str :=
  fold_left (fun c kv => _set_tfvar_value c kv.1 kv.2) updates content.

Definition update_tfvars (tfvars_path : Path) (updates : list (str * str)) : M unit :=
  found <- path_exists tfvars_path ;;
  content <- (if found then read_text tfvars_path else ret []) ;;
  write_text tfvars_path (apply_updates content updates).

(** A dict display [{k1: v1, k2: v2}]: a repeated key keeps its first place
    and takes the later value. *)
Definition dict2 (k1 v1 k2 v2 : str) : list (str * str) :=
  if bool_decide (k1 = k2) then [(k1, v2)] else [(k1, v1); (k2, v2)].

Definition terraform_init (stack_dir : Path) (extra_args : list str) : M unit :=
  run_logged ([s$"terraform"; s$"init"; s$"-reconfigure"] ++ extra_args)
    (Some stack_dir) false true true echo_always ;;; ret tt.

Definition terraform_apply (stack_dir tfvars : Path) (auto_approve : bool)
    (extra_args : list str) : M unit :=
  run_logged ([s$"terraform"; s$"apply"; s$"-var-file"; path_name tfvars]
              ++ (if auto_approve then [s$"--auto-approve"] else [])
              ++ extra_args)
    (Some stack_dir) false true true echo_always ;;; ret tt.

Definition terraform_plan (stack_dir tfvars : Path) (extra_args : list str) : M unit :=
  run_logged ([s$"terraform"; s$"plan"; s$"-var-file"; path_name tfvars] ++ extra_args)
    (Some stack_dir) false true true echo_always ;;; ret tt.

Definition terraform_output (stack_dir : Path) : M pyval :=
  r <- run_logged [s$"terraform"; s$"output"; s$"-json"]
         (Some stack_dir) true true true echo_on_error ;;
  json_loads_m (stdout r).

Definition terraform_init_local (stack_dir state_path : Path) : M unit :=
  mkdir_parents (path_parent state_path) ;;;
  run_logged [s$"terraform"; s$"init"; s$"-reconfigure"; s$"-backend-config";
              s$"path=" ++ path_str state_path]
    (Some stack_dir) false true true echo_always ;;; ret tt.

Definition terraform_init_remote (stack_dir : Path) (tenant_id : pyval)
    (state_rg state_sa state_container state_key : str) : M unit :=
  run_logged [s$"terraform"; s$"init"; s$"-reconfigure";
              s$"-backend-config=use_azuread_auth=true";
              s$"-backend-config=tenant_id=" ++ py_str tenant_id;
              s$"-backend-config=resource_group_name=" ++ state_rg;
              s$"-backend-config=storage_account_name=" ++ state_sa;
              s$"-backend-config=container_name=" ++ state_container;
              s$"-backend-config=key=" ++ state_key]
    (Some stack_dir) false true true echo_always ;;; ret tt.

(** [outputs.get(key, {}).get("value")], then the [None] test and [str] *)
Definition _required (outputs : pyval) (key : str) : M str :=
  match outputs with
  | VDict items _ =>
      match dict_get items key with
      | None => raise (MissingStackOutput key)          (* {}.get("value") is None *)
      | Some (VDict fields _) =>
          match dict_get fields s$"value" with
          | None | Some VNone => raise (MissingStackOutput key)
          | Some value => ret (py_str value)
          end
      | Some _ => raise (PyError s$"AttributeError")
      end
  | _ => raise (PyError s$"AttributeError")
  end.

Definition bootstrap_state_from_outputs (outputs : pyval) : M BootstrapState :=
  rg <- _required outputs s$"state_rg_name" ;;
  sa <- _required outputs s$"state_storage_account_name" ;;
  ct <- _required outputs s$"state_container_name" ;;
  bk <- _required outputs s$"state_blob_key" ;;
  ret {| resource_group := rg; storage_account := sa; container := ct; blob_key := bk |}.

Definition bootstrap_state_path (paths : Paths) (env : str) : Path :=
  path_div (path_div (path_div (bootstrap paths) s$".state") env) s$"bootstrap.tfstate".

Definition load_bootstrap_state (env : str) (paths : Paths) (ctx : AzureContext)
  : M BootstrapState :=
  let state_path := bootstrap_state_path paths env in
  found <- path_exists state_path ;;
  if negb found then raise (UpstreamNotBootstrapped state_path env)
  else
    environ_set s$"ARM_SUBSCRIPTION_ID" (subscription_id ctx) ;;;
    environ_set s$"ARM_TENANT_ID" (tenant_id ctx) ;;;
    terraform_init_local (bootstrap paths) state_path ;;;
    outputs <- terraform_output (bootstrap paths) ;;
    bootstrap_state_from_outputs outputs.

Definition export_core_tf_env (env : str) (ctx : AzureContext) : M unit :=
  environ_set s$"TF_VAR_subscription_id" (subscription_id ctx) ;;;
  environ_set s$"TF_VAR_tenant_id" (tenant_id ctx) ;;;
  environ_set s$"TF_VAR_environment_code" (VStr env) ;;;
  environ_set s$"ARM_SUBSCRIPTION_ID" (subscription_id ctx) ;;;
  environ_set s$"ARM_TENANT_ID" (tenant_id ctx).

End DeployCommon.
End DeployCommon.

Import DeployCommon.

(** ** [build_and_push.py] *)
Module BuildAndPush.
Section BuildAndPush.
Context `{Externals}.

Definition is_any_error (e : error) : bool := true.

Definition _safe_load_tfvars (tfvars : Path) : M (list (str * pyval)) :=
  try_except (load_tfvars tfvars) is_any_error (ret []).

(** [str(tfvars_data.get("registry_login_server", "") or "").strip()] *)
Definition recorded_login_server (tfvars_data : list (str * pyval)) : str :=
  let found := default (VStr []) (dict_get tfvars_data s$"registry_login_server") in
  strip (py_str (if truthy found then found else VStr [])).

Definition _registry_login_server (override : option str)
    (tfvars_data : list (str * pyval)) : M str :=
  env1 <- environ_get s$"AZ_READER_REGISTRY_LOGIN_SERVER" ;;
  env2 <- environ_get s$"REGISTRY_LOGIN_SERVER" ;;
  let chosen := or_else override (or_else env1 env2) in
  let value := if str_truthy chosen then default [] chosen
               else recorded_login_server tfvars_data in
  if bool_decide (value = []) || contains "<"%char value
     || bool_decide (strip value = [])
  then raise RegistryEndpointRequired
  else ret value.

Definition _registry_name_from_login_server (login_server : str) : str :=
  hd [] (split "."%char login_server).

Definition _acr_docker_login (registry : str) : M unit :=
  run_logged [s$"az"; s$"acr"; s$"login"; s$"--name"; registry]
    None false true true echo_always ;;; ret tt.

Definition _docker_build_and_push (image : str) (dockerfile context_dir : Path) : M unit :=
  run_logged [s$"docker"; s$"build"; s$"--platform"; s$"linux/amd64"; s$"-t"; image;
              s$"-f"; path_str dockerfile; path_str context_dir]
    None false true true echo_always ;;;
  run_logged [s$"docker"; s$"push"; image] None false true true echo_always ;;;
  ret tt.

Definition _acr_run_build (registry : str) (template : Path) (image : str)
    (dockerfile build_context workdir : Path) : M unit :=
  match relative_to template workdir with
  | None => raise (PyError s$"ValueError")
  | Some template_path =>
      run_logged [s$"az"; s$"acr"; s$"run"; s$"-f"; path_str template_path;
                  s$"--registry"; registry;
                  s$"--set"; s$"image=" ++ image;
                  s$"--set"; s$"dockerfile=" ++ path_str dockerfile;
                  s$"--set"; s$"platform=linux/amd64";
                  s$"--set"; s$"context=" ++ path_str build_context;
                  path_str workdir]
        None true true true echo_always ;;; ret tt
  end.

Definition _copy_into_context (root destination_root rel_path : Path) : M unit :=
  let source := path_join root rel_path in
  let destination := path_join destination_root rel_path in
  mkdir_parents (path_parent destination) ;;;
  is_dir <- path_is_dir source ;;
  if is_dir then copytree source destination else copy2 source destination.

(** [tempfile.TemporaryDirectory(prefix=...)] on entry, and its removal on
    exit *)
Definition mkdtemp (prefix : str) : M Path :=
  t <- next_tick ;;
  fun w => match fs_mkdtemp (files w) t prefix with
           | Some (dir, fs) => (set_files fs ;;; ret dir) w
           | None => (Raise (PyError s$"OSError"), w)
           end.

Definition rmtree (dir : Path) (w : World) : World :=
  with_files (fs_rmtree (files w) dir) w.

(** [with _staged_context(...) as (context_root, dockerfile, build_context):
    body] *)
Definition _staged_context {A} (root template : Path) (include_paths : list Path)
    (build_context dockerfile : Path) (target : str)
    (body : Path -> Path -> Path -> M A) : M A :=
  tmpdir <- mkdtemp (target ++ s$"-ctx-") ;;
  finally
    (let context_root := tmpdir in
     copy2 template (path_div context_root s$"acr-build.yaml") ;;;
     for_each include_paths (_copy_into_context root context_root) ;;;
     let build_context_abs := path_join context_root build_context in
     found <- path_exists build_context_abs ;;
     if negb found then raise (MissingBuildContext target build_context_abs)
     else body context_root dockerfile build_context)
    (rmtree tmpdir).

Definition build_and_push (env target : str) (dockerfile build_context : Path)
    (include_paths : list Path) (local_docker : bool) (tfvars_key : str)
    (registry_login_server : option str) (tfvars_path : option Path) : M str :=
  ensure [s$"terraform"; s$"az"] ;;;
  (if local_docker then ensure [s$"docker"] else ret tt) ;;;
  let paths := resolve_paths in
  ctx <- azure_context ;;
  tfvars <- match tfvars_path with
            | Some p => ret p
            | None => ensure_tfvars (workload paths) env
                        (subscription_id ctx) (tenant_id ctx)
            end ;;
  tfvars_data <- _safe_load_tfvars tfvars ;;
  login_server <- _registry_login_server registry_login_server tfvars_data ;;
  let registry_name := _registry_name_from_login_server login_server in
  let template := path_div repo_root s$"acr-build.yaml" in
  template_found <- path_exists template ;;
  if negb template_found then raise (MissingBuildTemplate template)
  else
    prefix <- environ_get s$"AZ_READER_IMAGE_REPOSITORY_PREFIX" ;;
    let image_repo := default s$"az-reader" prefix in
    tag_override <- environ_get s$"IMAGE_TAG" ;;
    image_tag <- (if str_truthy tag_override then ret (default [] tag_override)
                  else derive_image_tag (root paths)) ;;
    let full_image := login_server ++ s$"/" ++ image_repo ++ s$":" ++ image_tag in
    let remote_image := image_repo ++ s$":" ++ image_tag in
    for_each include_paths (fun rel_path =>
      found <- path_exists (path_join (root paths) rel_path) ;;
      if negb found then raise (MissingIncludePath rel_path) else ret tt) ;;;
    _staged_context (root paths) template include_paths build_context dockerfile target
      (fun context_root dockerfile_rel build_context_rel =>
         if local_docker then
           (if endswith login_server s$".azurecr.io"
            then _acr_docker_login registry_name else ret tt) ;;;
           _docker_build_and_push full_image
             (path_join context_root dockerfile_rel)
             (path_join context_root build_context_rel)
         else
           _acr_run_build registry_name (path_div context_root s$"acr-build.yaml")
             remote_image dockerfile_rel build_context_rel context_root) ;;;
    update_tfvars tfvars (dict2 s$"registry_login_server" login_server
                                tfvars_key full_image) ;;;
    print full_image ;;;
    ret full_image.

End BuildAndPush.
End BuildAndPush.

Import BuildAndPush.

(** ** [deploy_workload.py] *)
Module DeployWorkload.
Section DeployWorkload.
Context `{Externals}.

(** [logging.basicConfig(...)]: nothing the model observes. *)
Definition configure_logging : M unit := ret tt.

(** [_val(key)] of [_log_app_endpoints] *)
Definition _val (outputs : pyval) (key : str) : M (option str) :=
  match outputs with
  | VDict items _ =>
      match dict_get items key with
      | Some (VDict fields _) =>
          match dict_get fields s$"value" with
          | None | Some VNone => ret None
          | Some value => ret (Some (py_str value))
          end
      | Some _ => ret None
      | None => ret None                      (* {}.get("value") is None *)
      end
  | _ => raise (PyError s$"AttributeError")
  end.

Definition _normalize (url : str) : str :=
  if startswith url s$"http" then url else s$"https://" ++ url.

Definition _log_app_endpoints (workload_path : Path) : M unit :=
  outputs <- terraform_output workload_path ;;
  crawl_fqdn <- _val outputs s$"crawl_container_app_fqdn" ;;
  search_fqdn <- _val outputs s$"search_container_app_fqdn" ;;
  log_info s$"==> Deployment outputs" ;;;
  (if str_truthy crawl_fqdn
   then log_info (s$"Crawl app:  " ++ _normalize (default [] crawl_fqdn) ++ s$"/")
   else ret tt) ;;;
  (if str_truthy search_fqdn
   then log_info (s$"Search app: " ++ _normalize (default [] search_fqdn) ++ s$"/search")
   else ret tt).

Definition workload_include_paths : list Path :=
  map path_of_str [s$"Dockerfile"; s$"package.json"; s$"package-lock.json";
                   s$"build"; s$"public"; s$"licensed"].

Definition deploy_workload (env : str) (extra : list str) (local_docker : bool)
    (registry_login_server : option str) : M unit :=
  configure_logging ;;;
  ensure [s$"az"; s$"terraform"] ;;;
  ctx <- azure_context ;;
  export_core_tf_env env ctx ;;;
  let paths := resolve_paths in
  tfvars <- ensure_tfvars (workload paths) env (subscription_id ctx) (tenant_id ctx) ;;
  build_and_push env s$"az-reader" (path_of_str s$"Dockerfile") (path_of_str s$".")
    workload_include_paths local_docker s$"container_image"
    registry_login_server (Some tfvars) ;;;
  bootstrap_state <- load_bootstrap_state env paths ctx ;;
  update_tfvars tfvars
    [(s$"state_resource_group_name", resource_group bootstrap_state);
     (s$"state_storage_account_name", storage_account bootstrap_state);
     (s$"state_container_name", container bootstrap_state);
     (s$"state_blob_key", blob_key bootstrap_state)] ;;;
  log_info (s$"==> 20-workload (" ++ env ++ s$")") ;;;
  terraform_init_remote (workload paths) (tenant_id ctx)
    (resource_group bootstrap_state) (storage_account bootstrap_state)
    (container bootstrap_state) (blob_key bootstrap_state) ;;;
  terraform_plan (workload paths) tfvars extra ;;;
  terraform_apply (workload paths) tfvars true extra ;;;
  _log_app_endpoints (workload paths).

End DeployWorkload.
End DeployWorkload.

Import DeployWorkload.

(** ** [manage_tokens.py] *)
Module ManageTokens.
Section ManageTokens.
Context `{Externals}.

Definition _run_az (command : list str) : M (option str) :=
  r <- run_logged command None true true true echo_on_error ;;
  ret (stdout r).

(** One turn of the [for entry in entries] loop of [_load_tokens]; the state
    is the dict and [legacy_counter]. *)
Definition load_entry (state : gmap str str * nat) (entry : str) : gmap str str * nat :=
  let '(tokens, legacy_counter) := state in
  let entry := strip entry in
  if bool_decide (entry = []) then state
  else if contains ":"%char entry then
    (* name, value = entry.split(":", 1) *)
    let name := strip (before_sep ":"%char entry) in
    let value := strip (default [] (after_sep ":"%char entry)) in
    if negb (bool_decide (name = [])) && negb (bool_decide (value = []))
    then (<[name := value]> tokens, legacy_counter)
    else state
  else
    let placeholder := s$"legacy-" ++ str_of_nat legacy_counter in
    (<[placeholder := entry]> tokens, S legacy_counter).

(** [_load_tokens] once the command has returned [text]: [.strip()] and
    the rest of the function. *)
Definition tokens_of_output (text : str) : gmap str str :=
  let output := strip text in
  if bool_decide (output = []) then ∅
  else
    let entries := split ";"%char (replace ","%char ";"%char
                                     (replace LF ";"%char output)) in
    (fold_left load_entry entries (∅, 1)).1.

Definition secret_show (vault secret : str) : list str :=
  [s$"az"; s$"keyvault"; s$"secret"; s$"show"; s$"--vault-name"; vault;
   s$"--name"; secret; s$"--query"; s$"value"; s$"--output"; s$"tsv"].

Definition _load_tokens (vault secret : str) : M (gmap str str) :=
  try_except
    (out <- _run_az (secret_show vault secret) ;;
     match out with
     | Some text => ret (tokens_of_output text)
     | None => raise (PyError s$"AttributeError")
     end)
    is_any_error
    (ret ∅).

(** The order of [sorted(tokens.items())]: strings by code points, pairs by
    their first component and then their second. *)
Fixpoint str_leb (a b : str) : bool :=
  match a, b with
  | [], _ => true
  | _ :: _, [] => false
  | x :: a', y :: b' =>
      if (code x <? code y)%N then true
      else if (code x =? code y)%N then str_leb a' b'
      else false
  end.

Definition item_leb (a b : str * str) : bool :=
  if bool_decide (a.1 = b.1) then str_leb a.2 b.2 else str_leb a.1 b.1.

Definition item_le (a b : str * str) : Prop := Is_true (item_leb a b).

Global Instance item_le_dec : RelDecision item_le := fun a b => Is_true_dec (item_leb a b).

Definition sorted_items (tokens : gmap str str) : list (str * str) :=
  merge_sort item_le (map_to_list tokens).

(** The [value] written by [_save_tokens]. *)
Definition secret_value (tokens : gmap str str) : str :=
  join s$";" (map (fun item => item.1 ++ s$":" ++ item.2) (sorted_items tokens)).

Definition _save_tokens (vault secret : str) (tokens : gmap str str) : M unit :=
  _run_az [s$"az"; s$"keyvault"; s$"secret"; s$"set"; s$"--vault-name"; vault;
           s$"--name"; secret; s$"--value"; secret_value tokens] ;;;
  ret tt.

Definition _generate_token (length : nat) : M str :=
  t <- next_tick ;; ret (random_token t length).

Definition lift {A} (r : result A) : M A := fun w => (r, w).

Definition _validate_component (label component : str) : result unit :=
  if contains ":"%char component || contains ";"%char component
  then Raise (InvalidTokenComponent label)
  else Ok tt.

Definition _parse_name_value (raw : str) : result (str * str) :=
  let pieces :=
    if contains ":"%char raw
    then Some (before_sep ":"%char raw, default [] (after_sep ":"%char raw))
    else if contains "="%char raw
    then Some (before_sep "="%char raw, default [] (after_sep "="%char raw))
    else None in
  match pieces with
  | None => Raise InvalidTokenSyntax
  | Some (name, value) =>
      let name := strip name in
      let value := strip value in
      if bool_decide (name = []) || bool_decide (value = [])
      then Raise EmptyTokenComponent
      else match _validate_component s$"name" name with
           | Raise e => Raise e
           | Ok _ => match _validate_component s$"value" value with
                     | Raise e => Raise e
                     | Ok _ => Ok (name, value)
                     end
           end
  end.

(** [f"generated-{suffix}"] *)
Definition generated_name (suffix : nat) : str := s$"generated-" ++ str_of_nat suffix.

(** [while name in tokens: suffix += 1; name = f"generated-{suffix}"].  The
    loop leaves with the first suffix from [suffix] on whose name is free;
    [bound] counts the turns still allowed and [None] is a loop cut short. *)
Fixpoint skip_taken (bound : nat) (tokens : gmap str str) (suffix : nat) : option nat :=
  if bool_decide (generated_name suffix ∈ dom tokens) then
    match bound with
    | 0 => None
    | S bound' => skip_taken bound' tokens (S suffix)
    end
  else Some suffix.

(** The state of [manage_tokens] while it generates: [tokens] and
    [generated] (in insertion order). *)
Record TokenState := {
  tokens : gmap str str;
  generated : list (str * str)
}.

Definition record_generated (name token : str) (st : TokenState) : TokenState :=
  {| tokens := <[name := token]> (tokens st);
     generated := generated st ++ [(name, token)] |}.

(** [for idx in range(count)] with [idx] running from [idx] on.  The bound
    given to the inner loop is the size of [tokens]: after that many turns
    the names met would outnumber the dict. *)
Fixpoint generate_numbered (count idx : nat) (st : TokenState) : M TokenState :=
  match count with
  | 0 => ret st
  | S count' =>
      match skip_taken (size (tokens st)) (tokens st) (idx + 1) with
      | None => raise (PyError s$"LoopBound")
      | Some suffix =>
          token <- _generate_token 64 ;;
          generate_numbered count' (S idx)
            (record_generated (generated_name suffix) token st)
      end
  end.

(** One turn of [for item in generate] *)
Definition generate_item (item : str) (st : TokenState) : M TokenState :=
  if isdigit item then
    match int item with
    | None => raise (PyError s$"ValueError")
    | Some count => generate_numbered count 0 st
    end
  else
    let name := strip item in
    if bool_decide (name = []) then ret st
    else
      lift (_validate_component s$"name" name) ;;;
      if bool_decide (name ∈ dom (tokens st)) then raise (TokenNameCollision name)
      else
        token <- _generate_token 64 ;;
        ret (record_generated name token st).

Fixpoint generate_all (items : list str) (st : TokenState) : M TokenState :=
  match items with
  | [] => ret st
  | item :: rest => st' <- generate_item item st ;; generate_all rest st'
  end.

(** [for token in add: name, value = _parse_name_value(token); tokens[name] = value] *)
Fixpoint add_all (entries : list str) (tokens : gmap str str) : M (gmap str str) :=
  match entries with
  | [] => ret tokens
  | raw :: rest =>
      item <- lift (_parse_name_value raw) ;;
      add_all rest (<[item.1 := item.2]> tokens)
  end.

(** [for token in remove: tokens.pop(token, None)] *)
Definition remove_all (names : list str) (tokens : gmap str str) : gmap str str :=
  fold_left (fun m name => delete name m) names tokens.

(** [sorted(_parse_name_value(t)[0] for t in add)] *)
Fixpoint added_names (entries : list str) : M (list str) :=
  match entries with
  | [] => ret []
  | raw :: rest =>
      item <- lift (_parse_name_value raw) ;;
      names <- added_names rest ;;
      ret (item.1 :: names)
  end.

Definition str_le (a b : str) : Prop := Is_true (str_leb a b).

Global Instance str_le_dec : RelDecision str_le := fun a b => Is_true_dec (str_leb a b).

Definition manage_tokens (vault secret : str) (add remove generate : list str)
    (list_only : bool) : M unit :=
  loaded <- _load_tokens vault secret ;;
  st <- generate_all generate {| tokens := loaded; generated := [] |} ;;
  added <- add_all add (tokens st) ;;
  let final := remove_all remove added in
  if list_only && bool_decide (add = []) && bool_decide (remove = [])
     && bool_decide (generate = [])
  then
    for_each (sorted_items final) (fun item => print (item.1 ++ s$":" ++ item.2))
  else
    _save_tokens vault secret final ;;;
    print (s$"vault=" ++ vault) ;;;
    print (s$"secret=" ++ secret) ;;;
    print (s$"total_tokens=" ++ str_of_nat (size final)) ;;;
    (if bool_decide (generated st = []) then ret tt
     else print s$"generated:" ;;;
          for_each (generated st)
            (fun item => print (s$"  " ++ item.1 ++ s$":" ++ item.2))) ;;;
    (if bool_decide (add = []) then ret tt
     else names <- added_names add ;;
          print (s$"added_names=" ++ join s$"," (merge_sort str_le names))) ;;;
    (if bool_decide (remove = []) then ret tt
     else print (s$"removed_names=" ++ join s$"," (merge_sort str_le remove))).

End ManageTokens.
End ManageTokens.

Import ManageTokens.
(** ** [deploy_bootstrap.py] *)
Module DeployBootstrap.
Section DeployBootstrap.
Context `{Externals}.

(** [Path.resolve()]: what the file system makes of the links and of the
    [..] components of a path; [None] stands for the error it raises. *)
Variable fs_resolve : FS -> Path -> option Path.

Definition path_resolve (p : Path) : M Path :=
  fun w => match fs_resolve (files w) p with
           | Some resolved => (Ok resolved, w)
           | None => (Raise (PyError s$"OSError"), w)
           end.

Definition deploy_bootstrap (env : str) : M unit :=
  configure_logging ;;;
  ensure [s$"az"; s$"terraform"] ;;;
  ctx <- azure_context ;;
  export_core_tf_env env ctx ;;;
  let paths := resolve_paths in
  tfvars <- ensure_tfvars (bootstrap paths) env (subscription_id ctx) (tenant_id ctx) ;;
  let backend_state_path :=
    path_div (path_div (path_div (bootstrap paths) s$".state") env) s$"bootstrap.tfstate" in
  mkdir_parents (path_parent backend_state_path) ;;;
  log_info (s$"==> 00-bootstrap (" ++ env ++ s$")") ;;;
  resolved <- path_resolve backend_state_path ;;
  terraform_init_local (bootstrap paths) resolved ;;;
  terraform_plan (bootstrap paths) tfvars [] ;;;
  terraform_apply (bootstrap paths) tfvars true [].

End DeployBootstrap.
End DeployBootstrap.

Import DeployBootstrap.

(** ** The entry points, once [argparse] has read the command line *)
Module EntryPoints.
Section EntryPoints.
Context `{Externals}.

(** The variables of the loop of [main] in [deploy_workload.py]. *)
Record Flags := {
  local_docker : bool;
  registry_override : option str;
  cleaned_extra : list str;
  skip_next : bool
}.

(** [for idx, token in enumerate(extra)], from index [idx] on; [tokens] is
    what is left of [extra] there. *)
Fixpoint scan_extra (extra : list str) (idx : nat) (tokens : list str) (st : Flags)
  : Flags :=
  match tokens with
  | [] => st
  | token :: rest =>
      if skip_next st then
        scan_extra extra (S idx) rest
          {| local_docker := local_docker st;
             registry_override := registry_override st;
             cleaned_extra := cleaned_extra st;
             skip_next := false |}
      else if bool_decide (token = s$"--local-docker") then
        scan_extra extra (S idx) rest
          {| local_docker := true;
             registry_override := registry_override st;
             cleaned_extra := cleaned_extra st;
             skip_next := skip_next st |}
      else if bool_decide (token = s$"--registry-login-server") then
        if bool_decide (idx + 1 < length extra) then
          scan_extra extra (S idx) rest
            {| local_docker := local_docker st;
               registry_override := Some (nth (idx + 1) extra []);
               cleaned_extra := cleaned_extra st;
               skip_next := true |}
        else scan_extra extra (S idx) rest st
      else
        scan_extra extra (S idx) rest
          {| local_docker := local_docker st;
             registry_override := registry_override st;
             cleaned_extra := cleaned_extra st ++ [token];
             skip_next := skip_next st |}
  end.

(** The state of [main] when the loop starts, from what [parse_known_args]
    returned. *)
Definition parsed_flags (args_local_docker : bool)
    (args_registry_login_server : option str) : Flags :=
  {| local_docker := args_local_docker;
     registry_override := args_registry_login_server;
     cleaned_extra := [];
     skip_next := false |}.

(** [main] of [deploy_workload.py] after [parse_known_args]: [args.env],
    [args.local_docker], [args.registry_login_server] and [extra]. *)
Definition deploy_workload_main (args_env : str) (args_local_docker : bool)
    (args_registry_login_server : option str) (extra : list str) : M Z :=
  let st := scan_extra extra 0 extra
              (parsed_flags args_local_docker args_registry_login_server) in
  deploy_workload args_env (cleaned_extra st) (local_docker st) (registry_override st) ;;;
  ret 0%Z.

(** [_load_tfvars_data] and [_resolve_targets] of [manage_tokens.py] *)
Definition _load_tfvars_data (env : str) : M (list (str * pyval)) :=
  let paths := resolve_paths in
  ctx <- azure_context ;;
  tfvars <- ensure_tfvars (workload paths) env (subscription_id ctx) (tenant_id ctx) ;;
  try_except (load_tfvars tfvars) is_any_error (raise (TfvarsUnreadable tfvars)).

(** [str(tfvars_data.get("key_vault_name", "") or "").strip()] *)
Definition recorded_vault_name (tfvars_data : list (str * pyval)) : str :=
  let found := default (VStr []) (dict_get tfvars_data s$"key_vault_name") in
  strip (py_str (if truthy found then found else VStr [])).

Definition _resolve_targets (env : str) (vault_override secret_override : option str)
  : M (str * str) :=
  tfvars_data <- _load_tfvars_data env ;;
  let vault := if str_truthy vault_override then default [] vault_override
               else recorded_vault_name tfvars_data in
  if bool_decide (vault = []) then raise KeyVaultNameRequired
  else
    let secret := if str_truthy secret_override then default [] secret_override
                  else s$"self-host-tokens" in
    ret (vault, secret).

(** [main] of [manage_tokens.py] after [parse_args]. *)
Definition manage_tokens_main (args_env : str) (args_vault_name args_secret_name : option str)
    (args_add args_remove args_generate : list str) (args_list : bool) : M Z :=
  configure_logging ;;;
  targets <- _resolve_targets args_env args_vault_name args_secret_name ;;
  manage_tokens targets.1 targets.2 args_add args_remove args_generate args_list ;;;
  ret 0%Z.

End EntryPoints.
End EntryPoints.

Import EntryPoints.

(** ** A small outside, for the examples *)
Module Toy.

(** The file system is a list of paths with their text and every program is
    found.  [toy_outside behaviour json] runs a command as [behaviour] says
    and parses JSON as [json] says; [toy] is the outside where every command
    prints nothing and exits with 0 and where the parsers find nothing. *)
Definition toy_fs : Type := list (Path * str).

Definition toy_read (fs : toy_fs) (p : Path) : option str :=
  snd <$> List.find (fun entry => bool_decide (entry.1 = p)) fs.

Definition toy_copy (fs : toy_fs) (src dst : Path) : option toy_fs :=
  match toy_read fs src with
  | Some text => Some ((dst, text) :: fs)
  | None => None
  end.

Definition toy_tmp (t : nat) (prefix : str) : Path :=
  {| anchored := true; parts := [s$"tmp"; prefix ++ str_of_nat t] |}.

Definition toy_outside (behaviour : list str -> ProcRun)
    (json : str -> option pyval) : Externals := {|
  FS := toy_fs;
  repo_root := {| anchored := true; parts := [s$"repo"] |};
  fs_exists fs p := bool_decide (p ∈ fs.*1);
  fs_is_dir fs p := false;
  fs_read_text := toy_read;
  fs_write_text fs p text := Some ((p, text) :: fs);
  fs_mkdir_parents fs p := Some fs;
  fs_copy2 := toy_copy;
  fs_copytree := toy_copy;
  fs_mkdtemp fs t prefix := Some (toy_tmp t prefix, (toy_tmp t prefix, []) :: fs);
  fs_rmtree fs dir := List.filter (fun entry => negb (bool_decide (entry.1 = dir))) fs;
  which env fs binary := true;
  spawn env fs t cmd cwd := Some (behaviour cmd, fs);
  utc_timestamp t := s$"20240101000000";
  random_token t length := s$"token" ++ str_of_nat t;
  json_loads := json;
  hcl2_loads text := Some []
|}.

Definition toy : Externals :=
  toy_outside (fun _ => {| arrivals := []; exit_code := 0 |}) (fun _ => None).

Definition outside_world (behaviour : list str -> ProcRun)
    (json : str -> option pyval) (env : list (str * str)) (fs : toy_fs)
  : @World (toy_outside behaviour json) :=
  @Build_World (toy_outside behaviour json) (list_to_map env) fs 0 [].

Definition toy_world (env : list (str * str)) (fs : toy_fs) : @World toy :=
  @Build_World toy (list_to_map env) fs 0 [].

Definition repo_file (names : list str) : Path :=
  {| anchored := true; parts := s$"repo" :: names |}.

(** A checkout ready for the workload deployment: the identity, the registry
    and the image tag come from the environment, the variable file and the
    files of the build are there, and no bootstrap state file is. *)
Definition workload_world : @World toy :=
  toy_world
    [(s$"AZURE_SUBSCRIPTION_ID", s$"sub-1"); (s$"AZURE_TENANT_ID", s$"ten-1");
     (s$"REGISTRY_LOGIN_SERVER", s$"myacr.azurecr.io"); (s$"IMAGE_TAG", s$"v1")]
    [(repo_file [s$"infra"; s$"terraform"; s$"stacks"; s$"20-workload"; s$"dev.tfvars"],
      s$"a = 1");
     (repo_file [s$"acr-build.yaml"], []);
     (repo_file [s$"Dockerfile"], []);
     (repo_file [s$"package.json"], []);
     (repo_file [s$"package-lock.json"], []);
     (repo_file [s$"build"], []);
     (repo_file [s$"public"], []);
     (repo_file [s$"licensed"], [])].

End Toy.

Import Toy.

(** * The vocabulary of the statements, and the data of the examples *)
Section Vocabulary.
Context `{Externals}.

Definition no_lb (s : str) : Prop := Forall (fun c => is_linebreak c = false) s.
Definition all_space (s : str) : Prop := Forall (fun c => isspace c = true) s.

(** The last two statements of [_set_tfvar_value]. *)
Definition finish (lines : list str) : str :=
  let updated := join [LF] lines in
  if endswith updated [LF] then updated else updated ++ [LF].

(** What [splitlines] reads back from a finished text: the lines written, or
    the lines written without their empty last line. *)
Definition chopped (written back : list str) : Prop :=
  back = written \/ written = back ++ [[]].

(** A key the loop of [_set_tfvar_value] can find again after writing it. *)
Record key_ok (key : str) : Prop := {
  key_nonempty : key <> [];
  key_stripped : strip key = key;
  key_no_equals : "="%char ∉ key;
  key_no_hash : startswith key s$"#" = false;
  key_no_lb : no_lb key
}.

Definition unassigned (key : str) (lines : list str) : Prop :=
  Forall (fun line => assigns key line = false) lines.

Definition assignments (key text : str) : list str :=
  List.filter (assigns key) (splitlines text).

Definition unrelated (key text : str) : list str :=
  List.filter (fun line => negb (assigns key line)) (splitlines text).

Fixpoint leading_newlines (s : str) : nat :=
  match s with
  | c :: s' => if bool_decide (c = LF) then S (leading_newlines s') else 0
  | [] => 0
  end.

(** The number of newline characters the text ends with. *)
Definition trailing_newlines (s : str) : nat := leading_newlines (rev s).

(** C1 as the specification states it, for one choice of text, key and values. *)
Definition supersedes_as_stated (content key v1 v2 : str) : Prop :=
  let result := _set_tfvar_value (_set_tfvar_value content key v1) key v2 in
  (exists indent, all_space indent /\
     assignments key result = [indent ++ new_line key v2]) /\
  unrelated key result = unrelated key content.

(** C2 as the specification states it. *)
Definition appends_with_one_newline_as_stated (content key value : str) : Prop :=
  (unassigned key (splitlines content) ->
     _set_tfvar_value content key value
     = join [LF] (splitlines content ++ [new_line key value]) ++ [LF]) /\
  trailing_newlines (_set_tfvar_value content key value) = 1.

Definition two_assignments : str := s$"a=1" ++ [LF] ++ s$"a=2" ++ [LF].

Definition three_newlines : str := s$"a=1" ++ [LF; LF; LF].

(** A component that survives being written and read back: not empty, no
    space at either end, none of the characters the parser cuts at. *)
Record clean (s : str) : Prop := {
  clean_nonempty : s <> [];
  clean_stripped : strip s = s;
  clean_chars : Forall (fun c => c ∉ [":"; ";"; ","; LF]%char) s
}.

Definition valid_tokenset (S : gmap str str) : Prop :=
  map_Forall (fun name value => clean name /\ clean value) S.

(** The validity the specification asks of a TokenSet: no field or entry
    delimiter in a name or a value. *)
Definition delimiter_free (S : gmap str str) : Prop :=
  map_Forall (fun name value =>
    Forall (fun c => c ∉ [":"; ";"]%char) name /\
    Forall (fun c => c ∉ [":"; ";"]%char) value) S.

Definition entry_text (item : str * str) : str := item.1 ++ s$":" ++ item.2.

Definition clean_item (item : str * str) : Prop := clean item.1 /\ clean item.2.

(** C4 as the specification states it. *)
Definition round_trip_as_stated (S : gmap str str) : Prop :=
  delimiter_free S ->
  secret_value (tokens_of_output (secret_value S)) = secret_value S.

Definition comma_value : gmap str str := {[ s$"a" := s$"x,y" ]}.

Definition free_suffix (T : gmap str str) (k : nat) : Prop :=
  1 <= k /\ generated_name k ∉ dom T.

(** [ks] lists, in increasing order, free suffixes below which no other
    suffix is free: the [length ks] smallest ones. *)
Definition smallest_free (T : gmap str str) (ks : list nat) : Prop :=
  StronglySorted lt ks /\ Forall (free_suffix T) ks /\
  (forall j, free_suffix T j -> j ∉ ks -> Forall (fun k => k < j) ks).

Definition names_of (ks : list nat) : gset str := list_to_set (generated_name <$> ks).

(** The invariant of [for idx in range(count)]. *)
Record numbered_inv (T0 : gmap str str) (idx : nat) (ks : list nat) (st : TokenState)
  : Prop := {
  inv_length : length ks = idx;
  inv_smallest : smallest_free T0 ks;
  inv_dom : dom (tokens st) = dom T0 ∪ names_of ks;
  inv_below : forall j, 1 <= j <= idx -> generated_name j ∈ dom (tokens st);
  inv_kept : forall name value, T0 !! name = Some value -> tokens st !! name = Some value
}.

Definition one_taken : @TokenState :=
  {| tokens := {[ s$"generated-2" := s$"x" ]}; generated := [] |}.

(** The invariant of a TokenSet on its names: not empty, no delimiter. *)
Definition valid_name (name : str) : Prop :=
  name <> [] /\ (":"%char ∉ name) /\ (";"%char ∉ name).

Definition names_valid (T : gmap str str) : Prop :=
  forall name, name ∈ dom T -> valid_name name.

Definition alice_set : gmap str str := {[ s$"alice" := s$"old" ]}.

(** The lines of one stream, in the order they arrived. *)
Definition stream_lines (s : stream) (lines : list (stream * str)) : list str :=
  (List.filter (fun a => bool_decide (a.1 = s)) lines).*2.

(** What is written after the exit under [echo="on_error"]. *)
Definition replay (run : ProcRun) : list event :=
  if (exit_code run =? 0)%Z then []
  else (EvWrite Stdout <$> stream_lines Stdout (arrivals run))
       ++ (EvWrite Stderr <$> stream_lines Stderr (arrivals run)).

(** The text the terminal has received on the two standard streams. *)
Fixpoint terminal_text (evs : list event) : str :=
  match evs with
  | [] => []
  | EvWrite _ text :: rest => text ++ terminal_text rest
  | EvChild _ text :: rest => text ++ terminal_text rest
  | _ :: rest => terminal_text rest
  end.

Definition failed (run : ProcRun) (check : bool) : bool :=
  check && negb (exit_code run =? 0)%Z.

(** The result of a captured run, as [run_logged] returns or raises it. *)
Definition captured_result (cmd : list str) (run : ProcRun) (check : bool)
  : result CompletedProcess :=
  let out := join [] (stream_lines Stdout (arrivals run)) in
  let err := join [] (stream_lines Stderr (arrivals run)) in
  if failed run check
  then Raise (ProcessFailed (exit_code run) cmd (Some out) (Some err))
  else Ok {| args := cmd; returncode := exit_code run;
             stdout := Some out; stderr := Some err |}.

Definition on_error_events (cmd : list str) (cwd : option Path) (run : ProcRun)
  : list event :=
  [EvLog (s$"$ " ++ join s$" " cmd); EvSpawn cmd cwd; EvExit (exit_code run)]
  ++ replay run.

(** A command that fails after one line on each stream, the stderr line
    being handled first. *)
Definition fails_with_a_and_b (cmd : list str) : ProcRun :=
  {| arrivals := [(Stderr, s$"B" ++ [LF]); (Stdout, s$"A" ++ [LF])];
     exit_code := 1 |}.

(** A variable that is set to a text that is not empty. *)
Definition present (w : World) (name : str) : bool :=
  str_truthy (environ w !! name).

Definition env_subscription (w : World) : option str :=
  or_else (environ w !! s$"AZURE_SUBSCRIPTION_ID") (environ w !! s$"ARM_SUBSCRIPTION_ID").

Definition env_tenant (w : World) : option str :=
  or_else (environ w !! s$"AZURE_TENANT_ID") (environ w !! s$"ARM_TENANT_ID").

(** C7 as the specification states it: the environment is used when one of the
    two pairs is complete, the command is asked when neither is. *)
Definition resolve_as_stated (w : World) : Prop :=
  (present w s$"AZURE_SUBSCRIPTION_ID" && present w s$"AZURE_TENANT_ID"
   || present w s$"ARM_SUBSCRIPTION_ID" && present w s$"ARM_TENANT_ID" = true ->
   exists ctx, azure_context w = (Ok ctx, w)) /\
  (present w s$"AZURE_SUBSCRIPTION_ID" && present w s$"AZURE_TENANT_ID"
   || present w s$"ARM_SUBSCRIPTION_ID" && present w s$"ARM_TENANT_ID" = false ->
   azure_context w = query_identity w).

(** The subscription under its primary name, the tenant under its fallback
    name: neither pair is complete. *)
Definition mixed_world : @World toy :=
  toy_world [(s$"AZURE_SUBSCRIPTION_ID", s$"sub-1"); (s$"ARM_TENANT_ID", s$"ten-1")] [].

Definition account_json : pyval :=
  VDict [(s$"id", VStr s$"sub-9"); (s$"tenantId", VStr s$"ten-9")] s$"{...}".

Definition az_prints_account (cmd : list str) : ProcRun :=
  {| arrivals := [(Stdout, s$"{...}")]; exit_code := 0 |}.

(** The first of the sources that is there and not empty. *)
Fixpoint first_present (sources : list (option str)) : option str :=
  match sources with
  | [] => None
  | source :: rest => if str_truthy source then source else first_present rest
  end.

(** The four sources of the endpoint, in the order of the specification. *)
Definition endpoint_sources (override : option str) (tfvars_data : list (str * pyval))
    (w : World) : list (option str) :=
  [override;
   environ w !! s$"AZ_READER_REGISTRY_LOGIN_SERVER";
   environ w !! s$"REGISTRY_LOGIN_SERVER";
   Some (recorded_login_server tfvars_data)].

(** C8 as the specification states it: the first source that is present is
    the endpoint, and the failure is for no source being present. *)
Definition endpoint_as_stated (override : option str)
    (tfvars_data : list (str * pyval)) (w : World) : Prop :=
  _registry_login_server override tfvars_data w
  = (match first_present (endpoint_sources override tfvars_data w) with
     | Some value => Ok value
     | None => Raise RegistryEndpointRequired
     end, w).

(** [m] raises only errors that satisfy [P]. *)
Definition raises_only {A} (P : error -> Prop) (m : M A) : Prop :=
  forall w e w', m w = (Raise e, w') -> P e.

Definition not_upstream (e : error) : Prop :=
  match e with
  | UpstreamNotBootstrapped _ _ => False
  | _ => True
  end.

(** [tfvars_path.read_text() if tfvars_path.exists() else ""] on the file
    system [fs]; [None] when the file is there and cannot be read. *)
Definition text_before (fs : FS) (p : Path) : option str :=
  if fs_exists fs p then fs_read_text fs p else Some [].

(** The first line of [written] that assigns [key] is [key = "value"] behind
    leading space only, and the later lines that assign [key] are those of
    [previous]. *)
Definition records (key value previous written : str) : Prop :=
  exists indent,
    all_space indent /\
    assignments key written
    = (indent ++ new_line key value) :: tl (assignments key previous).

(** The command that builds the image: the push that ends a local build, or
    the run of the build task of the registry. *)
Definition build_command (local_docker : bool) (image : str) (cmd : list str) : Prop :=
  if local_docker then cmd = [s$"docker"; s$"push"; image]
  else exists rest, cmd = s$"az" :: s$"acr" :: s$"run" :: rest.

(** [deploy_workload] from its first line to the call of [ensure_tfvars]. *)
Definition workload_prepare (env : str) : M (AzureContext * Path) :=
  configure_logging ;;;
  ensure [s$"az"; s$"terraform"] ;;;
  ctx <- azure_context ;;
  export_core_tf_env env ctx ;;;
  tfvars <- ensure_tfvars (workload resolve_paths) env
              (subscription_id ctx) (tenant_id ctx) ;;
  ret (ctx, tfvars).

(** The call of [build_and_push] in [deploy_workload]. *)
Definition workload_build (env : str) (local_docker : bool)
    (registry_login_server : option str) (tfvars : Path) : M str :=
  build_and_push env s$"az-reader" (path_of_str s$"Dockerfile") (path_of_str s$".")
    workload_include_paths local_docker s$"container_image"
    registry_login_server (Some tfvars).

(** [deploy_workload] from the call of [load_bootstrap_state] to its end:
    the initialization of the remote backend, then plan and apply. *)
Definition workload_backend (env : str) (extra : list str) (ctx : AzureContext)
    (tfvars : Path) : M unit :=
  let paths := resolve_paths in
  bootstrap_state <- load_bootstrap_state env paths ctx ;;
  update_tfvars tfvars
    [(s$"state_resource_group_name", resource_group bootstrap_state);
     (s$"state_storage_account_name", storage_account bootstrap_state);
     (s$"state_container_name", container bootstrap_state);
     (s$"state_blob_key", blob_key bootstrap_state)] ;;;
  log_info (s$"==> 20-workload (" ++ env ++ s$")") ;;;
  terraform_init_remote (workload paths) (tenant_id ctx)
    (resource_group bootstrap_state) (storage_account bootstrap_state)
    (container bootstrap_state) (blob_key bootstrap_state) ;;;
  terraform_plan (workload paths) tfvars extra ;;;
  terraform_apply (workload paths) tfvars true extra ;;;
  _log_app_endpoints (workload paths).

Definition dev_tfvars : Path :=
  repo_file [s$"infra"; s$"terraform"; s$"stacks"; s$"20-workload"; s$"dev.tfvars"].

Definition dev_state_path : Path :=
  repo_file [s$"infra"; s$"terraform"; s$"stacks"; s$"00-bootstrap"; s$".state";
             s$"dev"; s$"bootstrap.tfstate"].

Definition dev_context : AzureContext :=
  {| subscription_id := VStr s$"sub-1"; tenant_id := VStr s$"ten-1" |}.

Definition dev_image : str := s$"myacr.azurecr.io/az-reader:v1".

End Vocabulary.

(** * Further vocabulary *)
Section FurtherVocabulary.
Context `{Externals}.

(** The two options [main] of [deploy_workload.py] looks for among the
    arguments it passes on. *)
Definition is_build_flag (token : str) : bool :=
  bool_decide (token = s$"--local-docker")
  || bool_decide (token = s$"--registry-login-server").

Definition flag_free (tokens : list str) : Prop :=
  Forall (fun token => is_build_flag token = false) tokens.

(** A name or a value [_parse_name_value] lets through. *)
Record token_component (s : str) : Prop := {
  component_nonempty : s <> [];
  component_stripped : strip s = s;
  component_no_colon : ":"%char ∉ s;
  component_no_semicolon : ";"%char ∉ s
}.

(** The failures of [_parse_name_value]. *)
Definition parse_failures : list error :=
  [InvalidTokenSyntax; EmptyTokenComponent;
   InvalidTokenComponent s$"name"; InvalidTokenComponent s$"value"].

(** [f"legacy-{legacy_counter}"] *)
Definition legacy_name (counter : nat) : str := s$"legacy-" ++ str_of_nat counter.


(** The events a piece of the tooling may add: the commands it may start
    and the files it may write; it may always log, print and pass on what a
    command writes. *)
Definition allowed (spawn_ok : list str -> Prop) (write_ok : Path -> Prop) (e : event)
  : Prop :=
  match e with
  | EvSpawn cmd _ => spawn_ok cmd
  | EvWriteFile target _ => write_ok target
  | _ => True
  end.

(** Whatever its outcome, [m] adds to the events only events that satisfy
    [P]. *)
Definition emits_only {A} (P : event -> Prop) (m : M A) : Prop :=
  forall w, exists new, events (m w).2 = events w ++ new /\ Forall P new.

(** Commands by their first words. *)
Definition starts_with (words cmd : list str) : Prop :=
  exists args, cmd = words ++ args.

(** The commands [build_and_push] may start: the identity query, [git] for
    the tag, and the build itself, local or by the registry. *)
Definition build_commands (local_docker : bool) (cmd : list str) : Prop :=
  cmd = az_account_show \/ starts_with [s$"git"] cmd \/
  if local_docker
  then starts_with [s$"az"; s$"acr"; s$"login"] cmd \/ starts_with [s$"docker"] cmd
  else starts_with [s$"az"; s$"acr"; s$"run"] cmd.

(** An event that is not the writing of a file. *)
Definition not_write : event -> Prop := allowed (fun _ => True) (fun _ => False).

(** An event that is not the start of [terraform apply]. *)
Definition not_apply : event -> Prop :=
  allowed (fun cmd => ~ starts_with [s$"terraform"; s$"apply"] cmd) (fun _ => True).

Definition is_child (e : event) : Prop :=
  match e with
  | EvChild _ _ => True
  | _ => False
  end.

(** The commands of [terraform_plan] and of [terraform_apply] with
    [auto_approve]. *)
Definition plan_command (var_file : str) (extra : list str) : list str :=
  [s$"terraform"; s$"plan"; s$"-var-file"; var_file] ++ extra.

Definition apply_command (var_file : str) (extra : list str) : list str :=
  [s$"terraform"; s$"apply"; s$"-var-file"; var_file; s$"--auto-approve"] ++ extra.

(** [terraform apply] is not started, or it is started once, right after a
    [terraform plan] with the same variable file and the same further
    arguments [extra] has exited with 0. *)
Definition applied_after_plan (extra : list str) (new : list event) : Prop :=
  Forall not_apply new \/
  exists before children after stack_dir var_file,
    new = before
          ++ [EvSpawn (plan_command var_file extra) (Some stack_dir)]
          ++ children
          ++ [EvExit 0;
              EvLog (s$"$ " ++ join s$" " (apply_command var_file extra));
              EvSpawn (apply_command var_file extra) (Some stack_dir)]
          ++ after /\
    Forall not_apply before /\ Forall is_child children /\ Forall not_apply after.

(** What a run without capture returns or raises. *)
Definition plain_result (cmd : list str) (run : ProcRun) (check : bool)
  : result CompletedProcess :=
  if failed run check
  then Raise (ProcessFailed (exit_code run) cmd None None)
  else Ok {| args := cmd; returncode := exit_code run; stdout := None; stderr := None |}.

(** What a run with capture writes while the command runs, and after it. *)
Definition live_events (echo : echo_policy) (run : ProcRun) : list event :=
  match echo with
  | echo_always => (fun a => EvWrite a.1 a.2) <$> arrivals run
  | _ => []
  end.

Definition replay_events (echo : echo_policy) (run : ProcRun) : list event :=
  match echo with
  | echo_on_error => replay run
  | _ => []
  end.

(** The world after a command was started at [w]: one tick later, with the
    files the command left and the events [new] added. *)
Definition after_command (w : World) (fs : FS) (new : list event) : World :=
  with_events (events w ++ new) (with_files fs (with_tick (S (tick w)) w)).

(** The three [git] commands of [derive_image_tag]. *)
Definition git_rev_parse (root : Path) : list str :=
  [s$"git"; s$"-C"; path_str root; s$"rev-parse"; s$"--short=12"; s$"HEAD"].

Definition git_diff_staged (root : Path) : list str :=
  [s$"git"; s$"-C"; path_str root; s$"diff"; s$"--quiet"; s$"--no-ext-diff"; s$"--cached"].

Definition git_diff_unstaged (root : Path) : list str :=
  [s$"git"; s$"-C"; path_str root; s$"diff"; s$"--quiet"; s$"--no-ext-diff"].

(** The events of a captured command that echoes as it goes. *)
Definition echoed_command (cmd : list str) (run : ProcRun) : list event :=
  [EvLog (s$"$ " ++ join s$" " cmd); EvSpawn cmd None]
  ++ live_events echo_always run ++ [EvExit (exit_code run)].

(** A repository where [git] answers with a commit and reports staged
    changes. *)
Definition dirty_checkout (cmd : list str) : ProcRun :=
  if bool_decide (s$"rev-parse" ∈ cmd)
  then {| arrivals := [(Stdout, s$"0a1b2c3d4e5f" ++ [LF])]; exit_code := 0 |}
  else {| arrivals := []; exit_code := 1 |}.

(** A repository where [git] fails. *)
Definition no_checkout (cmd : list str) : ProcRun :=
  {| arrivals := [(Stderr, s$"fatal: not a git repository" ++ [LF])]; exit_code := 128 |}.

(** The variable file of a stack and the three examples it can be seeded
    from, in the order [ensure_tfvars] tries them. *)
Definition tfvars_target (stack_dir : Path) (env : str) : Path :=
  path_div stack_dir (env ++ s$".tfvars").

Definition tfvars_examples (stack_dir : Path) (env : str) : list Path :=
  [path_div stack_dir (s$"terraform.tfvars." ++ env ++ s$".example");
   path_div stack_dir (env ++ s$".tfvars.example");
   path_div stack_dir s$"terraform.tfvars.example"].

(** The three assignments [ensure_tfvars] makes. *)
Definition with_core_values (content env : str) (subscription_id tenant_id : pyval) : str :=
  _set_tfvar_value
    (_set_tfvar_value
       (_set_tfvar_value content s$"subscription_id" (py_str subscription_id))
       s$"tenant_id" (py_str tenant_id))
    s$"environment_code" env.

(** The output [key] of a stack is there and its value, which is not
    [None], reads [value]. *)
Definition has_output (items : list (str * pyval)) (key value : str) : Prop :=
  exists fields shown v,
    dict_get items key = Some (VDict fields shown) /\
    dict_get fields s$"value" = Some v /\ v <> VNone /\ value = py_str v.

(** The output [key] is not there, or it has no value, or its value is
    [None]. *)
Definition lacks_output (items : list (str * pyval)) (key : str) : Prop :=
  dict_get items key = None \/
  exists fields shown,
    dict_get items key = Some (VDict fields shown) /\
    (dict_get fields s$"value" = None \/ dict_get fields s$"value" = Some VNone).

(** The outputs [bootstrap_state_from_outputs] asks for, in its order. *)
Definition state_outputs : list str :=
  [s$"state_rg_name"; s$"state_storage_account_name"; s$"state_container_name";
   s$"state_blob_key"].

(** One output as [terraform output -json] gives it. *)
Definition output_node (value : pyval) : pyval :=
  VDict [(s$"sensitive", VOther false s$"False"); (s$"type", VStr s$"string");
         (s$"value", value)] s$"{...}".

(** The outputs of a bootstrap stack, and the same without the storage
    account. *)
Definition dev_outputs : list (str * pyval) :=
  [(s$"state_rg_name", output_node (VStr s$"rg-dev"));
   (s$"state_storage_account_name", output_node (VStr s$"stdev"));
   (s$"state_container_name", output_node (VStr s$"tfstate"));
   (s$"state_blob_key", output_node (VStr s$"bootstrap.tfstate"))].

Definition partial_outputs : list (str * pyval) :=
  [(s$"state_rg_name", output_node (VStr s$"rg-dev"));
   (s$"state_storage_account_name", output_node VNone)].

(** [build_and_push] writes the variable file last, and only then: after a
    failure no file was written; after a success the events end with the
    writing of the variable file and the printing of the image, and no other
    file was written. *)
Definition written_last (tfvars : Path) (outcome : result str) (new : list event) : Prop :=
  match outcome with
  | Raise _ => Forall not_write new
  | Ok image =>
      exists before content,
        new = before ++ [EvWriteFile tfvars content; EvPrint image] /\
        Forall not_write before
  end.

(** The commands of the deployments before plan and apply. *)
Definition workload_commands (local_docker : bool) (cmd : list str) : Prop :=
  build_commands local_docker cmd \/ starts_with [s$"terraform"] cmd.

(** An event that is not the start of a [terraform] command. *)
Definition not_terraform : event -> Prop :=
  allowed (fun cmd => ~ starts_with [s$"terraform"] cmd) (fun _ => True).

Definition ends_with_write (tfvars : Path) (m : M str) : Prop :=
  forall w, exists new,
    events (m w).2 = events w ++ new /\ written_last tfvars (m w).1 new.

(** Whatever its outcome, [m] starts [terraform apply] only after a plan
    that succeeded. *)
Definition plans_before_applying {A} (extra : list str) (m : M A) : Prop :=
  forall w, exists new, events (m w).2 = events w ++ new /\ applied_after_plan extra new.

(** The events of a command that is run without capture. *)
Definition plain_command (cmd : list str) (cwd : option Path) (run : ProcRun)
  : list event :=
  [EvLog (s$"$ " ++ join s$" " cmd); EvSpawn cmd cwd]
  ++ ((fun a => EvChild a.1 a.2) <$> arrivals run)
  ++ [EvExit (exit_code run)].

(** The command of [_save_tokens]. *)
Definition secret_set (vault secret : str) (tokens : gmap str str) : list str :=
  [s$"az"; s$"keyvault"; s$"secret"; s$"set"; s$"--vault-name"; vault;
   s$"--name"; secret; s$"--value"; secret_value tokens].

(** The failures by which [manage_tokens] refuses what it was asked. *)
Definition refused (e : error) : bool :=
  match e with
  | InvalidTokenSyntax | EmptyTokenComponent | InvalidTokenComponent _
  | TokenNameCollision _ => true
  | _ => false
  end.

(** The commands [manage_tokens] may start: the lookup, and the saving of a
    set that holds none of the names to remove and every name that was
    added and is not to be removed. *)
Definition token_commands (vault secret : str) (add remove : list str) (cmd : list str)
  : Prop :=
  cmd = secret_show vault secret \/
  exists saved : gmap str str,
    cmd = secret_set vault secret saved /\
    (forall name, name ∈ remove -> saved !! name = None) /\
    (forall raw name value,
        raw ∈ add -> _parse_name_value raw = Ok (name, value) -> name ∉ remove ->
        is_Some (saved !! name)).

(** The lines printed after a save that added one token to an empty set. *)
Definition report_one_added (vault secret name : str) : M unit :=
  print (s$"vault=" ++ vault) ;;;
  print (s$"secret=" ++ secret) ;;;
  print s$"total_tokens=1" ;;;
  print (s$"added_names=" ++ name).

(** A vault whose lookup fails. *)
Definition vault_out_of_reach (cmd : list str) : ProcRun :=
  if bool_decide (s$"show" ∈ cmd)
  then {| arrivals := [(Stderr, s$"ERROR: timed out" ++ [LF])]; exit_code := 1 |}
  else {| arrivals := []; exit_code := 0 |}.

(** The commands [main] of [manage_tokens.py] may start: the identity
    query, and the commands of [manage_tokens] for a vault and a secret
    whose names are not empty. *)
Definition main_commands (add remove : list str) (cmd : list str) : Prop :=
  cmd = az_account_show \/
  exists vault secret,
    vault <> [] /\ secret <> [] /\ token_commands vault secret add remove cmd.

End FurtherVocabulary.
(** * Properties *)

(** ** Facts about the string primitives *)
Section PyStrFacts.

Lemma linebreak_isspace c : is_linebreak c = true -> isspace c = true.
Proof.
  unfold is_linebreak, isspace. rewrite !bool_decide_eq_true.
  generalize (code c). intros n Hn.
  rewrite !elem_of_cons in Hn. rewrite !elem_of_cons. tauto.
Qed.

Lemma nonspace_not_linebreak c : isspace c = false -> is_linebreak c = false.
Proof.
  intros Hs. destruct (is_linebreak c) eqn:Hl; [|done].
  apply linebreak_isspace in Hl. congruence.
Qed.

Lemma lstrip_length s : length (lstrip s) <= length s.
Proof. induction s as [|c s IH]; simpl; [lia|]. destruct (isspace c); simpl; lia. Qed.

Lemma lstrip_all_space ws s : all_space ws -> lstrip (ws ++ s) = lstrip s.
Proof. induction 1 as [|c ws Hc _ IH]; simpl; [done|]. by rewrite Hc. Qed.

Lemma lstrip_nonspace c s : isspace c = false -> lstrip (c :: s) = c :: s.
Proof. intros H. simpl. by rewrite H. Qed.

Lemma lstrip_fixed_head c s : lstrip (c :: s) = c :: s -> isspace c = false.
Proof.
  simpl. destruct (isspace c) eqn:Hc; [|done]. intros H.
  pose proof (lstrip_length s) as Hl. rewrite H in Hl. simpl in Hl. lia.
Qed.

Lemma lstrip_split s : exists ws, all_space ws /\ s = ws ++ lstrip s.
Proof.
  induction s as [|c s (ws & Hws & Hs)]; simpl.
  - exists []. split; [constructor | done].
  - destruct (isspace c) eqn:Hc.
    + exists (c :: ws). split; [by constructor|]. simpl. by f_equal.
    + exists []. split; [constructor | done].
Qed.

Lemma lstrip_idem s : lstrip (lstrip s) = lstrip s.
Proof.
  induction s as [|c s IH]; simpl; [done|].
  destruct (isspace c) eqn:Hc; [done|]. simpl. by rewrite Hc.
Qed.

Lemma rstrip_length s : length (rstrip s) <= length s.
Proof.
  unfold rstrip. rewrite length_rev.
  pose proof (lstrip_length (rev s)) as H. by rewrite length_rev in H.
Qed.

Lemma rstrip_snoc_nonspace s c : isspace c = false -> rstrip (s ++ [c]) = s ++ [c].
Proof.
  intros Hc. unfold rstrip. rewrite rev_app_distr. simpl. rewrite Hc.
  simpl. by rewrite rev_involutive.
Qed.

Lemma rstrip_snoc_space s c : isspace c = true -> rstrip (s ++ [c]) = rstrip s.
Proof. intros Hc. unfold rstrip. rewrite rev_app_distr. simpl. by rewrite Hc. Qed.

Lemma rstrip_nil : rstrip [] = [].
Proof. done. Qed.

(** A string that [strip] leaves alone neither starts nor ends with a space. *)
Lemma strip_fixed_lstrip s : strip s = s -> lstrip s = s.
Proof.
  intros H. destruct s as [|c s]; [done|].
  apply lstrip_nonspace. destruct (isspace c) eqn:Hc; [|done].
  exfalso. unfold strip in H. simpl in H. rewrite Hc in H.
  pose proof (rstrip_length (lstrip s)) as H1.
  pose proof (lstrip_length s) as H2. rewrite H in H1. simpl in H1. lia.
Qed.

Lemma strip_fixed_rstrip s : strip s = s -> rstrip s = s.
Proof. intros H. pose proof (strip_fixed_lstrip s H) as Hl. unfold strip in H. by rewrite Hl in H. Qed.

Lemma rstrip_cons_nonspace c s : isspace c = false -> rstrip (c :: s) = c :: rstrip s.
Proof.
  intros Hc. revert c Hc. induction s as [|d s IH] using rev_ind; intros c Hc.
  - change [c] with ([] ++ [c]). by rewrite rstrip_snoc_nonspace.
  - rewrite app_comm_cons. destruct (isspace d) eqn:Hd.
    + rewrite !rstrip_snoc_space by done. by apply IH.
    + by rewrite !rstrip_snoc_nonspace.
Qed.

Lemma strip_all_space_l ws s : all_space ws -> strip (ws ++ s) = strip s.
Proof. intros H. unfold strip. by rewrite lstrip_all_space. Qed.

(** [startswith] and [endswith] *)
Lemma endswith_snoc s c d : endswith (s ++ [c]) [d] = bool_decide (d = c).
Proof. unfold endswith. rewrite rev_app_distr. simpl. by rewrite andb_true_r. Qed.

Lemma endswith_nil c : endswith [] [c] = false.
Proof. done. Qed.

(** [before_sep], [after_sep] *)
Lemma before_sep_app c s t : c ∉ s -> before_sep c (s ++ c :: t) = s.
Proof.
  induction s as [|x s IH]; intros Hn; simpl.
  - by rewrite bool_decide_eq_true_2.
  - rewrite bool_decide_eq_false_2 by set_solver. f_equal. apply IH. set_solver.
Qed.

Lemma after_sep_app c s t : c ∉ s -> after_sep c (s ++ c :: t) = Some t.
Proof.
  induction s as [|x s IH]; intros Hn; simpl.
  - by rewrite bool_decide_eq_true_2.
  - rewrite bool_decide_eq_false_2 by set_solver. apply IH. set_solver.
Qed.

Lemma after_sep_none c s : c ∉ s -> after_sep c s = None.
Proof.
  induction s as [|x s IH]; intros Hn; simpl; [done|].
  rewrite bool_decide_eq_false_2 by set_solver. apply IH. set_solver.
Qed.

(** [join] *)
Lemma join_cons2 sep x y l : join sep (x :: y :: l) = x ++ sep ++ join sep (y :: l).
Proof. done. Qed.

Lemma join_snoc sep l x : l <> [] -> join sep (l ++ [x]) = join sep l ++ sep ++ x.
Proof.
  induction l as [|y l IH]; intros Hne; [done|].
  destruct l as [|z l]; [done|].
  change ((y :: z :: l) ++ [x]) with (y :: z :: (l ++ [x])).
  rewrite !join_cons2. change (z :: l ++ [x]) with ((z :: l) ++ [x]).
  rewrite IH by done. by rewrite !app_assoc.
Qed.

End PyStrFacts.

(** ** [splitlines] against [join] *)
Section Lines.

Lemma LF_linebreak : is_linebreak LF = true.
Proof. done. Qed.

Lemma no_lb_not_LF c : is_linebreak c = false -> c <> LF.
Proof. intros H ->. by rewrite LF_linebreak in H. Qed.

Lemma splitlines_app_lf l rest :
  no_lb l -> splitlines (l ++ LF :: rest) = l :: splitlines rest.
Proof.
  induction 1 as [|c l Hc _ IH]; [done|].
  simpl. rewrite Hc. simpl in IH. by rewrite IH.
Qed.

Lemma splitlines_nolb l : no_lb l -> l <> [] -> splitlines l = [l].
Proof.
  induction 1 as [|c l Hc Hl IH]; [done|]. intros _.
  simpl. rewrite Hc. destruct l as [|d l]; [done|].
  by rewrite IH.
Qed.

Lemma splitlines_join_lf L :
  Forall no_lb L -> L <> [] -> splitlines (join [LF] L ++ [LF]) = L.
Proof.
  induction 1 as [|x L Hx HL IH]; [done|]. intros _.
  destruct L as [|y L].
  - simpl. by rewrite splitlines_app_lf.
  - rewrite join_cons2. rewrite <- !app_assoc. simpl.
    rewrite splitlines_app_lf by done. f_equal. by apply IH.
Qed.

Lemma splitlines_join L :
  Forall no_lb L -> L <> [] -> last L <> Some [] -> splitlines (join [LF] L) = L.
Proof.
  induction 1 as [|x L Hx HL IH]; [done|]. intros _ Hlast.
  destruct L as [|y L].
  - simpl. apply splitlines_nolb; [done|]. intros ->. by apply Hlast.
  - rewrite join_cons2. simpl. rewrite splitlines_app_lf by done.
    f_equal. apply IH; [done|]. by rewrite last_cons_cons in Hlast.
Qed.

Lemma splitlines_no_lb_len n s : length s <= n -> Forall no_lb (splitlines s).
Proof.
  revert s. induction n as [|n IH]; intros [|c s] Hlen; simpl in *;
    try (constructor; fail); try lia.
  destruct (is_linebreak c) eqn:Hc.
  - constructor; [constructor|].
    case_bool_decide; [|apply IH; lia].
    destruct s as [|d s]; [constructor|].
    case_bool_decide; apply IH; simpl in *; lia.
  - assert (Forall no_lb (splitlines s)) as Hs by (apply IH; lia).
    destruct (splitlines s) as [|line lines].
    + repeat constructor. done.
    + inversion Hs; subst. constructor; [by constructor | done].
Qed.

Lemma splitlines_no_lb s : Forall no_lb (splitlines s).
Proof. by apply (splitlines_no_lb_len (length s)). Qed.

Lemma set_tfvar_value_finish content key value :
  _set_tfvar_value content key value
  = finish (patched_lines (splitlines content) key value).
Proof. done. Qed.

Lemma join_last_char sep L x c : exists p, join sep (L ++ [x ++ [c]]) = p ++ [c].
Proof.
  destruct L as [|y L].
  - by exists x.
  - rewrite join_snoc by done. exists (join sep (y :: L) ++ sep ++ x).
    by rewrite <- !app_assoc.
Qed.

Lemma endswith_join_last L x :
  no_lb x -> x <> [] -> endswith (join [LF] (L ++ [x])) [LF] = false.
Proof.
  intros Hx Hne. destruct x as [|c x] using rev_ind; [done|]. clear IHx.
  destruct (join_last_char [LF] L x c) as [p ->]. rewrite endswith_snoc.
  apply bool_decide_eq_false_2. intros Heq. subst c.
  apply Forall_app in Hx as [_ Hc]. inversion Hc; subst. done.
Qed.

Lemma endswith_join_inv L :
  Forall no_lb L -> endswith (join [LF] L) [LF] = true ->
  exists L', L' <> [] /\ L = L' ++ [[]].
Proof.
  intros HL He. destruct L as [|x L _] using rev_ind; [done|].
  apply Forall_app in HL as [HL Hx]. inversion Hx; subst.
  destruct x as [|c x].
  - destruct L as [|y L]; [done|]. by exists (y :: L).
  - by rewrite endswith_join_last in He.
Qed.

Lemma splitlines_finish L :
  Forall no_lb L -> L <> [] -> chopped L (splitlines (finish L)).
Proof.
  intros HL Hne. unfold finish. simpl.
  destruct (endswith (join [LF] L) [LF]) eqn:He.
  - right. destruct (endswith_join_inv L HL He) as (L' & Hne' & ->).
    rewrite join_snoc by done. rewrite app_nil_r.
    apply Forall_app in HL as [HL' _]. by rewrite splitlines_join_lf.
  - left. by apply splitlines_join_lf.
Qed.

Lemma chopped_last written back :
  last written <> Some [] -> chopped written back -> back = written.
Proof. intros Hl [->| ->]; [done|]. by rewrite last_snoc in Hl. Qed.

Lemma finish_endswith L : endswith (finish L) [LF] = true.
Proof.
  unfold finish. simpl. destruct (endswith (join [LF] L) [LF]) eqn:He; [done|].
  rewrite endswith_snoc. by apply bool_decide_eq_true_2.
Qed.

End Lines.

(** ** Config patcher *)
Section PatcherFacts.

Lemma first_assignment_miss key i lines :
  unassigned key lines -> first_assignment key i lines = None.
Proof.
  intros H. revert i. induction H as [|l lines Hl _ IH]; intros i; simpl; [done|].
  by rewrite Hl.
Qed.

Lemma first_assignment_hit key i pre line post :
  unassigned key pre -> assigns key line = true ->
  first_assignment key i (pre ++ line :: post) = Some (i + length pre).
Proof.
  intros H Hline. revert i. induction H as [|l pre Hl _ IH]; intros i; simpl.
  - rewrite Hline. f_equal. lia.
  - rewrite Hl, IH. f_equal. lia.
Qed.

Lemma lines_cases key lines :
  unassigned key lines \/
  exists pre line post,
    lines = pre ++ line :: post /\ unassigned key pre /\ assigns key line = true.
Proof.
  induction lines as [|l lines IH].
  - left. constructor.
  - destruct (assigns key l) eqn:Hl.
    + right. exists [], l, lines. repeat split; [constructor | done].
    + destruct IH as [IH | (pre & line & post & -> & Hpre & Hline)].
      * left. by constructor.
      * right. exists (l :: pre), line, post. repeat split; [by constructor | done].
Qed.

Lemma patched_lines_miss key value lines :
  unassigned key lines ->
  patched_lines lines key value = lines ++ [new_line key value].
Proof. intros H. unfold patched_lines. by rewrite first_assignment_miss. Qed.

Lemma patched_lines_hit key value pre line post :
  unassigned key pre -> assigns key line = true ->
  patched_lines (pre ++ line :: post) key value
  = pre ++ (indent_of line ++ new_line key value) :: post.
Proof.
  intros Hpre Hline. unfold patched_lines.
  rewrite first_assignment_hit by done. simpl.
  rewrite nth_middle. by rewrite insert_app_r_alt, Nat.sub_diag by lia.
Qed.

Lemma indent_of_spec line :
  all_space (indent_of line) /\ line = indent_of line ++ lstrip line.
Proof.
  destruct (lstrip_split line) as (ws & Hws & Hline).
  assert (indent_of line = ws) as ->; [|done].
  unfold indent_of. rewrite Hline at 1 3. rewrite length_app.
  rewrite take_app_length'; [done | lia].
Qed.

Lemma indent_of_ws ws x :
  all_space ws -> lstrip x = x -> indent_of (ws ++ x) = ws.
Proof.
  intros Hws Hx. unfold indent_of. rewrite lstrip_all_space, Hx by done.
  rewrite length_app. rewrite take_app_length'; [done | lia].
Qed.

Lemma no_lb_lit_eq : no_lb s$" = ".
Proof. repeat constructor. Qed.

Lemma new_line_no_lb key value : no_lb key -> no_lb value -> no_lb (new_line key value).
Proof.
  intros Hk Hv. unfold new_line, no_lb. rewrite !Forall_app.
  repeat split; try done; try apply no_lb_lit_eq; by repeat constructor.
Qed.

Lemma new_line_nonempty key value : new_line key value <> [].
Proof. unfold new_line. destruct key; [done|done]. Qed.

Lemma all_space_no_lb_prefix ws x : no_lb (ws ++ x) -> no_lb ws.
Proof. intros H. by apply Forall_app in H as [? _]. Qed.

Lemma patched_line_no_lb line key value :
  no_lb line -> no_lb key -> no_lb value ->
  no_lb (indent_of line ++ new_line key value).
Proof.
  intros Hl Hk Hv. apply Forall_app. split; [|by apply new_line_no_lb].
  destruct (indent_of_spec line) as [_ Heq]. rewrite Heq in Hl.
  by apply all_space_no_lb_prefix in Hl.
Qed.

Lemma assigns_nil key : assigns key [] = false.
Proof. done. Qed.

Lemma key_ok_head key : key_ok key ->
  exists c rest, key = c :: rest /\ isspace c = false /\ c <> "#"%char.
Proof.
  intros [Hne Hs _ Hh _]. destruct key as [|c rest]; [done|].
  exists c, rest. split; [done|]. split.
  - apply (lstrip_fixed_head c rest). by apply strip_fixed_lstrip.
  - intros ->. done.
Qed.

Lemma new_line_lstrip key value : key_ok key -> lstrip (new_line key value) = new_line key value.
Proof.
  intros Hk. destruct (key_ok_head key Hk) as (c & rest & -> & Hc & _).
  unfold new_line. simpl. by rewrite Hc.
Qed.

Lemma new_line_strip key value : key_ok key -> strip (new_line key value) = new_line key value.
Proof.
  intros Hk. unfold strip. rewrite new_line_lstrip by done.
  unfold new_line. rewrite !app_assoc. by apply rstrip_snoc_nonspace.
Qed.

Lemma strip_key_space key : key_ok key -> strip (key ++ s$" ") = key.
Proof.
  intros Hk. pose proof (key_stripped key Hk) as Hs.
  destruct (key_ok_head key Hk) as (c & rest & Heq & Hc & _).
  unfold strip. assert (lstrip (key ++ s$" ") = key ++ s$" ") as ->.
  { rewrite Heq. simpl. by rewrite Hc. }
  change s$" " with [" "%char].
  rewrite rstrip_snoc_space by done. by apply strip_fixed_rstrip.
Qed.

Lemma split1_hd c s t : c ∉ s -> hd [] (split1 c (s ++ c :: t)) = s.
Proof.
  intros Hc. unfold split1. rewrite after_sep_app by done. simpl.
  by apply before_sep_app.
Qed.

(** The line written for [key] is found again under [key]. *)
Lemma assigns_new_line ws key value :
  key_ok key -> all_space ws -> assigns key (ws ++ new_line key value) = true.
Proof.
  intros Hk Hws. unfold assigns. rewrite strip_all_space_l by done.
  rewrite new_line_strip by done.
  destruct (key_ok_head key Hk) as (c & rest & Heq & Hc & Hhash).
  assert (new_line key value
          = (key ++ s$" ") ++ "="%char :: s$" " ++ [QUOTE] ++ value ++ [QUOTE])
    as Hshape.
  { unfold new_line. by rewrite <- !app_assoc. }
  assert ("="%char ∉ key ++ s$" ") as Hnoeq.
  { rewrite elem_of_app. intros [H|H]; [by apply (key_no_equals key Hk)|].
    change s$" " with [" "%char] in H. apply elem_of_cons in H as [H|H]; [done|].
    by apply elem_of_nil in H. }
  rewrite (bool_decide_eq_false_2 _ (new_line_nonempty key value)).
  assert (startswith (new_line key value) s$"#" = false) as ->.
  { rewrite Heq. unfold new_line. simpl.
    rewrite andb_true_r. apply bool_decide_eq_false_2. congruence. }
  assert (contains "="%char (new_line key value) = true) as ->.
  { apply bool_decide_eq_true_2. rewrite Hshape.
    apply elem_of_app. right. by left. }
  simpl. rewrite Hshape, split1_hd by done.
  apply bool_decide_eq_true_2. by apply strip_key_space.
Qed.

Lemma filter_unassigned key lines :
  unassigned key lines -> List.filter (assigns key) lines = [].
Proof. induction 1 as [|l lines Hl _ IH]; simpl; [done|]. by rewrite Hl. Qed.

Lemma filter_not_unassigned key lines :
  unassigned key lines -> List.filter (fun l => negb (assigns key l)) lines = lines.
Proof. induction 1 as [|l lines Hl _ IH]; simpl; [done|]. rewrite Hl. simpl. by f_equal. Qed.

Lemma filter_chopped (f : str -> bool) written back :
  f [] = false -> chopped written back -> List.filter f back = List.filter f written.
Proof.
  intros Hf [->| ->]; [done|]. rewrite List.filter_app. simpl. rewrite Hf.
  by rewrite app_nil_r.
Qed.

End PatcherFacts.

(** ** Config patcher: what one call and two calls do to the lines *)
Section PatcherTheorems.

Lemma step_miss content key value :
  unassigned key (splitlines content) ->
  _set_tfvar_value content key value
  = join [LF] (splitlines content ++ [new_line key value]) ++ [LF].
Proof.
  intros Hmiss. rewrite set_tfvar_value_finish, patched_lines_miss by done.
  unfold finish. simpl.
  destruct (join_last_char [LF] (splitlines content)
              (key ++ s$" = " ++ [QUOTE] ++ value) QUOTE) as [p Hp].
  assert (new_line key value = (key ++ s$" = " ++ [QUOTE] ++ value) ++ [QUOTE]) as Hn.
  { unfold new_line. by rewrite <- !app_assoc. }
  rewrite Hn, Hp, endswith_snoc. by rewrite bool_decide_eq_false_2.
Qed.

Lemma step_miss_lines content key value :
  no_lb key -> no_lb value -> unassigned key (splitlines content) ->
  splitlines (_set_tfvar_value content key value)
  = splitlines content ++ [new_line key value].
Proof.
  intros Hk Hv Hmiss. rewrite step_miss by done.
  apply splitlines_join_lf.
  - apply Forall_app. split; [apply splitlines_no_lb|].
    constructor; [by apply new_line_no_lb | constructor].
  - by destruct (splitlines content).
Qed.

Lemma chopped_middle pre x post back :
  x <> [] -> chopped (pre ++ x :: post) back ->
  exists post', chopped post post' /\ back = pre ++ x :: post'.
Proof.
  intros Hx [->|Heq].
  - exists post. split; [by left | done].
  - destruct post as [|y post _] using rev_ind.
    + change (pre ++ [x]) with (pre ++ [x]) in Heq.
      apply app_inj_tail in Heq as [_ ->]. done.
    + rewrite app_comm_cons, app_assoc in Heq.
      apply app_inj_tail in Heq as [<- ->].
      exists post. split; [by right | done].
Qed.

Lemma step_hit content key value pre line post :
  no_lb key -> no_lb value ->
  splitlines content = pre ++ line :: post ->
  unassigned key pre -> assigns key line = true ->
  exists post', chopped post post' /\
    splitlines (_set_tfvar_value content key value)
    = pre ++ (indent_of line ++ new_line key value) :: post'.
Proof.
  intros Hk Hv Hlines Hpre Hline.
  rewrite set_tfvar_value_finish, Hlines, patched_lines_hit by done.
  pose proof (splitlines_no_lb content) as Hlb. rewrite Hlines in Hlb.
  apply Forall_app in Hlb as [Hlb1 Hlb2]. inversion Hlb2 as [|? ? Hl Hpost]; subst.
  apply chopped_middle.
  - intros Heq. apply app_eq_nil in Heq as [_ Heq]. by apply new_line_nonempty in Heq.
  - apply splitlines_finish.
    + apply Forall_app. split; [done|]. constructor; [|done].
      by apply patched_line_no_lb.
    + by destruct pre.
Qed.

Lemma chopped_keep_last pre x post post' :
  last (pre ++ x :: post) <> Some [] -> chopped post post' -> post' = post.
Proof.
  intros Hlast [->|Heq]; [done|]. subst post.
  rewrite app_comm_cons, app_assoc, last_snoc in Hlast. done.
Qed.

Lemma last_middle_swap {A} (pre : list A) x y post z :
  y <> z -> last (pre ++ x :: post) <> Some z -> last (pre ++ y :: post) <> Some z.
Proof.
  intros Hy. destruct post as [|p post _] using rev_ind.
  - intros _. change (pre ++ [y]) with (pre ++ [y]). rewrite last_snoc. congruence.
  - rewrite !app_comm_cons, !app_assoc, !last_snoc. done.
Qed.

End PatcherTheorems.

Section PatcherClaims.

Lemma filter_assigned_middle key pre x post :
  unassigned key pre -> assigns key x = true ->
  List.filter (assigns key) (pre ++ x :: post) = x :: List.filter (assigns key) post.
Proof.
  intros Hpre Hx. rewrite List.filter_app, filter_unassigned by done.
  simpl. by rewrite Hx.
Qed.

Lemma filter_unrelated_middle key pre x post :
  assigns key x = true ->
  List.filter (fun l => negb (assigns key l)) (pre ++ x :: post)
  = List.filter (fun l => negb (assigns key l)) (pre ++ post).
Proof. intros Hx. rewrite !List.filter_app. simpl. by rewrite Hx. Qed.



End PatcherClaims.

Section PatcherExamples.

Lemma key_ok_a : key_ok s$"a".
Proof.
  split; try done.
  - apply (bool_decide_unpack _). by vm_compute.
  - repeat constructor.
Qed.

Example two_assignments_result :
  _set_tfvar_value (_set_tfvar_value two_assignments s$"a" s$"x") s$"a" s$"y"
  = s$"a = " ++ [QUOTE] ++ s$"y" ++ [QUOTE; LF] ++ s$"a=2" ++ [LF].
Proof. by vm_compute. Qed.



Example three_newlines_result :
  _set_tfvar_value three_newlines s$"a" s$"2"
  = s$"a = " ++ [QUOTE] ++ s$"2" ++ [QUOTE; LF; LF].
Proof. by vm_compute. Qed.



(** Other inputs outside the amended C1: a key containing the assignment
    sign is appended again by every call, and a text that ends in empty lines
    loses one of them per call that rewrites a line. *)
Example key_with_equals_is_appended_twice :
  assignments s$"a=b" (_set_tfvar_value (_set_tfvar_value [] s$"a=b" s$"x") s$"a=b" s$"y") = []
  /\ length (splitlines (_set_tfvar_value (_set_tfvar_value [] s$"a=b" s$"x") s$"a=b" s$"y")) = 2.
Proof. by vm_compute. Qed.

Example trailing_empty_lines_are_lost :
  splitlines three_newlines = [s$"a=1"; []; []]
  /\ splitlines (_set_tfvar_value (_set_tfvar_value three_newlines s$"a" s$"x") s$"a" s$"y")
     = [s$"a = " ++ [QUOTE] ++ s$"y" ++ [QUOTE]].
Proof. by vm_compute. Qed.

End PatcherExamples.

(** ** Config patcher: one key among others *)
Section PatcherKeyFacts.

Lemma assigns_one_key key other line :
  assigns key line = true -> assigns other line = true -> key = other.
Proof.
  unfold assigns. destruct (_ || _); [done|].
  rewrite !bool_decide_eq_true. congruence.
Qed.

(** After one call the first assignment of the key carries the value, and
    the other assignments of the key are those that were there. *)
Lemma set_first_assignment content key value :
  key_ok key -> no_lb value ->
  exists indent,
    all_space indent /\
    assignments key (_set_tfvar_value content key value)
    = (indent ++ new_line key value) :: tl (assignments key content).
Proof.
  intros Hk Hv. pose proof (key_no_lb key Hk) as Hklb. unfold assignments.
  destruct (lines_cases key (splitlines content))
    as [Hmiss | (pre & line & post & Hlines & Hpre & Hline)].
  - exists []. split; [constructor|].
    assert (assigns key (new_line key value) = true) as Ha
      by (apply (assigns_new_line [] key value Hk); constructor).
    rewrite step_miss_lines by done.
    rewrite List.filter_app, !filter_unassigned by done.
    cbn [List.filter app tl]. by rewrite Ha.
  - destruct (indent_of_spec line) as [Hws _].
    destruct (step_hit content key value pre line post Hklb Hv Hlines Hpre Hline)
      as (post' & Hch & Hresult).
    exists (indent_of line). split; [done|].
    rewrite Hresult, Hlines.
    rewrite !filter_assigned_middle by (done || by apply assigns_new_line).
    cbn [tl]. f_equal. by apply filter_chopped.
Qed.

(** One call leaves the assignments of every other key as they were. *)
Lemma set_other_key content key value other :
  key_ok key -> no_lb value -> other <> key ->
  assignments other (_set_tfvar_value content key value) = assignments other content.
Proof.
  intros Hk Hv Hother. pose proof (key_no_lb key Hk) as Hklb. unfold assignments.
  assert (forall ws, all_space ws -> assigns other (ws ++ new_line key value) = false)
    as Hnew.
  { intros ws Hws. destruct (assigns other (ws ++ new_line key value)) eqn:Ho; [|done].
    exfalso. apply Hother. symmetry.
    apply (assigns_one_key key other (ws ++ new_line key value)); [|done].
    by apply assigns_new_line. }
  destruct (lines_cases key (splitlines content))
    as [Hmiss | (pre & line & post & Hlines & Hpre & Hline)].
  - assert (all_space []) as Hnil by constructor.
    pose proof (Hnew [] Hnil) as Hnew0. cbn [app] in Hnew0.
    rewrite step_miss_lines by done. rewrite List.filter_app.
    cbn [List.filter]. rewrite Hnew0. by rewrite app_nil_r.
  - destruct (indent_of_spec line) as [Hws _].
    destruct (step_hit content key value pre line post Hklb Hv Hlines Hpre Hline)
      as (post' & Hch & Hresult).
    rewrite Hresult, Hlines. rewrite !List.filter_app. cbn [List.filter].
    rewrite Hnew by done.
    assert (assigns other line = false) as ->.
    { destruct (assigns other line) eqn:Ho; [|done].
      exfalso. apply Hother. symmetry. by apply (assigns_one_key key other line). }
    f_equal. by apply filter_chopped.
Qed.

Lemma key_ok_registry : key_ok s$"registry_login_server".
Proof.
  split; try done.
  - apply (bool_decide_unpack _). by vm_compute.
  - repeat constructor.
Qed.

Lemma key_ok_image : key_ok s$"container_image".
Proof.
  split; try done.
  - apply (bool_decide_unpack _). by vm_compute.
  - repeat constructor.
Qed.

(** The text written holds the line made for the key, whatever the text,
    the key and the value. *)
Lemma join_middle sep (pre : list str) x post :
  exists before after, join sep (pre ++ x :: post) = before ++ x ++ after.
Proof.
  induction pre as [|y pre IH].
  - destruct post as [|z post].
    + exists [], []. by rewrite app_nil_r.
    + exists [], (sep ++ join sep (z :: post)). done.
  - destruct IH as (before & after & IH).
    exists (y ++ sep ++ before), after.
    assert (exists z rest, pre ++ x :: post = z :: rest) as (z & rest & Heq)
      by (destruct pre; eauto).
    change ((y :: pre) ++ x :: post) with (y :: (pre ++ x :: post)).
    rewrite Heq, join_cons2, <- Heq, IH. by rewrite <- !app_assoc.
Qed.

Lemma set_holds_line content key value :
  exists before after,
    _set_tfvar_value content key value = before ++ new_line key value ++ after.
Proof.
  rewrite set_tfvar_value_finish.
  assert (exists pre indent post,
             patched_lines (splitlines content) key value
             = pre ++ (indent ++ new_line key value) :: post)
    as (pre & indent & post & ->).
  { destruct (lines_cases key (splitlines content))
      as [Hmiss | (pre & line & post & Hlines & Hpre & Hline)].
    - exists (splitlines content), [], []. by apply patched_lines_miss.
    - exists pre, (indent_of line), post. rewrite Hlines. by apply patched_lines_hit. }
  destruct (join_middle [LF] pre (indent ++ new_line key value) post)
    as (before & after & Hjoin).
  unfold finish. cbv zeta. rewrite Hjoin. destruct (endswith _ _).
  - exists (before ++ indent), after. by rewrite <- !app_assoc.
  - exists (before ++ indent), (after ++ [LF]). by rewrite <- !app_assoc.
Qed.

(** Two updates in a row, for two keys: each key ends with its own value. *)
Lemma two_updates_record previous k1 v1 k2 v2 :
  key_ok k1 -> key_ok k2 -> k1 <> k2 -> no_lb v1 -> no_lb v2 ->
  let written := apply_updates previous [(k1, v1); (k2, v2)] in
  records k1 v1 previous written /\ records k2 v2 previous written.
Proof.
  intros Hk1 Hk2 Hne Hv1 Hv2 written. subst written.
  unfold apply_updates, records. cbn [fold_left fst snd]. split.
  - destruct (set_first_assignment previous k1 v1 Hk1 Hv1) as (indent & Hws & Hfirst).
    exists indent. split; [done|]. rewrite <- Hfirst. by apply set_other_key.
  - destruct (set_first_assignment (_set_tfvar_value previous k1 v1) k2 v2 Hk2 Hv2)
      as (indent & Hws & Hfirst).
    exists indent. split; [done|]. rewrite Hfirst. do 2 f_equal.
    apply set_other_key; [done | done | congruence].
Qed.

End PatcherKeyFacts.

(** ** Token registry: the secret text and its parser *)
Section TokenText.

Lemma secret_value_entries S :
  secret_value S = join s$";" (map entry_text (sorted_items S)).
Proof. done. Qed.

Lemma rstrip_fixed_last p d : rstrip (p ++ [d]) = p ++ [d] -> isspace d = false.
Proof.
  intros Heq. destruct (isspace d) eqn:Hd; [|done].
  rewrite rstrip_snoc_space in Heq by done.
  pose proof (rstrip_length p) as Hl. rewrite Heq, length_app in Hl.
  simpl in Hl. lia.
Qed.

Lemma strip_ends c m d :
  isspace c = false -> isspace d = false -> strip (c :: m ++ [d]) = c :: m ++ [d].
Proof.
  intros Hc Hd. unfold strip. rewrite lstrip_nonspace by done.
  rewrite app_comm_cons. by apply rstrip_snoc_nonspace.
Qed.

Lemma strip_single c : isspace c = false -> strip [c] = [c].
Proof.
  intros Hc. unfold strip. rewrite lstrip_nonspace by done.
  by apply (rstrip_snoc_nonspace []).
Qed.

(** The two ends of a clean string. *)
Lemma clean_ends s : clean s ->
  exists c r p d, s = c :: r /\ s = p ++ [d] /\ isspace c = false /\ isspace d = false.
Proof.
  intros [Hne Hs _]. destruct s as [|c r]; [done|].
  destruct (exists_last (l := c :: r)) as (p & d & Hpd); [done|].
  exists c, r, p, d. repeat split; [done| |].
  - apply (lstrip_fixed_head c r). by apply strip_fixed_lstrip.
  - apply (rstrip_fixed_last p d). rewrite <- Hpd. by apply strip_fixed_rstrip.
Qed.

Lemma strip_fixed_ends c r p d :
  c :: r = p ++ [d] -> isspace c = false -> isspace d = false ->
  strip (c :: r) = c :: r.
Proof.
  intros Heq Hc Hd. destruct p as [|c' p]; simpl in Heq.
  - inversion Heq; subst. by apply strip_single.
  - inversion Heq; subst. by apply strip_ends.
Qed.

Lemma replace_absent a b s : a ∉ s -> replace a b s = s.
Proof.
  induction s as [|x s IH]; intros Hn; simpl; [done|].
  rewrite bool_decide_eq_false_2.
  - f_equal. apply IH. intros Hin. apply Hn. by right.
  - intros ->. apply Hn. by left.
Qed.

Lemma split_absent c s : c ∉ s -> split c s = [s].
Proof.
  induction s as [|x s IH]; intros Hn; simpl; [done|].
  rewrite bool_decide_eq_false_2.
  - rewrite IH; [done|]. intros Hin. apply Hn. by right.
  - intros ->. apply Hn. by left.
Qed.

Lemma split_app c s t : c ∉ s -> split c (s ++ c :: t) = s :: split c t.
Proof.
  induction s as [|x s IH]; intros Hn; simpl.
  - by rewrite bool_decide_eq_true_2.
  - rewrite bool_decide_eq_false_2.
    + rewrite IH; [done|]. intros Hin. apply Hn. by right.
    + intros ->. apply Hn. by left.
Qed.

Lemma split_join c pieces :
  pieces <> [] -> Forall (fun p => c ∉ p) pieces -> split c (join [c] pieces) = pieces.
Proof.
  intros Hne HF. induction HF as [|x pieces Hx _ IH]; [done|].
  destruct pieces as [|y pieces].
  - simpl. by apply split_absent.
  - rewrite join_cons2. simpl. rewrite split_app by done. f_equal. by apply IH.
Qed.

Lemma join_Forall (P : ascii -> Prop) sep pieces :
  Forall P sep -> Forall (Forall P) pieces -> Forall P (join sep pieces).
Proof.
  intros Hsep HF. induction HF as [|x pieces Hx _ IH]; [constructor|].
  destruct pieces as [|y pieces]; [done|].
  rewrite join_cons2. rewrite !Forall_app. auto.
Qed.

Lemma join_head sep c x rest : exists t, join sep ((c :: x) :: rest) = c :: t.
Proof. destruct rest; simpl; eauto. Qed.

End TokenText.

Section TokenRoundTrip.

Ltac in_list := solve [repeat first [apply list_elem_of_here | apply list_elem_of_further]].

Lemma clean_not_in s c : clean s -> c ∈ [":"; ";"; ","; LF]%char -> c ∉ s.
Proof.
  intros [_ _ HF] Hc Hin. rewrite Forall_forall in HF. by apply (HF c Hin).
Qed.

Lemma entry_text_shape item :
  clean_item item ->
  exists c m d, entry_text item = c :: m ++ [d]
                /\ isspace c = false /\ isspace d = false.
Proof.
  intros [Hn Hv]. destruct item as [name value]. simpl in *.
  destruct (clean_ends name Hn) as (c & r & _ & _ & -> & _ & Hc & _).
  destruct (clean_ends value Hv) as (_ & _ & p & d & _ & -> & _ & Hd).
  exists c, (r ++ s$":" ++ p), d. unfold entry_text. simpl.
  by rewrite <- !app_assoc.
Qed.

Lemma entry_text_chars item c :
  clean_item item -> c ∈ [";"; ","; LF]%char -> c ∉ entry_text item.
Proof.
  intros [Hn Hv] Hc. destruct item as [name value]. unfold entry_text.
  change s$":" with [":"%char]. simpl.
  rewrite elem_of_app, elem_of_cons. intros [Hin|[->|Hin]].
  - revert Hin. apply clean_not_in; [done|]. by apply list_elem_of_further.
  - repeat (apply elem_of_cons in Hc as [Hc|Hc]; [discriminate Hc|]).
    by apply elem_of_nil in Hc.
  - revert Hin. apply clean_not_in; [done|]. by apply list_elem_of_further.
Qed.

(** One clean entry is read back as the pair it was written from. *)
Lemma load_entry_clean tokens counter item :
  clean_item item ->
  load_entry (tokens, counter) (entry_text item)
  = (<[item.1 := item.2]> tokens, counter).
Proof.
  intros Hitem. pose proof Hitem as [Hn Hv].
  destruct (entry_text_shape item Hitem) as (c & m & d & Hshape & Hc & Hd).
  unfold load_entry. rewrite Hshape, strip_ends by done. rewrite <- Hshape.
  rewrite bool_decide_eq_false_2 by (by rewrite Hshape).
  destruct item as [name value]. unfold entry_text. simpl in *.
  assert (":"%char ∉ name) as Hcolon.
  { apply clean_not_in; [done|]. in_list. }
  assert (contains ":"%char (name ++ ":"%char :: value) = true) as ->.
  { apply bool_decide_eq_true_2. apply elem_of_app. right. by left. }
  rewrite before_sep_app, after_sep_app by done. simpl.
  rewrite (clean_stripped name Hn), (clean_stripped value Hv).
  rewrite !bool_decide_eq_false_2; [done | apply Hv | apply Hn].
Qed.

Lemma load_entries_clean items tokens counter :
  Forall clean_item items ->
  fold_left load_entry (map entry_text items) (tokens, counter)
  = (fold_left (fun m item => <[item.1 := item.2]> m) items tokens, counter).
Proof.
  intros HF. revert tokens. induction HF as [|item items Hi _ IH]; intros tokens.
  - done.
  - cbn [map fold_left]. rewrite load_entry_clean by done. apply IH.
Qed.

Lemma fold_insert_list_to_map (items : list (str * str)) :
  fold_left (fun m item => <[item.1 := item.2]> m) items (∅ : gmap str str)
  = list_to_map (rev items).
Proof.
  rewrite <- (rev_involutive items) at 1. generalize (rev items) as l.
  induction l as [|[k v] l IH]; [done|].
  simpl. rewrite fold_left_app. simpl. by rewrite IH.
Qed.

Lemma sorted_items_perm (S : gmap str str) : sorted_items S ≡ₚ map_to_list S.
Proof. apply merge_sort_Permutation. Qed.

Lemma sorted_items_clean S : valid_tokenset S -> Forall clean_item (sorted_items S).
Proof.
  intros HS. rewrite sorted_items_perm. apply Forall_forall.
  intros [name value] Hin. apply elem_of_map_to_list in Hin.
  by apply (HS name value).
Qed.

Lemma sorted_items_to_map (S : gmap str str) :
  list_to_map (rev (sorted_items S)) = S.
Proof.
  rewrite <- (list_to_map_to_list S) at 2.
  assert (rev (sorted_items S) ≡ₚ map_to_list S) as Hp.
  { rewrite <- Permutation_rev. apply sorted_items_perm. }
  apply list_to_map_proper; [|done].
  rewrite Hp. apply NoDup_fst_map_to_list.
Qed.

(** Reading back what [_save_tokens] writes gives the same dict. *)
Lemma tokens_of_secret_value S :
  valid_tokenset S -> tokens_of_output (secret_value S) = S.
Proof.
  intros HS. pose proof (sorted_items_clean S HS) as Hclean.
  pose proof (sorted_items_to_map S) as Hmap.
  rewrite secret_value_entries. unfold tokens_of_output.
  destruct (sorted_items S) as [|item items] eqn:Hitems.
  - simpl in *. by rewrite <- Hmap.
  - set (pieces := map entry_text (item :: items)).
    assert (Forall (fun p => forall c, c ∈ [";"; ","; LF]%char -> c ∉ p) pieces) as Hchars.
    { unfold pieces. apply Forall_fmap. eapply Forall_impl; [exact Hclean|].
      intros it Hit c Hc. by apply entry_text_chars. }
    assert (forall c, c ∈ [","; LF]%char -> c ∉ join s$";" pieces) as Hjoin.
    { intros c Hc Hin.
      assert (Forall (fun x => x <> c) (join s$";" pieces)) as HF.
      { apply join_Forall.
        - repeat constructor. intros <-.
          repeat (apply elem_of_cons in Hc as [Hc|Hc]; [discriminate Hc|]).
          by apply elem_of_nil in Hc.
        - eapply Forall_impl; [exact Hchars|]. intros p Hp.
          apply Forall_forall. intros x Hx ->. apply (Hp c); [|done].
          by apply list_elem_of_further. }
      rewrite Forall_forall in HF. by apply (HF c Hin). }
    (* the text starts and ends with a character that is not a space *)
    assert (strip (join s$";" pieces) = join s$";" pieces /\ join s$";" pieces <> [])
      as [Hstrip Hne].
    { inversion Hclean as [|? ? Hi Hrest]; subst.
      destruct (entry_text_shape item Hi) as (c & m & d & Hshape & Hc & _).
      destruct (exists_last (l := item :: items)) as (front & final & Hfl); [done|].
      assert (clean_item final) as Hfinal.
      { rewrite Hfl in Hclean. apply Forall_app in Hclean as [_ Hf].
        by inversion Hf. }
      destruct (entry_text_shape final Hfinal) as (c' & m' & d' & Hshape' & _ & Hd').
      destruct (join_head s$";" c (m ++ [d]) (map entry_text items)) as [t Ht].
      assert (exists q, join s$";" pieces = q ++ [d']) as [q Hq].
      { unfold pieces. rewrite Hfl, map_app. simpl. rewrite Hshape'.
        rewrite app_comm_cons. apply join_last_char. }
      unfold pieces in *. simpl map in *. rewrite Hshape in *. rewrite Ht in *.
      split; [|done]. by apply (strip_fixed_ends c t q d'). }
    rewrite Hstrip. rewrite bool_decide_eq_false_2 by done.
    rewrite (replace_absent LF) by (apply Hjoin; in_list).
    rewrite (replace_absent ","%char) by (apply Hjoin; in_list).
    change s$";" with [";"%char]. rewrite split_join.
    + unfold pieces. rewrite load_entries_clean by done.
      cbn [fst]. rewrite fold_insert_list_to_map. exact Hmap.
    + done.
    + eapply Forall_impl; [exact Hchars|]. intros p Hp. apply Hp.
      in_list.
Qed.

(** C4 (amended): for a TokenSet whose names and values are not empty, have
    no space at either end and contain none of [:], [;], [,] and newline,
    writing, reading and writing again gives the text of the first writing. *)
Theorem secret_round_trip (S : gmap str str) :
  valid_tokenset S ->
  secret_value (tokens_of_output (secret_value S)) = secret_value S.
Proof.
  intros HS. pose proof (tokens_of_secret_value S HS) as Hback.
  rewrite Hback. reflexivity.
Qed.

End TokenRoundTrip.

Section TokenRoundTripExamples.

Example comma_value_written : secret_value comma_value = s$"a:x,y".
Proof. by vm_compute. Qed.

Example comma_value_read_back :
  sorted_items (tokens_of_output s$"a:x,y") = [(s$"a", s$"x"); (s$"legacy-1", s$"y")].
Proof. by vm_compute. Qed.

Example comma_value_written_again :
  secret_value (tokens_of_output (secret_value comma_value)) = s$"a:x;legacy-1:y".
Proof. by vm_compute. Qed.

(** C4 fails on a value that holds a comma: the validation of the registry
    lets it in, the parser cuts the entry in two. *)
Lemma round_trip_breaks_on_comma : ~ round_trip_as_stated comma_value.
Proof.
  intros Hrt. assert (delimiter_free comma_value) as Hvalid.
  { unfold comma_value. apply map_Forall_singleton.
    split; apply (bool_decide_unpack _); by vm_compute. }
  specialize (Hrt Hvalid). vm_compute in Hrt. discriminate Hrt.
Qed.

Lemma clean_lit_a : clean s$"a".
Proof. split; [done | by vm_compute | apply (bool_decide_unpack _); by vm_compute]. Qed.

Lemma clean_lit_b : clean s$"b1".
Proof. split; [done | by vm_compute | apply (bool_decide_unpack _); by vm_compute]. Qed.

Lemma secret_round_trip_witness :
  let S : gmap str str := {[ s$"a" := s$"b1" ]} in
  secret_value (tokens_of_output (secret_value S)) = secret_value S.
Proof.
  intros S. apply secret_round_trip.
  apply map_Forall_singleton. split; [exact clean_lit_a | exact clean_lit_b].
Defined.

End TokenRoundTripExamples.

(** ** Token registry: numbered generation *)
Section NumberedGeneration.
Context `{Externals}.

Lemma str_of_nat_inj : Inj (=) (=) str_of_nat.
Proof.
  intros a b Heq. unfold str_of_nat in Heq.
  apply (f_equal String.string_of_list_ascii) in Heq.
  rewrite !String.string_of_list_ascii_of_string in Heq.
  apply (f_equal NilEmpty.uint_of_string) in Heq.
  rewrite !NilEmpty.usu in Heq. inversion Heq as [Hu].
  by apply DecimalNat.Unsigned.to_uint_inj.
Qed.

Global Instance generated_name_inj : Inj (=) (=) generated_name.
Proof.
  intros a b Heq. unfold generated_name in Heq.
  apply app_inv_head in Heq. by apply str_of_nat_inj.
Qed.

(** Where the [while] loop leaves: at the first free suffix from its start. *)
Lemma skip_taken_spec bound T start k :
  skip_taken bound T start = Some k ->
  start <= k /\ (generated_name k ∉ dom T) /\
  (forall j, start <= j < k -> generated_name j ∈ dom T).
Proof.
  revert start. induction bound as [|bound IH]; intros start; simpl;
    case_bool_decide as Hin; intros Hk; simplify_eq.
  - split; [lia|]. split; [done|]. intros j Hj. lia.
  - destruct (IH _ Hk) as (Hle & Hfree & Hbelow).
    split; [lia|]. split; [done|]. intros j Hj.
    destruct (decide (j = start)) as [->|Hne]; [done|]. apply Hbelow. lia.
  - split; [lia|]. split; [done|]. intros j Hj. lia.
Qed.

Lemma skip_taken_none bound T start :
  skip_taken bound T start = None ->
  forall j, start <= j <= start + bound -> generated_name j ∈ dom T.
Proof.
  revert start. induction bound as [|bound IH]; intros start; simpl;
    case_bool_decide as Hin; intros Hk j Hj; simplify_eq.
  - by replace j with start by lia.
  - destruct (decide (j = start)) as [->|Hne]; [done|].
    apply (IH _ Hk). lia.
Qed.

(** The loop always leaves: a dict cannot hold more names than its size. *)
Lemma skip_taken_total (T : gmap str str) start :
  exists k, skip_taken (size T) T start = Some k.
Proof.
  destruct (skip_taken (size T) T start) as [k|] eqn:Hk; [by exists k|].
  exfalso. pose proof (skip_taken_none _ _ _ Hk) as Hall.
  set (names := generated_name <$> seq start (S (size T))).
  assert (list_to_set names ⊆ dom T) as Hsub.
  { intros name Hname. apply elem_of_list_to_set in Hname.
    apply list_elem_of_fmap in Hname as (j & -> & Hj).
    apply elem_of_seq in Hj. apply Hall. lia. }
  apply subseteq_size in Hsub.
  rewrite size_list_to_set in Hsub.
  - unfold names in Hsub. rewrite length_fmap, length_seq, size_dom in Hsub. lia.
  - apply NoDup_fmap_2; [apply _ | apply NoDup_seq].
Qed.

Lemma names_of_snoc ks k : names_of (ks ++ [k]) = names_of ks ∪ {[generated_name k]}.
Proof.
  unfold names_of. rewrite fmap_app, list_to_set_app_L. simpl. set_solver.
Qed.

Lemma elem_of_names_of ks k : generated_name k ∈ names_of ks <-> k ∈ ks.
Proof.
  unfold names_of. rewrite elem_of_list_to_set. apply list_elem_of_fmap_inj. apply _.
Qed.

Lemma generate_token_run length w :
  _generate_token length w
  = (Ok (random_token (tick w) length), with_tick (S (tick w)) w).
Proof. done. Qed.

Lemma numbered_inv_step T0 idx ks st k token :
  numbered_inv T0 idx ks st ->
  skip_taken (size (tokens st)) (tokens st) (idx + 1) = Some k ->
  numbered_inv T0 (S idx) (ks ++ [k]) (record_generated (generated_name k) token st).
Proof.
  intros [Hlen (Hsorted & Hfree & Hleast) Hdom Hbelow Hkept] Hk.
  apply skip_taken_spec in Hk as (Hle & Hk & Hskipped).
  assert (free_suffix T0 k) as Hkfree.
  { split; [lia|]. intros Hin. apply Hk. rewrite Hdom. set_solver. }
  assert (k ∉ ks) as Hknew.
  { intros Hin. apply Hk. rewrite Hdom. apply elem_of_union. right.
    by apply elem_of_names_of. }
  split.
  - rewrite length_app. simpl. lia.
  - split; [|split].
    + apply StronglySorted_app_2; [|done|repeat constructor].
      intros x1 x2 Hx1 Hx2. apply list_elem_of_singleton in Hx2 as ->.
      specialize (Hleast k Hkfree Hknew). rewrite Forall_forall in Hleast. auto.
    + apply Forall_app. split; [done|]. by constructor.
    + intros j Hj Hjnew. apply not_elem_of_app in Hjnew as [Hjks Hjk].
      apply Forall_app. split; [by apply Hleast|]. constructor; [|constructor].
      assert (generated_name j ∉ dom (tokens st)) as Hjfree.
      { rewrite Hdom. intros [Hin|Hin]%elem_of_union; [by apply Hj|].
        by apply elem_of_names_of in Hin. }
      assert (j <> k) as Hne by (intros ->; apply Hjk; by left).
      destruct Hj as [Hj1 _].
      destruct (decide (j <= idx)) as [Hsmall|Hbig].
      { exfalso. apply Hjfree, Hbelow. lia. }
      destruct (decide (j < k)) as [Hlt|Hge]; [|lia].
      exfalso. apply Hjfree, Hskipped. lia.
  - simpl. rewrite dom_insert_L, Hdom, names_of_snoc. set_solver.
  - intros j Hj. simpl. rewrite dom_insert_L.
    destruct (decide (j <= idx)) as [Hsmall|Hbig].
    { apply elem_of_union. right. apply Hbelow. lia. }
    assert (j = idx + 1) as -> by lia.
    destruct (decide (k = idx + 1)) as [->|Hne]; [set_solver|].
    apply elem_of_union. right. apply Hskipped. lia.
  - intros name value Hname. simpl. rewrite lookup_insert_ne; [by apply Hkept|].
    intros <-. apply Hk. apply elem_of_dom. exists value. by apply Hkept.
Qed.

Lemma generate_numbered_run T0 count :
  forall idx ks st w,
    numbered_inv T0 idx ks st ->
    exists ks' st' w',
      generate_numbered count idx st w = (Ok st', w') /\
      length ks' = count /\
      numbered_inv T0 (idx + count) (ks ++ ks') st' /\
      (generated st').*1 = (generated st).*1 ++ (generated_name <$> ks').
Proof.
  induction count as [|count IH]; intros idx ks st w Hinv.
  - exists [], st, w. rewrite app_nil_r, Nat.add_0_r.
    split; [done|]. split; [done|]. split; [done|]. by rewrite app_nil_r.
  - simpl. destruct (skip_taken_total (tokens st) (idx + 1)) as [k Hk].
    rewrite Hk. unfold bind at 1. rewrite generate_token_run.
    set (token := random_token (tick w) 64).
    pose proof (numbered_inv_step T0 idx ks st k token Hinv Hk) as Hstep.
    destruct (IH (S idx) (ks ++ [k]) _ (with_tick (S (tick w)) w) Hstep)
      as (ks' & st' & w' & Hrun & Hlen & Hinv' & Hgen).
    exists (k :: ks'), st', w'. split; [exact Hrun|].
    split; [simpl; lia|].
    split.
    + replace (idx + S count) with (S idx + count) by lia.
      by rewrite <- app_assoc in Hinv'.
    + rewrite Hgen. simpl. rewrite fmap_app. simpl. by rewrite <- app_assoc.
Qed.

Lemma numbered_inv_start (st : TokenState) : numbered_inv (tokens st) 0 [] st.
Proof.
  split.
  - done.
  - split; [constructor|]. split; [constructor|]. intros. constructor.
  - unfold names_of. simpl. set_solver.
  - intros j Hj. lia.
  - done.
Qed.


End NumberedGeneration.

Section NumberedGenerationExamples.

(** The example of the specification: with [generated-2] taken, three new
    names are [generated-1], [generated-3] and [generated-4]. *)
Example three_numbered_names :
  match @generate_item toy s$"3" one_taken (toy_world [] []) with
  | (Ok st', _) => (generated st').*1
  | (Raise _, _) => []
  end = [s$"generated-1"; s$"generated-3"; s$"generated-4"].
Proof. by vm_compute. Qed.


End NumberedGenerationExamples.

(** ** Token registry: a name that is already there *)
Section NameCollision.
Context `{Externals}.

Lemma validate_valid_name (label name : str) :
  valid_name name -> _validate_component label name = Ok tt.
Proof.
  intros (_ & Hcolon & Hsemi). unfold _validate_component, contains.
  by rewrite !bool_decide_eq_false_2.
Qed.

Lemma add_all_one (raw name value : str) (T : gmap str str) (w : World) :
  _parse_name_value raw = Ok (name, value) ->
  add_all [raw] T w = (Ok (<[name := value]> T), w).
Proof. intros Hparse. simpl. unfold bind, lift. by rewrite Hparse. Qed.

Lemma generate_item_collision (item : str) (st : TokenState) (w : World) :
  isdigit item = false -> valid_name (strip item) ->
  strip item ∈ dom (tokens st) ->
  generate_item item st w = (Raise (TokenNameCollision (strip item)), w).
Proof.
  intros Hdigit Hvalid Hin. unfold generate_item. rewrite Hdigit.
  destruct Hvalid as (Hne & Hrest).
  rewrite bool_decide_eq_false_2 by done.
  unfold bind, lift. rewrite validate_valid_name by done.
  by rewrite bool_decide_eq_true_2.
Qed.

(** C9: an add entry whose name is in the set raises nothing and replaces the
    value under that name, every other entry staying as it was; a generate
    entry that is not a number and whose name is in the set raises
    TokenNameCollision, and the set stays as it was. *)
Theorem add_overwrites_generate_collides (T : gmap str str) :
  names_valid T ->
  (forall (raw name value : str) (w : World),
      _parse_name_value raw = Ok (name, value) -> name ∈ dom T ->
      exists T',
        add_all [raw] T w = (Ok T', w) /\
        T' !! name = Some value /\
        dom T' = dom T /\
        (forall other, other <> name -> T' !! other = T !! other)) /\
  (forall (item : str) (gen : list (str * str)) (w : World),
      isdigit item = false -> strip item ∈ dom T ->
      generate_item item {| tokens := T; generated := gen |} w
      = (Raise (TokenNameCollision (strip item)), w)).
Proof.
  intros Hnames. split.
  - intros raw name value w Hparse Hin. exists (<[name := value]> T).
    split; [by apply add_all_one|]. split; [apply lookup_insert_eq|].
    split.
    + rewrite dom_insert_L. set_solver.
    + intros other Hne. by apply lookup_insert_ne.
  - intros item gen w Hdigit Hin.
    apply generate_item_collision; [done | by apply Hnames | done].
Qed.

End NameCollision.

Section NameCollisionExamples.

Lemma alice_set_valid : names_valid alice_set.
Proof.
  intros name Hin. unfold alice_set in Hin. rewrite dom_singleton_L in Hin.
  apply elem_of_singleton in Hin as ->.
  split; [done|]. split; apply (bool_decide_unpack _); by vm_compute.
Qed.

Lemma add_overwrites_generate_collides_witness :
  (exists T',
      @add_all toy [s$"alice:new"] alice_set (toy_world [] []) = (Ok T', toy_world [] []) /\
      T' !! s$"alice" = Some s$"new" /\
      dom T' = dom alice_set /\
      (forall other, other <> s$"alice" -> T' !! other = alice_set !! other)) /\
  @generate_item toy s$" alice" {| tokens := alice_set; generated := [] |} (toy_world [] [])
  = (Raise (TokenNameCollision s$"alice"), toy_world [] []).
Proof.
  destruct (@add_overwrites_generate_collides toy alice_set alice_set_valid)
    as [Hadd Hgen].
  split.
  - apply (Hadd s$"alice:new" s$"alice" s$"new"); [by vm_compute|].
    apply (bool_decide_unpack _). by vm_compute.
  - apply (Hgen s$" alice" []); [by vm_compute|].
    apply (bool_decide_unpack _). by vm_compute.
Defined.

(** A name made by [generate] and then given to [add] in the same call: the
    added value wins and nothing is raised. *)
Example add_after_generate :
  match @generate_all toy [s$"bob"] {| tokens := ∅; generated := [] |} (toy_world [] []) with
  | (Ok st, w) =>
      match @add_all toy [s$"bob=mine"] (tokens st) w with
      | (Ok T, _) => T !! s$"bob"
      | (Raise _, _) => None
      end
  | (Raise _, _) => None
  end = Some s$"mine".
Proof. by vm_compute. Qed.

End NameCollisionExamples.

(** ** Command executor *)
Section Executor.
Context `{Externals}.

Lemma readers_quiet lines b w :
  readers echo_on_error lines b w
  = (Ok {| stdout_buf := stdout_buf b ++ stream_lines Stdout lines;
           stderr_buf := stderr_buf b ++ stream_lines Stderr lines |}, w).
Proof.
  revert b. induction lines as [|[s line] lines IH]; intros b.
  - simpl. unfold ret, stream_lines. simpl. rewrite !app_nil_r. by destruct b.
  - simpl. unfold bind at 1. unfold ret at 1. rewrite IH.
    destruct s; unfold stream_lines; simpl; by rewrite <- !app_assoc.
Qed.

Lemma for_each_emit {A} (f : A -> event) (xs : list A) w :
  for_each xs (fun x => emit (f x)) w
  = (Ok tt, with_events (events w ++ (f <$> xs)) w).
Proof.
  revert w. induction xs as [|x xs IH]; intros w.
  - simpl. unfold ret, with_events. rewrite app_nil_r. by destruct w.
  - simpl. unfold bind, emit. rewrite IH. unfold with_events. simpl.
    by rewrite <- app_assoc.
Qed.

Lemma writelines_run s buffer w :
  writelines s buffer w = (Ok tt, with_events (events w ++ (EvWrite s <$> buffer)) w).
Proof.
  unfold writelines. case_bool_decide as Hb.
  - subst. unfold ret, with_events. simpl. rewrite app_nil_r. by destruct w.
  - apply for_each_emit.
Qed.

End Executor.

Section ExecutorClaims.
Context `{Externals}.

Lemma start_process_run cmd cwd w run fs :
  spawn (environ w) (files w) (tick w) cmd cwd = Some (run, fs) ->
  start_process cmd cwd w
  = (Ok run, with_events (events w ++ [EvSpawn cmd cwd])
               (with_files fs (with_tick (S (tick w)) w))).
Proof.
  intros Hspawn. unfold start_process, bind, next_tick. simpl.
  rewrite Hspawn. reflexivity.
Qed.

(** A captured run under [echo="on_error"], step by step. *)
Lemma run_logged_on_error cmd cwd check w run fs :
  spawn (environ w) (files w) (tick w) cmd cwd = Some (run, fs) ->
  run_logged cmd cwd true true check echo_on_error w
  = (captured_result cmd run check,
     with_events (events w ++ on_error_events cmd cwd run)
       (with_files fs (with_tick (S (tick w)) w))).
Proof.
  intros Hspawn. unfold on_error_events.
  unfold run_logged. cbn [negb]. unfold log_info.
  unfold bind at 1. unfold emit at 1.
  unfold bind at 1. erewrite start_process_run by exact Hspawn.
  unfold bind at 1. rewrite readers_quiet.
  unfold bind at 1. unfold emit at 1. cbn [stdout_buf stderr_buf app].
  unfold bind at 1. unfold captured_result, failed, replay.
  destruct (exit_code run =? 0)%Z eqn:Hrc; cbn [negb].
  - unfold ret at 1. rewrite andb_false_r. unfold ret, with_events, with_files,
      with_tick. simpl. by rewrite <- !app_assoc.
  - unfold bind at 1. rewrite writelines_run. rewrite writelines_run.
    rewrite andb_true_r. unfold ret, raise, with_events, with_files, with_tick.
    simpl. rewrite <- !app_assoc. simpl. by destruct check.
Qed.

(** C3: with capture and [echo="on_error"], nothing is written to the
    standard streams between the start of the process and its exit; after
    the exit the buffered stdout lines and then the buffered stderr lines are
    written if the exit code is not 0, and nothing is written if it is 0.  A
    failing command that wrote one line A on stdout and one line B on stderr
    leaves A followed by B on the terminal, in whatever order the two lines
    arrived. *)
Theorem on_error_replays_after_exit cmd cwd check w run fs :
  spawn (environ w) (files w) (tick w) cmd cwd = Some (run, fs) ->
  exists w',
    run_logged cmd cwd true true check echo_on_error w
    = (captured_result cmd run check, w') /\
    events w' = events w
                ++ [EvLog (s$"$ " ++ join s$" " cmd); EvSpawn cmd cwd;
                    EvExit (exit_code run)]
                ++ replay run /\
    (forall a b,
        stream_lines Stdout (arrivals run) = [a] ->
        stream_lines Stderr (arrivals run) = [b] ->
        exit_code run <> 0%Z ->
        terminal_text ([EvLog (s$"$ " ++ join s$" " cmd); EvSpawn cmd cwd;
                        EvExit (exit_code run)] ++ replay run) = a ++ b).
Proof.
  intros Hspawn. eexists. split; [|split].
  - by apply run_logged_on_error.
  - reflexivity.
  - intros a b Hout Herr Hrc. unfold replay.
    apply Z.eqb_neq in Hrc. rewrite Hrc, Hout, Herr. simpl.
    by rewrite app_nil_r.
Qed.

End ExecutorClaims.

Section ExecutorExamples.

Example on_error_terminal :
  let w := outside_world fails_with_a_and_b (fun _ => None) [] [] in
  let '(_, w') := run_logged [s$"tool"] None true true true echo_on_error w in
  events w' = [EvLog s$"$ tool"; EvSpawn [s$"tool"] None; EvExit 1;
               EvWrite Stdout (s$"A" ++ [LF]); EvWrite Stderr (s$"B" ++ [LF])].
Proof. by vm_compute. Qed.

Lemma on_error_replays_witness :
  let w := outside_world fails_with_a_and_b (fun _ => None) [] [] in
  let run := fails_with_a_and_b [s$"tool"] in
  exists w',
    run_logged [s$"tool"] None true true true echo_on_error w
    = (captured_result [s$"tool"] run true, w') /\
    events w' = events w
                ++ [EvLog (s$"$ " ++ join s$" " [s$"tool"]); EvSpawn [s$"tool"] None;
                    EvExit (exit_code run)]
                ++ replay run /\
    terminal_text ([EvLog (s$"$ " ++ join s$" " [s$"tool"]); EvSpawn [s$"tool"] None;
                    EvExit (exit_code run)] ++ replay run)
    = (s$"A" ++ [LF]) ++ (s$"B" ++ [LF]).
Proof.
  intros w run.
  destruct (@on_error_replays_after_exit (toy_outside fails_with_a_and_b (fun _ => None))
              [s$"tool"] None true w run [] eq_refl)
    as (w' & Hrun & Hevents & Hterm).
  exists w'. split; [exact Hrun|]. split; [exact Hevents|].
  apply Hterm; [reflexivity | reflexivity | discriminate].
Defined.

End ExecutorExamples.

(** ** Identity resolver *)
Section Identity.
Context `{Externals}.

Lemma azure_context_unfold w :
  azure_context w
  = if str_truthy (env_subscription w) && str_truthy (env_tenant w)
    then (Ok {| subscription_id := VStr (default [] (env_subscription w));
                tenant_id := VStr (default [] (env_tenant w)) |}, w)
    else query_identity w.
Proof.
  unfold azure_context, bind, environ_get, env_subscription, env_tenant.
  by destruct (str_truthy _ && str_truthy _).
Qed.

Lemma or_else_truthy a b :
  str_truthy (or_else a b) = str_truthy a || str_truthy b.
Proof. unfold or_else. by destruct (str_truthy a) eqn:Ha; rewrite ?Ha. Qed.

Lemma query_identity_extracts w run fs items shown sub tenant :
  spawn (environ w) (files w) (tick w) az_account_show None = Some (run, fs) ->
  exit_code run = 0%Z ->
  json_loads (join [] (stream_lines Stdout (arrivals run))) = Some (VDict items shown) ->
  dict_get items s$"id" = Some sub ->
  dict_get items s$"tenantId" = Some tenant ->
  exists w',
    query_identity w = (Ok {| subscription_id := sub; tenant_id := tenant |}, w')
    /\ In (EvSpawn az_account_show None) (events w').
Proof.
  intros Hspawn Hrc Hjson Hid Htenant.
  pose proof (run_logged_on_error az_account_show None true w run fs Hspawn) as Hrun.
  eexists. split.
  - unfold query_identity. unfold bind at 1. rewrite Hrun.
    unfold captured_result, failed. rewrite Hrc. cbn -[lit join].
    unfold bind at 1. unfold json_loads_m. cbn -[lit join]. rewrite Hjson.
    unfold bind, ret, subscript. by rewrite Hid, Htenant.
  - cbn [events with_events]. apply in_or_app. right. simpl. auto.
Qed.

(** C7 (amended): when a subscription value and a tenant value are present
    in the environment, each under its primary or its fallback name, they are
    returned and nothing outside is called; this covers both complete pairs.
    Otherwise the [az account show] command is asked, and its [id] and
    [tenantId] fields are returned. *)
Theorem identity_prefers_environment w :
  ((present w s$"AZURE_SUBSCRIPTION_ID" || present w s$"ARM_SUBSCRIPTION_ID") &&
   (present w s$"AZURE_TENANT_ID" || present w s$"ARM_TENANT_ID") = true ->
   azure_context w
   = (Ok {| subscription_id := VStr (default [] (env_subscription w));
            tenant_id := VStr (default [] (env_tenant w)) |}, w)) /\
  ((present w s$"AZURE_SUBSCRIPTION_ID" || present w s$"ARM_SUBSCRIPTION_ID") &&
   (present w s$"AZURE_TENANT_ID" || present w s$"ARM_TENANT_ID") = false ->
   azure_context w = query_identity w /\
   forall run fs items shown sub tenant,
     spawn (environ w) (files w) (tick w) az_account_show None = Some (run, fs) ->
     exit_code run = 0%Z ->
     json_loads (join [] (stream_lines Stdout (arrivals run))) = Some (VDict items shown) ->
     dict_get items s$"id" = Some sub ->
     dict_get items s$"tenantId" = Some tenant ->
     exists w',
       azure_context w = (Ok {| subscription_id := sub; tenant_id := tenant |}, w')
       /\ In (EvSpawn az_account_show None) (events w')).
Proof.
  unfold present. rewrite <- !or_else_truthy.
  fold (env_subscription w) (env_tenant w). split.
  - intros Henv. by rewrite azure_context_unfold, Henv.
  - intros Henv. assert (azure_context w = query_identity w) as Hq
      by by rewrite azure_context_unfold, Henv.
    split; [exact Hq|]. intros run fs items shown sub tenant Hs Hrc Hj Hid Ht.
    rewrite Hq. by apply (query_identity_extracts w run fs items shown).
Qed.

End Identity.

Section IdentityExamples.

Example mixed_world_resolves :
  azure_context mixed_world
  = (Ok {| subscription_id := VStr s$"sub-1"; tenant_id := VStr s$"ten-1" |},
     mixed_world).
Proof. by vm_compute. Qed.

(** C7 fails when the two values come from different pairs: no pair is
    complete, and still the environment is used and the command is not run. *)
Lemma mixed_pairs_skip_the_query : ~ resolve_as_stated mixed_world.
Proof.
  intros [_ Hquery]. specialize (Hquery eq_refl).
  vm_compute in Hquery. discriminate Hquery.
Qed.

Lemma identity_prefers_environment_witness :
  azure_context mixed_world
  = (Ok {| subscription_id := VStr s$"sub-1"; tenant_id := VStr s$"ten-1" |},
     mixed_world)
  /\
  let w := outside_world az_prints_account (fun _ => Some account_json) [] [] in
  azure_context w = query_identity w /\
  exists w',
    azure_context w
    = (Ok {| subscription_id := VStr s$"sub-9"; tenant_id := VStr s$"ten-9" |}, w')
    /\ In (EvSpawn az_account_show None) (events w').
Proof.
  split.
  - destruct (@identity_prefers_environment toy mixed_world) as [Henv _].
    exact (Henv eq_refl).
  - intros w.
    destruct (@identity_prefers_environment
                (toy_outside az_prints_account (fun _ => Some account_json)) w)
      as [_ Hquery].
    destruct (Hquery eq_refl) as [Hq Hextract]. split; [exact Hq|].
    apply (Hextract (az_prints_account az_account_show) []
             [(s$"id", VStr s$"sub-9"); (s$"tenantId", VStr s$"ten-9")] s$"{...}");
      reflexivity.
Defined.

End IdentityExamples.

(** ** Registry endpoint *)
Section Registry.
Context `{Externals}.

Lemma first_present_truthy sources value :
  first_present sources = Some value -> value <> [].
Proof.
  induction sources as [|source rest IH]; simpl; [done|].
  destruct (str_truthy source) eqn:Hs; [|done].
  intros ->. simpl in Hs. intros ->. done.
Qed.

(** C8 (amended): the endpoint is the first present value among the
    override, the two environment variables and the recorded value; the
    call fails with RegistryEndpointRequired exactly when no source is
    present or the chosen value holds a [<] or only spaces.  The world is
    left as it was. *)
Theorem registry_endpoint_resolution override tfvars_data w :
  _registry_login_server override tfvars_data w
  = (match first_present (endpoint_sources override tfvars_data w) with
     | Some value =>
         if contains "<"%char value || bool_decide (strip value = [])
         then Raise RegistryEndpointRequired
         else Ok value
     | None => Raise RegistryEndpointRequired
     end, w).
Proof.
  unfold _registry_login_server, bind, environ_get, endpoint_sources.
  cbn [first_present]. unfold or_else.
  set (env1 := environ w !! s$"AZ_READER_REGISTRY_LOGIN_SERVER").
  set (env2 := environ w !! s$"REGISTRY_LOGIN_SERVER").
  set (recorded := recorded_login_server tfvars_data).
  assert (forall o : option str, str_truthy o = true ->
            exists v, o = Some v /\ bool_decide (v = []) = false) as Hsome.
  { intros [v|] Ho; [|done]. exists v. split; [done|].
    simpl in Ho. by destruct (bool_decide (v = [])). }
  destruct (str_truthy override) eqn:Ho.
  { destruct (Hsome _ Ho) as (v & -> & Hv). rewrite Ho. simpl. rewrite Hv. simpl.
    by destruct (contains _ v || bool_decide (strip v = [])). }
  destruct (str_truthy env1) eqn:H1.
  { destruct (Hsome _ H1) as (v & -> & Hv). rewrite H1. simpl. rewrite Hv. simpl.
    by destruct (contains _ v || bool_decide (strip v = [])). }
  destruct (str_truthy env2) eqn:H2.
  { destruct (Hsome _ H2) as (v & -> & Hv). simpl. rewrite Hv. simpl.
    by destruct (contains _ v || bool_decide (strip v = [])). }
  simpl. destruct (bool_decide (recorded = [])) eqn:Hr; simpl; [done|].
  by destruct (contains _ recorded || bool_decide (strip recorded = [])).
Qed.

End Registry.

Section RegistryExamples.

Example placeholder_override_result :
  _registry_login_server (Some s$"<acr>.azurecr.io") [] (toy_world [] [])
  = (Raise RegistryEndpointRequired, toy_world [] []).
Proof. by vm_compute. Qed.

(** C8 fails on an override that still holds the placeholder of the example
    file: the value is present, and the call fails all the same. *)
Lemma placeholder_override_is_refused :
  ~ endpoint_as_stated (Some s$"<acr>.azurecr.io") [] (toy_world [] []).
Proof. intros Hstated. vm_compute in Hstated. discriminate Hstated. Qed.

Example environment_endpoint_is_taken :
  _registry_login_server None [(s$"registry_login_server", VStr s$"old.azurecr.io")]
    (toy_world [(s$"REGISTRY_LOGIN_SERVER", s$"new.azurecr.io")] [])
  = (Ok s$"new.azurecr.io",
     toy_world [(s$"REGISTRY_LOGIN_SERVER", s$"new.azurecr.io")] []).
Proof. by vm_compute. Qed.

End RegistryExamples.

(** ** Reasoning about monadic code *)
Section MonadFacts.
Context `{Externals}.

Lemma bind_ok {A B} (m : M A) (k : A -> M B) w b w' :
  bind m k w = (Ok b, w') ->
  exists a w1, m w = (Ok a, w1) /\ k a w1 = (Ok b, w').
Proof.
  unfold bind. destruct (m w) as [[a|e] w1]; intros Hk; [|discriminate].
  by exists a, w1.
Qed.

Lemma bind_raise {A B} (m : M A) (k : A -> M B) w e w' :
  bind m k w = (Raise e, w') ->
  m w = (Raise e, w') \/ exists a w1, m w = (Ok a, w1) /\ k a w1 = (Raise e, w').
Proof.
  unfold bind. destruct (m w) as [[a|e1] w1]; intros Hk.
  - right. by exists a, w1.
  - left. by simplify_eq.
Qed.

Lemma bind_assoc {A B C} (m : M A) (f : A -> M B) (g : B -> M C) w :
  bind (bind m f) g w = bind m (fun a => bind (f a) g) w.
Proof. unfold bind. by destruct (m w) as [[a|e] w1]. Qed.

Lemma bind_cong_l {A B} (m : M A) (k1 k2 : A -> M B) w :
  (forall a w1, k1 a w1 = k2 a w1) -> bind m k1 w = bind m k2 w.
Proof. intros Hk. unfold bind. destruct (m w) as [[a|e] w1]; [apply Hk | done]. Qed.

Lemma bind_ret_l {A B} (a : A) (k : A -> M B) w : bind (ret a) k w = k a w.
Proof. done. Qed.

Lemma raises_only_ret {A} P (a : A) : raises_only P (ret a).
Proof. intros w e w' Hr. discriminate Hr. Qed.

Lemma raises_only_raise {A} (P : error -> Prop) e : P e -> raises_only P (@raise _ A e).
Proof. intros HP w e' w' Hr. unfold raise in Hr. by simplify_eq. Qed.

Lemma raises_only_bind {A B} P (m : M A) (k : A -> M B) :
  raises_only P m -> (forall a, raises_only P (k a)) -> raises_only P (bind m k).
Proof.
  intros Hm Hk w e w' Hr. apply bind_raise in Hr as [Hr|(a & w1 & _ & Hr)].
  - by apply (Hm w e w').
  - by apply (Hk a w1 e w').
Qed.

Lemma raises_only_for_each {A} P (xs : list A) (body : A -> M unit) :
  (forall x, raises_only P (body x)) -> raises_only P (for_each xs body).
Proof.
  intros Hbody. induction xs as [|x xs IH]; simpl.
  - apply raises_only_ret.
  - apply raises_only_bind; [apply Hbody | intros _; apply IH].
Qed.

Lemma raises_only_try_except {A} P (m handler : M A) caught :
  raises_only P m -> raises_only P handler -> raises_only P (try_except m caught handler).
Proof.
  intros Hm Hh w e w' Hr. unfold try_except in Hr.
  destruct (m w) as [[a|e1] w1] eqn:Hmw; [discriminate|].
  destruct (caught e1).
  - by apply (Hh w1 e w').
  - inversion Hr; subst. by apply (Hm w e w').
Qed.

Lemma raises_only_finally {A} P (m : M A) cleanup :
  raises_only P m -> raises_only P (finally m cleanup).
Proof.
  intros Hm w e w' Hr. unfold finally in Hr.
  destruct (m w) as [[a|e1] w1] eqn:Hmw; inversion Hr; subst.
  by apply (Hm w e w1).
Qed.

End MonadFacts.

(** ** Where UpstreamNotBootstrapped can come from *)
Section OtherFailures.
Context `{Externals}.

(** [m] never raises UpstreamNotBootstrapped. *)
Abbreviation other_failures := (raises_only not_upstream).

Create HintDb other discriminated.

Ltac other_prim :=
  intros ? ? ? Hr;
  unfold emit, next_tick, set_files, environ_get, environ_set, path_exists,
    path_is_dir, read_text, fs_step, shutil_which, set_files in Hr;
  repeat case_match; simplify_eq; exact I.

Ltac other_step :=
  lazymatch goal with
  | |- raises_only _ (bind _ _) => apply raises_only_bind; [|intros ?]
  | |- raises_only _ (ret _) => apply raises_only_ret
  | |- raises_only _ (raise _) => apply raises_only_raise; exact I
  | |- raises_only _ (for_each _ _) => apply raises_only_for_each; intros ?
  | |- raises_only _ (try_except _ _ _) => apply raises_only_try_except
  | |- raises_only _ (finally _ _) => apply raises_only_finally
  | |- raises_only _ (if ?b then _ else _) => destruct b
  | |- raises_only _ (match ?x with _ => _ end) => destruct x
  | |- raises_only _ (let _ := _ in _) => cbv zeta
  end.

Ltac other_tac := repeat (first [solve [auto with other] | other_step]).

Lemma other_emit e : other_failures (emit e).
Proof. other_prim. Qed.
Lemma other_next_tick : other_failures next_tick.
Proof. other_prim. Qed.
Lemma other_set_files fs : other_failures (set_files fs).
Proof. other_prim. Qed.
Lemma other_environ_get name : other_failures (environ_get name).
Proof. other_prim. Qed.
Lemma other_environ_set name value : other_failures (environ_set name value).
Proof. other_prim. Qed.
Lemma other_path_exists p : other_failures (path_exists p).
Proof. other_prim. Qed.
Lemma other_path_is_dir p : other_failures (path_is_dir p).
Proof. other_prim. Qed.
Lemma other_read_text p : other_failures (read_text p).
Proof. other_prim. Qed.
Lemma other_fs_step op : other_failures (fs_step op).
Proof. other_prim. Qed.
Lemma other_shutil_which b : other_failures (shutil_which b).
Proof. other_prim. Qed.
Lemma other_lift {A} (r : result A) :
  match r with Raise e => not_upstream e | Ok _ => True end -> other_failures (lift r).
Proof. intros Hr w e w' Heq. unfold lift in Heq. by simplify_eq. Qed.

Hint Resolve other_emit other_next_tick other_set_files other_environ_get
  other_environ_set other_path_exists other_path_is_dir other_read_text
  other_fs_step other_shutil_which : other.

Lemma other_write_text p text : other_failures (write_text p text).
Proof. unfold write_text. other_tac. Qed.
Lemma other_mkdir_parents p : other_failures (mkdir_parents p).
Proof. unfold mkdir_parents. other_tac. Qed.
Lemma other_copy2 a b : other_failures (copy2 a b).
Proof. unfold copy2. other_tac. Qed.
Lemma other_copytree a b : other_failures (copytree a b).
Proof. unfold copytree. other_tac. Qed.
Lemma other_log_info msg : other_failures (log_info msg).
Proof. unfold log_info. other_tac. Qed.
Lemma other_print text : other_failures (print text).
Proof. unfold print. other_tac. Qed.

Hint Resolve other_write_text other_mkdir_parents other_copy2 other_copytree
  other_log_info other_print : other.

Lemma other_ensure binaries : other_failures (ensure binaries).
Proof. unfold ensure. other_tac. Qed.

Lemma other_start_process cmd cwd : other_failures (start_process cmd cwd).
Proof.
  unfold start_process. apply raises_only_bind; [auto with other | intros t].
  intros w e w' Hr. unfold bind, set_files, emit, ret in Hr.
  destruct (spawn _ _ _ _ _) as [[run fs]|]; by simplify_eq.
Qed.

Lemma other_readers echo lines b : other_failures (readers echo lines b).
Proof.
  revert b. induction lines as [|[s line] lines IH]; intros b; simpl.
  - other_tac.
  - apply raises_only_bind; [destruct echo; other_tac | intros _; apply IH].
Qed.

Lemma other_writelines s buffer : other_failures (writelines s buffer).
Proof. unfold writelines. other_tac. Qed.

Hint Resolve other_ensure other_start_process other_readers other_writelines : other.

Lemma other_run_logged cmd cwd capture text check echo :
  other_failures (run_logged cmd cwd capture text check echo).
Proof. unfold run_logged. other_tac. Qed.

Hint Resolve other_run_logged : other.

Lemma other_now_stamp : other_failures now_stamp.
Proof. unfold now_stamp. other_tac. Qed.

Hint Resolve other_now_stamp : other.

Lemma other_any_diff cmds : other_failures (any_diff cmds).
Proof. induction cmds as [|c cmds IH]; simpl; other_tac. Qed.

Hint Resolve other_any_diff : other.

Lemma other_derive_image_tag root : other_failures (derive_image_tag root).
Proof. unfold derive_image_tag. other_tac. Qed.

Lemma other_json_loads_m text : other_failures (json_loads_m text).
Proof. unfold json_loads_m. other_tac. Qed.

Lemma other_subscript data key : other_failures (subscript data key).
Proof. unfold subscript. other_tac. Qed.

Hint Resolve other_derive_image_tag other_json_loads_m other_subscript : other.

Lemma other_query_identity : other_failures query_identity.
Proof. unfold query_identity. other_tac. Qed.

Hint Resolve other_query_identity : other.

Lemma other_azure_context : other_failures azure_context.
Proof. unfold azure_context. other_tac. Qed.

Lemma other_first_existing candidates : other_failures (first_existing candidates).
Proof. induction candidates as [|p candidates IH]; simpl; other_tac. Qed.

Hint Resolve other_azure_context other_first_existing : other.

Lemma other_ensure_tfvars stack_dir env sub tenant :
  other_failures (ensure_tfvars stack_dir env sub tenant).
Proof. unfold ensure_tfvars. other_tac. Qed.

Lemma other_load_tfvars p : other_failures (load_tfvars p).
Proof. unfold load_tfvars. other_tac. Qed.

Lemma other_update_tfvars p updates : other_failures (update_tfvars p updates).
Proof. unfold update_tfvars. other_tac. Qed.

Hint Resolve other_ensure_tfvars other_load_tfvars other_update_tfvars : other.

Lemma other_terraform_init_local stack_dir state_path :
  other_failures (terraform_init_local stack_dir state_path).
Proof. unfold terraform_init_local. other_tac. Qed.

Lemma other_terraform_init_remote stack_dir tenant rg sa ct key :
  other_failures (terraform_init_remote stack_dir tenant rg sa ct key).
Proof. unfold terraform_init_remote. other_tac. Qed.

Lemma other_terraform_plan stack_dir tfvars extra :
  other_failures (terraform_plan stack_dir tfvars extra).
Proof. unfold terraform_plan. other_tac. Qed.

Lemma other_terraform_apply stack_dir tfvars auto extra :
  other_failures (terraform_apply stack_dir tfvars auto extra).
Proof. unfold terraform_apply. other_tac. Qed.

Lemma other_terraform_output stack_dir : other_failures (terraform_output stack_dir).
Proof. unfold terraform_output. other_tac. Qed.

Lemma other_required outputs key : other_failures (_required outputs key).
Proof. unfold _required. other_tac. Qed.

Hint Resolve other_terraform_init_local other_terraform_init_remote
  other_terraform_plan other_terraform_apply other_terraform_output
  other_required : other.

Lemma other_bootstrap_state_from_outputs outputs :
  other_failures (bootstrap_state_from_outputs outputs).
Proof. unfold bootstrap_state_from_outputs. other_tac. Qed.

Lemma other_export_core_tf_env env ctx : other_failures (export_core_tf_env env ctx).
Proof. unfold export_core_tf_env. other_tac. Qed.

Lemma other_safe_load_tfvars p : other_failures (_safe_load_tfvars p).
Proof. unfold _safe_load_tfvars. other_tac. Qed.

Lemma other_registry_login_server override data :
  other_failures (_registry_login_server override data).
Proof. unfold _registry_login_server. other_tac. Qed.

Lemma other_acr_docker_login registry : other_failures (_acr_docker_login registry).
Proof. unfold _acr_docker_login. other_tac. Qed.

Lemma other_docker_build_and_push image dockerfile context_dir :
  other_failures (_docker_build_and_push image dockerfile context_dir).
Proof. unfold _docker_build_and_push. other_tac. Qed.

Lemma other_acr_run_build registry template image dockerfile build_context workdir :
  other_failures (_acr_run_build registry template image dockerfile build_context workdir).
Proof. unfold _acr_run_build. other_tac. Qed.

Lemma other_copy_into_context root dest rel :
  other_failures (_copy_into_context root dest rel).
Proof. unfold _copy_into_context. other_tac. Qed.

Lemma other_mkdtemp prefix : other_failures (mkdtemp prefix).
Proof.
  unfold mkdtemp. apply raises_only_bind; [auto with other | intros t].
  intros w e w' Hr. unfold bind, set_files, ret in Hr.
  destruct (fs_mkdtemp _ _ _) as [[dir fs]|]; by simplify_eq.
Qed.

Hint Resolve other_bootstrap_state_from_outputs other_export_core_tf_env
  other_safe_load_tfvars other_registry_login_server other_acr_docker_login
  other_docker_build_and_push other_acr_run_build other_copy_into_context
  other_mkdtemp : other.

Lemma other_staged_context {A} root template include_paths build_context dockerfile
    target (body : Path -> Path -> Path -> M A) :
  (forall a b c, other_failures (body a b c)) ->
  other_failures (_staged_context root template include_paths build_context
                    dockerfile target body).
Proof. intros Hbody. unfold _staged_context. other_tac. Qed.

Lemma other_build_and_push env target dockerfile build_context include_paths
    local_docker tfvars_key registry tfvars_path :
  other_failures (build_and_push env target dockerfile build_context include_paths
                    local_docker tfvars_key registry tfvars_path).
Proof.
  unfold build_and_push. other_tac.
  all: apply other_staged_context; intros; other_tac.
Qed.

Lemma other_val outputs key : other_failures (_val outputs key).
Proof. unfold _val. other_tac. Qed.

Hint Resolve other_val : other.

Lemma other_log_app_endpoints p : other_failures (_log_app_endpoints p).
Proof. unfold _log_app_endpoints. other_tac. Qed.

End OtherFailures.

(** ** The events of a successful command *)
Section CommandEvents.
Context `{Externals}.

Lemma readers_total echo lines b w :
  exists b' evs, readers echo lines b w = (Ok b', with_events (events w ++ evs) w).
Proof.
  revert b w. induction lines as [|[s line] lines IH]; intros b w.
  - exists b, []. simpl. unfold ret, with_events. rewrite app_nil_r. by destruct w.
  - simpl. unfold bind at 1.
    destruct echo.
    + unfold emit at 1.
      destruct (IH (buffer_append s line b) (with_events (events w ++ [EvWrite s line]) w))
        as (b' & evs & Hrun).
      exists b', (EvWrite s line :: evs). rewrite Hrun.
      unfold with_events. simpl. by rewrite <- app_assoc.
    + unfold ret at 1. apply IH.
    + unfold ret at 1. apply IH.
Qed.

Lemma start_process_ok cmd cwd w run w' :
  start_process cmd cwd w = (Ok run, w') ->
  events w' = events w ++ [EvSpawn cmd cwd].
Proof.
  unfold start_process, bind, next_tick. simpl.
  destruct (spawn _ _ _ _ _) as [[run' fs]|]; [|discriminate].
  unfold set_files, emit, ret. simpl. intros Heq. by simplify_eq.
Qed.

(** A checked command that returns has run and has exited with 0; nothing
    is written after its exit. *)
Lemma run_logged_ok cmd cwd capture echo w r w' :
  run_logged cmd cwd capture true true echo w = (Ok r, w') ->
  exists mid,
    events w' = events w ++ [EvLog (s$"$ " ++ join s$" " cmd); EvSpawn cmd cwd]
                ++ mid ++ [EvExit 0].
Proof.
  unfold run_logged. cbn [negb]. unfold log_info. intros Hrun.
  apply bind_ok in Hrun as ([] & w1 & Hlog & Hrun).
  unfold emit in Hlog. injection Hlog as <-.
  destruct capture; cbn [negb] in Hrun.
  - apply bind_ok in Hrun as (run & w2 & Hstart & Hrun).
    apply start_process_ok in Hstart.
    unfold bind at 1 in Hrun.
    destruct (readers_total echo (arrivals run)
                {| stdout_buf := []; stderr_buf := [] |} w2) as (b & evs & Hreaders).
    rewrite Hreaders in Hrun.
    unfold bind at 1 in Hrun. unfold emit at 1 in Hrun.
    destruct (exit_code run =? 0)%Z eqn:Hrc.
    + apply Z.eqb_eq in Hrc.
      assert (w' = with_events ((events w2 ++ evs) ++ [EvExit 0])
                     (with_events (events w2 ++ evs) w2)) as ->.
      { destruct echo; unfold bind, ret in Hrun; simpl in Hrun;
          rewrite Hrc in Hrun; simpl in Hrun; by simplify_eq. }
      exists evs. cbn [events with_events]. rewrite Hstart.
      cbn [events with_events]. by rewrite <- !app_assoc.
    + exfalso. destruct echo; unfold bind at 1 in Hrun; cbn [negb] in Hrun.
      * unfold ret at 1 in Hrun. by simplify_eq.
      * unfold bind at 1 in Hrun. rewrite writelines_run in Hrun.
        rewrite writelines_run in Hrun. by simplify_eq.
      * unfold ret at 1 in Hrun. by simplify_eq.
  - apply bind_ok in Hrun as (run & w2 & Hstart & Hrun).
    apply start_process_ok in Hstart.
    unfold bind at 1 in Hrun. rewrite for_each_emit in Hrun.
    unfold bind at 1 in Hrun. unfold emit at 1 in Hrun.
    destruct (exit_code run =? 0)%Z eqn:Hrc; cbn [negb andb] in Hrun;
      [|discriminate].
    apply Z.eqb_eq in Hrc. unfold ret in Hrun. injection Hrun as <- <-.
    exists ((fun a => EvChild a.1 a.2) <$> arrivals run).
    cbn [events with_events]. rewrite Hstart, Hrc.
    cbn [events with_events]. by rewrite <- !app_assoc.
Qed.

Lemma write_text_ok p content w w' :
  write_text p content w = (Ok tt, w') ->
  events w' = events w ++ [EvWriteFile p content].
Proof.
  unfold write_text. intros Hw. apply bind_ok in Hw as ([] & w1 & Hstep & Hemit).
  unfold fs_step in Hstep. destruct (fs_write_text _ _ _); [|discriminate].
  unfold set_files in Hstep. unfold emit in Hemit. by simplify_eq.
Qed.

Lemma update_tfvars_ok p updates w w' :
  update_tfvars p updates w = (Ok tt, w') ->
  exists previous,
    events w' = events w ++ [EvWriteFile p (apply_updates previous updates)].
Proof.
  unfold update_tfvars. intros Hu.
  apply bind_ok in Hu as (found & w1 & Hfound & Hu).
  unfold path_exists in Hfound. injection Hfound as <- <-.
  apply bind_ok in Hu as (content & w2 & Hread & Hu).
  exists content. apply write_text_ok in Hu. rewrite Hu. f_equal.
  destruct (fs_exists _ _).
  - unfold read_text in Hread. destruct (fs_read_text _ _); by simplify_eq.
  - unfold ret in Hread. by simplify_eq.
Qed.

(** A successful [update_tfvars] reads the text of the file, if there is
    one, and puts the patched text in its place. *)
Lemma update_tfvars_written p updates w w' :
  update_tfvars p updates w = (Ok tt, w') ->
  exists previous,
    text_before (files w) p = Some previous /\
    fs_write_text (files w) p (apply_updates previous updates) = Some (files w') /\
    events w' = events w ++ [EvWriteFile p (apply_updates previous updates)].
Proof.
  unfold update_tfvars. intros Hu.
  apply bind_ok in Hu as (found & w1 & Hfound & Hu).
  unfold path_exists in Hfound. injection Hfound as <- <-.
  apply bind_ok in Hu as (content & w2 & Hread & Hu).
  assert (w2 = w /\ text_before (files w) p = Some content) as [-> Htext].
  { unfold text_before. destruct (fs_exists _ _).
    - unfold read_text in Hread. destruct (fs_read_text _ _); by simplify_eq.
    - unfold ret in Hread. by simplify_eq. }
  exists content. split; [done|].
  unfold write_text in Hu. apply bind_ok in Hu as ([] & w1 & Hstep & Hemit).
  unfold fs_step in Hstep. destruct (fs_write_text _ _ _) as [fs|]; [|discriminate].
  unfold set_files in Hstep. unfold emit in Hemit. by simplify_eq.
Qed.

End CommandEvents.

(** ** The events of a successful build *)
Section BuildEvents.
Context `{Externals}.

Lemma docker_build_and_push_ok image dockerfile context_dir w w' :
  _docker_build_and_push image dockerfile context_dir w = (Ok tt, w') ->
  exists before mid,
    events w' = before ++ [EvSpawn [s$"docker"; s$"push"; image] None]
                ++ mid ++ [EvExit 0].
Proof.
  unfold _docker_build_and_push. intros Hrun.
  apply bind_ok in Hrun as (r1 & w1 & _ & Hrun).
  apply bind_ok in Hrun as (r2 & w2 & Hpush & Hret).
  unfold ret in Hret. injection Hret as <-.
  apply run_logged_ok in Hpush as (mid & Hev).
  exists (events w1 ++ [EvLog (s$"$ " ++ join s$" " [s$"docker"; s$"push"; image])]), mid.
  rewrite Hev. by rewrite <- !app_assoc.
Qed.

Lemma acr_run_build_ok registry template image dockerfile build_context workdir w w' :
  _acr_run_build registry template image dockerfile build_context workdir w = (Ok tt, w') ->
  exists before cmd mid,
    build_command false image cmd /\
    events w' = before ++ [EvSpawn cmd None] ++ mid ++ [EvExit 0].
Proof.
  unfold _acr_run_build. intros Hrun.
  destruct (relative_to template workdir) as [template_path|]; [|discriminate].
  apply bind_ok in Hrun as (r & w1 & Hcmd & Hret).
  unfold ret in Hret. injection Hret as <-.
  apply run_logged_ok in Hcmd as (mid & Hev).
  eexists (events w ++ [EvLog _]), _, mid. split.
  - simpl. eexists. reflexivity.
  - rewrite Hev. by rewrite <- !app_assoc.
Qed.

Lemma staged_context_ok {A} root template include_paths build_context dockerfile
    target (body : Path -> Path -> Path -> M A) w a w' :
  _staged_context root template include_paths build_context dockerfile target body w
  = (Ok a, w') ->
  exists context_root w1 w2,
    body context_root dockerfile build_context w1 = (Ok a, w2) /\
    events w' = events w2.
Proof.
  unfold _staged_context. intros Hrun.
  apply bind_ok in Hrun as (tmpdir & w0 & _ & Hrun).
  unfold finally in Hrun.
  destruct (bind _ _ w0) as [r wb] eqn:Hbody. injection Hrun as -> <-.
  apply bind_ok in Hbody as (? & ? & _ & Hbody).
  apply bind_ok in Hbody as (? & ? & _ & Hbody).
  apply bind_ok in Hbody as (found & w1 & _ & Hbody).
  destruct found; cbn [negb] in Hbody; [|discriminate].
  by exists tmpdir, w1, wb.
Qed.

(** What a successful [build_and_push] leaves: the image reference starts
    with the endpoint; the events end with the build command exiting with 0,
    the variable file written and the reference printed; the text written
    is the text the file held, patched for the endpoint and the reference,
    and the write is the last change made to the file system. *)
Lemma build_and_push_ok env target dockerfile build_context include_paths
    local_docker tfvars_key registry tfvars w image w' :
  build_and_push env target dockerfile build_context include_paths local_docker
    tfvars_key registry (Some tfvars) w = (Ok image, w') ->
  exists before cmd mid fs previous login_server repository,
    let written := apply_updates previous
                     (dict2 s$"registry_login_server" login_server
                            tfvars_key image) in
    build_command local_docker image cmd /\
    image = login_server ++ s$"/" ++ repository /\
    text_before fs tfvars = Some previous /\
    fs_write_text fs tfvars written = Some (files w') /\
    events w' = before ++ [EvSpawn cmd None] ++ mid
                ++ [EvExit 0; EvWriteFile tfvars written; EvPrint image].
Proof.
  unfold build_and_push. intros Hrun.
  apply bind_ok in Hrun as (? & ? & _ & Hrun).
  apply bind_ok in Hrun as (? & ? & _ & Hrun).
  apply bind_ok in Hrun as (ctx & ? & _ & Hrun).
  apply bind_ok in Hrun as (tfvars' & ? & Htf & Hrun).
  unfold ret in Htf. injection Htf as <- <-.
  apply bind_ok in Hrun as (tfvars_data & ? & _ & Hrun).
  apply bind_ok in Hrun as (login_server & ? & _ & Hrun).
  apply bind_ok in Hrun as (template_found & ? & _ & Hrun).
  destruct template_found; cbn [negb] in Hrun; [|discriminate].
  apply bind_ok in Hrun as (prefix & ? & _ & Hrun).
  apply bind_ok in Hrun as (tag_override & ? & _ & Hrun).
  apply bind_ok in Hrun as (image_tag & ? & _ & Hrun).
  apply bind_ok in Hrun as (? & ? & _ & Hrun).
  apply bind_ok in Hrun as ([] & wA & Hstaged & Hrun).
  apply bind_ok in Hrun as ([] & wB & Hupdate & Hrun).
  apply bind_ok in Hrun as ([] & wC & Hprint & Hret).
  unfold ret in Hret. injection Hret as Himage <-.
  unfold print, emit in Hprint. injection Hprint as <-.
  apply update_tfvars_written in Hupdate as (previous & Htext & Hwrite & Hupdate).
  apply staged_context_ok in Hstaged as (context_root & w1 & w2 & Hbody & Hstaged).
  assert (exists before cmd mid,
             build_command local_docker image cmd /\
             events w2 = before ++ [EvSpawn cmd None] ++ mid ++ [EvExit 0])
    as (before & cmd & mid & Hcmd & Hev).
  { destruct local_docker.
    - apply bind_ok in Hbody as (? & ? & _ & Hbody).
      apply docker_build_and_push_ok in Hbody as (before & mid & Hev).
      exists before, [s$"docker"; s$"push"; image], mid.
      split; [reflexivity|]. rewrite <- Himage. exact Hev.
    - apply acr_run_build_ok in Hbody as (before & cmd & mid & Hcmd & Hev).
      by exists before, cmd, mid. }
  exists before, cmd, mid, (files wA), previous, login_server, 
    (default s$"az-reader" prefix ++ s$":" ++ image_tag).
  cbv zeta. split; [done|]. split; [by rewrite <- Himage|].
  split; [done|]. split; [by rewrite <- Himage|].
  cbn [events with_events]. rewrite Hupdate, Hstaged, Hev, <- Himage.
  by rewrite <- !app_assoc.
Qed.

End BuildEvents.

(** ** The workload deployment, step by step *)
Section Workload.
Context `{Externals}.

Abbreviation other_failures := (raises_only not_upstream).

Ltac other_seq :=
  repeat lazymatch goal with
    | |- raises_only _ (bind _ _) => apply raises_only_bind; [|intros ?]
    | |- raises_only _ (ret _) => apply raises_only_ret
    | |- raises_only _ (environ_set _ _) => apply other_environ_set
    | |- raises_only _ (ensure _) => apply other_ensure
    | |- raises_only _ azure_context => apply other_azure_context
    | |- raises_only _ (export_core_tf_env _ _) => apply other_export_core_tf_env
    | |- raises_only _ (ensure_tfvars _ _ _ _) => apply other_ensure_tfvars
    | |- raises_only _ (update_tfvars _ _) => apply other_update_tfvars
    | |- raises_only _ (log_info _) => apply other_log_info
    | |- raises_only _ (terraform_init_local _ _) => apply other_terraform_init_local
    | |- raises_only _ (terraform_init_remote _ _ _ _ _ _) =>
        apply other_terraform_init_remote
    | |- raises_only _ (terraform_plan _ _ _) => apply other_terraform_plan
    | |- raises_only _ (terraform_apply _ _ _ _) => apply other_terraform_apply
    | |- raises_only _ (terraform_output _) => apply other_terraform_output
    | |- raises_only _ (bootstrap_state_from_outputs _) =>
        apply other_bootstrap_state_from_outputs
    | |- raises_only _ (_log_app_endpoints _) => apply other_log_app_endpoints
    end.

(** The three steps are [deploy_workload]. *)
Lemma deploy_workload_split env extra local_docker registry w :
  deploy_workload env extra local_docker registry w
  = (prepared <- workload_prepare env ;;
     workload_build env local_docker registry prepared.2 ;;;
     workload_backend env extra prepared.1 prepared.2) w.
Proof.
  unfold deploy_workload, workload_prepare, workload_build, workload_backend.
  do 5 (rewrite bind_assoc; apply bind_cong_l; intros ? ?; cbv beta).
  rewrite bind_ret_l. reflexivity.
Qed.

Lemma load_bootstrap_state_missing env paths ctx w :
  fs_exists (files w) (bootstrap_state_path paths env) = false ->
  load_bootstrap_state env paths ctx w
  = (Raise (UpstreamNotBootstrapped (bootstrap_state_path paths env) env), w).
Proof.
  intros Hmissing. unfold load_bootstrap_state, bind, path_exists.
  by rewrite Hmissing.
Qed.

Lemma other_load_bootstrap_state_tail env paths ctx :
  other_failures
    (environ_set s$"ARM_SUBSCRIPTION_ID" (subscription_id ctx) ;;;
     environ_set s$"ARM_TENANT_ID" (tenant_id ctx) ;;;
     terraform_init_local (bootstrap paths) (bootstrap_state_path paths env) ;;;
     outputs <- terraform_output (bootstrap paths) ;;
     bootstrap_state_from_outputs outputs).
Proof. other_seq. Qed.

(** Where [load_bootstrap_state] raises UpstreamNotBootstrapped: at its first
    test, with the world as it found it. *)
Lemma load_bootstrap_state_upstream env paths ctx w p e w' :
  load_bootstrap_state env paths ctx w = (Raise (UpstreamNotBootstrapped p e), w') ->
  w' = w /\ p = bootstrap_state_path paths env /\ e = env /\
  fs_exists (files w) (bootstrap_state_path paths env) = false.
Proof.
  unfold load_bootstrap_state. unfold bind at 1. unfold path_exists.
  destruct (fs_exists _ _) eqn:Hfound; cbn [negb]; intros Hr.
  - apply other_load_bootstrap_state_tail in Hr. destruct Hr.
  - unfold raise in Hr. by simplify_eq.
Qed.

Lemma other_workload_prepare env : other_failures (workload_prepare env).
Proof. unfold workload_prepare, configure_logging. other_seq. Qed.

Lemma workload_backend_upstream env extra ctx tfvars w p e w' :
  workload_backend env extra ctx tfvars w = (Raise (UpstreamNotBootstrapped p e), w') ->
  load_bootstrap_state env resolve_paths ctx w
  = (Raise (UpstreamNotBootstrapped p e), w').
Proof.
  unfold workload_backend. cbv zeta. intros Hr.
  apply bind_raise in Hr as [Hr|(state & w1 & _ & Hr)]; [done|].
  exfalso. revert Hr.
  assert (other_failures
            (update_tfvars tfvars
               [(s$"state_resource_group_name", resource_group state);
                (s$"state_storage_account_name", storage_account state);
                (s$"state_container_name", container state);
                (s$"state_blob_key", blob_key state)] ;;;
             log_info (s$"==> 20-workload (" ++ env ++ s$")") ;;;
             terraform_init_remote (workload resolve_paths) (tenant_id ctx)
               (resource_group state) (storage_account state)
               (container state) (blob_key state) ;;;
             terraform_plan (workload resolve_paths) tfvars extra ;;;
             terraform_apply (workload resolve_paths) tfvars true extra ;;;
             _log_app_endpoints (workload resolve_paths))) as Hother.
  { other_seq. }
  intros Hr. apply Hother in Hr. destruct Hr.
Qed.

(** C6: when the state file of the bootstrap stack does not exist, the
    initialization of the remote backend of the workload stack fails with
    UpstreamNotBootstrapped and leaves the world as it found it: no command
    is run, no file and no environment variable is written.  This holds for
    [load_bootstrap_state], for the rest of [deploy_workload] that starts
    with it, and so for [deploy_workload] once its first two steps are
    done. *)
Theorem upstream_guard env ctx w :
  fs_exists (files w) (bootstrap_state_path resolve_paths env) = false ->
  let failure := UpstreamNotBootstrapped (bootstrap_state_path resolve_paths env) env in
  load_bootstrap_state env resolve_paths ctx w = (Raise failure, w) /\
  (forall extra tfvars, workload_backend env extra ctx tfvars w = (Raise failure, w)) /\
  (forall extra local_docker registry w0 w1 tfvars image,
      workload_prepare env w0 = (Ok (ctx, tfvars), w1) ->
      workload_build env local_docker registry tfvars w1 = (Ok image, w) ->
      deploy_workload env extra local_docker registry w0 = (Raise failure, w)).
Proof.
  intros Hmissing failure.
  pose proof (load_bootstrap_state_missing env resolve_paths ctx w Hmissing) as Hload.
  assert (forall extra tfvars,
             workload_backend env extra ctx tfvars w = (Raise failure, w))
    as Hbackend.
  { intros extra tfvars. unfold workload_backend. cbv zeta.
    unfold bind at 1. by rewrite Hload. }
  split; [exact Hload|]. split; [exact Hbackend|].
  intros extra local_docker registry w0 w1 tfvars image Hprep Hbuild.
  rewrite deploy_workload_split. unfold bind at 1. rewrite Hprep.
  unfold bind at 1. cbn [fst snd]. rewrite Hbuild. apply Hbackend.
Qed.


End Workload.

Section WorkloadExamples.

Lemma pair_with_snd {A B} (x : A * B) (a : A) : x.1 = a -> x = (a, x.2).
Proof. intros <-. by destruct x. Qed.

Lemma same_outcome `{Externals} {A} (x : result A * World) a w a' w' :
  x = (Ok a, w) -> x = (Ok a', w') -> a = a' /\ w = w'.
Proof. intros -> Heq. by injection Heq. Qed.

(** The worlds the deployment goes through on [workload_world]. *)
Abbreviation after_prepare :=
  ((@workload_prepare toy s$"dev" workload_world).2).

Abbreviation after_build :=
  ((@workload_build toy s$"dev" false None dev_tfvars after_prepare).2).

Abbreviation after_deploy :=
  ((@deploy_workload toy s$"dev" [] false None workload_world).2).

Lemma dev_prepare :
  @workload_prepare toy s$"dev" workload_world
  = (Ok (dev_context, dev_tfvars), after_prepare).
Proof.
  refine (pair_with_snd (@workload_prepare toy s$"dev" workload_world) _ _).
  vm_compute. reflexivity.
Qed.

Lemma dev_build :
  @workload_build toy s$"dev" false None dev_tfvars after_prepare
  = (Ok dev_image, after_build).
Proof.
  refine (pair_with_snd
            (@workload_build toy s$"dev" false None dev_tfvars after_prepare) _ _).
  vm_compute. reflexivity.
Qed.

Lemma dev_deploy :
  @deploy_workload toy s$"dev" [] false None workload_world
  = (Raise (UpstreamNotBootstrapped dev_state_path s$"dev"), after_deploy).
Proof.
  refine (pair_with_snd
            (@deploy_workload toy s$"dev" [] false None workload_world) _ _).
  vm_compute. reflexivity.
Qed.

(** On the checkout of [workload_world] the deployment builds the image,
    records it and then fails for want of the bootstrap state. *)
Example workload_world_events :
  List.last (events after_deploy) (EvPrint []) = EvPrint dev_image.
Proof. vm_compute. reflexivity. Qed.

Lemma upstream_guard_witness :
  let failure := UpstreamNotBootstrapped dev_state_path s$"dev" in
  @load_bootstrap_state toy s$"dev" (@resolve_paths toy) dev_context after_build
  = (Raise failure, after_build) /\
  (forall extra tfvars,
      @workload_backend toy s$"dev" extra dev_context tfvars after_build
      = (Raise failure, after_build)) /\
  @deploy_workload toy s$"dev" [] false None workload_world
  = (Raise failure, after_build).
Proof.
  destruct (@upstream_guard toy s$"dev" dev_context after_build)
    as (Hload & Hbackend & Hdeploy).
  - vm_compute. reflexivity.
  - split; [exact Hload|]. split; [exact Hbackend|].
    exact (Hdeploy [] false None workload_world after_prepare dev_tfvars dev_image
             dev_prepare dev_build).
Defined.


End WorkloadExamples.

(** * Further properties *)

(** ** The arguments passed on to terraform *)
Section ExtraArguments.

Lemma scan_extra_kept extra idx tokens st :
  exists kept,
    cleaned_extra (scan_extra extra idx tokens st) = cleaned_extra st ++ kept /\
    sublist kept tokens /\ flag_free kept /\
    implb (local_docker st) (local_docker (scan_extra extra idx tokens st)) = true.
Proof.
  revert idx st. induction tokens as [|token rest IH]; intros idx st.
  - exists []. simpl. rewrite app_nil_r. repeat split; [constructor|constructor|].
    by destruct (local_docker st).
  - simpl.
    assert (forall st', cleaned_extra st' = cleaned_extra st ->
              implb (local_docker st) (local_docker st') = true ->
              exists kept,
                cleaned_extra (scan_extra extra (S idx) rest st')
                = cleaned_extra st ++ kept /\
                sublist kept (token :: rest) /\ flag_free kept /\
                implb (local_docker st)
                  (local_docker (scan_extra extra (S idx) rest st')) = true) as Hskipped.
    { intros st' Hsame Hmono. destruct (IH (S idx) st') as (kept & Hc & Hs & Hf & Hl).
      exists kept. rewrite <- Hsame. repeat split; [done | by apply sublist_cons | done |].
      destruct (local_docker st), (local_docker st'); done. }
    assert (implb (local_docker st) (local_docker st) = true) as Hrefl
      by by destruct (local_docker st).
    destruct (skip_next st) eqn:Hskip; [by apply Hskipped|].
    case_bool_decide as Hlocal.
    { apply Hskipped; [done|]. simpl. by destruct (local_docker st). }
    case_bool_decide as Hregistry.
    { case_bool_decide; by apply Hskipped. }
    destruct (IH (S idx) {| local_docker := local_docker st;
                            registry_override := registry_override st;
                            cleaned_extra := cleaned_extra st ++ [token];
                            skip_next := false |}) as (kept & Hc & Hs & Hf & Hl).
    simpl in Hc, Hl. exists (token :: kept). repeat split.
    + rewrite Hc. by rewrite <- app_assoc.
    + by apply sublist_skip.
    + constructor; [|done]. unfold is_build_flag.
      by rewrite !bool_decide_eq_false_2.
    + done.
Qed.

(** Tokens that are no flag are appended one by one. *)
Lemma scan_extra_flag_free extra idx pre rest st :
  flag_free pre -> skip_next st = false ->
  scan_extra extra idx (pre ++ rest) st
  = scan_extra extra (idx + length pre) rest
      {| local_docker := local_docker st;
         registry_override := registry_override st;
         cleaned_extra := cleaned_extra st ++ pre;
         skip_next := false |}.
Proof.
  intros Hpre. revert idx st. induction Hpre as [|token pre Htoken _ IH]; intros idx st Hskip.
  - simpl. rewrite app_nil_r, Nat.add_0_r. destruct st. simpl in *. by subst.
  - cbn [scan_extra app]. rewrite Hskip. unfold is_build_flag in Htoken.
    apply orb_false_iff in Htoken as [H1 H2]. rewrite H1, H2.
    rewrite IH by done.
    cbn [local_docker registry_override cleaned_extra skip_next length].
    rewrite <- app_assoc. cbn [app].
    by replace (S idx + length pre) with (idx + S (length pre)) by lia.
Qed.

Lemma scan_extra_all_kept extra idx tokens st :
  flag_free tokens -> skip_next st = false ->
  scan_extra extra idx tokens st
  = {| local_docker := local_docker st;
       registry_override := registry_override st;
       cleaned_extra := cleaned_extra st ++ tokens;
       skip_next := false |}.
Proof.
  intros Hfree Hskip.
  pose proof (scan_extra_flag_free extra idx tokens [] st Hfree Hskip) as Hscan.
  by rewrite app_nil_r in Hscan.
Qed.

(** X20: [main] of [deploy_workload.py] passes on to terraform a subsequence
    of the left-over arguments that holds neither [--local-docker] nor
    [--registry-login-server], and the loop never turns [local_docker] off. *)
Theorem scan_extra_forwards_no_flag extra args_local_docker args_registry :
  let st := scan_extra extra 0 extra (parsed_flags args_local_docker args_registry) in
  sublist (cleaned_extra st) extra /\
  flag_free (cleaned_extra st) /\
  implb args_local_docker (local_docker st) = true.
Proof.
  destruct (scan_extra_kept extra 0 extra (parsed_flags args_local_docker args_registry))
    as (kept & Hc & Hs & Hf & Hl).
  simpl in *. by rewrite Hc.
Qed.

(** X21: among the left-over arguments, the token that follows
    [--registry-login-server] is taken as the endpoint and dropped, whatever
    it is; a [--registry-login-server] in last position is dropped and
    changes nothing; arguments without the two flags are passed on as they
    are. *)
Theorem scan_extra_takes_the_next_token pre value post args_local_docker args_registry :
  flag_free pre -> flag_free post ->
  let start := parsed_flags args_local_docker args_registry in
  let given := pre ++ [s$"--registry-login-server"; value] ++ post in
  let cut := pre ++ [s$"--registry-login-server"] in
  scan_extra given 0 given start
  = {| local_docker := args_local_docker; registry_override := Some value;
       cleaned_extra := pre ++ post; skip_next := false |} /\
  scan_extra cut 0 cut start
  = {| local_docker := args_local_docker; registry_override := args_registry;
       cleaned_extra := pre; skip_next := false |} /\
  scan_extra pre 0 pre start
  = {| local_docker := args_local_docker; registry_override := args_registry;
       cleaned_extra := pre; skip_next := false |}.
Proof.
  intros Hpre Hpost start given cut. split; [|split].
  - unfold given. rewrite scan_extra_flag_free by done.
    cbn [scan_extra app skip_next Nat.add parsed_flags local_docker registry_override
         cleaned_extra].
    rewrite (bool_decide_eq_false_2 (s$"--registry-login-server" = s$"--local-docker"))
      by done.
    rewrite (bool_decide_eq_true_2 (s$"--registry-login-server" = s$"--registry-login-server"))
      by done.
    rewrite bool_decide_eq_true_2.
    2:{ rewrite length_app. simpl. lia. }
    replace (nth (length pre + 1) (pre ++ s$"--registry-login-server" :: value :: post) [])
      with value.
    2:{ rewrite app_nth2 by lia. by replace (length pre + 1 - length pre) with 1 by lia. }
    cbn [skip_next local_docker registry_override cleaned_extra].
    by rewrite scan_extra_all_kept.
  - unfold cut. rewrite scan_extra_flag_free by done.
    cbn [scan_extra app skip_next Nat.add parsed_flags local_docker registry_override
         cleaned_extra].
    rewrite (bool_decide_eq_false_2 (s$"--registry-login-server" = s$"--local-docker"))
      by done.
    rewrite (bool_decide_eq_true_2 (s$"--registry-login-server" = s$"--registry-login-server"))
      by done.
    rewrite bool_decide_eq_false_2; [done|].
    rewrite length_app. simpl. lia.
  - by rewrite scan_extra_all_kept.
Qed.

Lemma scan_extra_takes_the_next_token_witness :
  scan_extra [s$"-var"; s$"--registry-login-server"; s$"--local-docker"] 0
    [s$"-var"; s$"--registry-login-server"; s$"--local-docker"]
    (parsed_flags false None)
  = {| local_docker := false; registry_override := Some s$"--local-docker";
       cleaned_extra := [s$"-var"]; skip_next := false |}.
Proof.
  refine (proj1 (scan_extra_takes_the_next_token [s$"-var"] s$"--local-docker" []
                   false None _ _)).
  - by repeat constructor.
  - constructor.
Defined.

End ExtraArguments.

(** ** Small functions of the build and of the deployment *)
Section SmallFunctions.
Context `{Externals}.

Lemma split_hd c s : hd [] (split c s) = before_sep c s.
Proof.
  induction s as [|x s IH]; simpl; [done|].
  case_bool_decide; [done|].
  destruct (split c s) as [|piece pieces]; simpl in *; by rewrite <- IH.
Qed.

Lemma before_sep_absent c s : c ∉ before_sep c s.
Proof.
  induction s as [|x s IH]; simpl; [apply not_elem_of_nil|].
  case_bool_decide as Hx; [apply not_elem_of_nil|].
  rewrite elem_of_cons. intros [->|Hin]; [done | by apply IH].
Qed.

Lemma before_sep_prefix c s :
  s = before_sep c s \/ exists rest, s = before_sep c s ++ c :: rest.
Proof.
  induction s as [|x s IH]; simpl; [by left|].
  case_bool_decide as Hx.
  - right. exists s. by subst.
  - destruct IH as [IH|[rest IH]].
    + left. by f_equal.
    + right. exists rest. simpl. by f_equal.
Qed.

(** X14: the registry name is the login server up to its first dot: it holds
    no dot, and the login server is the name itself or the name, a dot and
    more. *)
Theorem registry_name_is_first_label login_server :
  let name := _registry_name_from_login_server login_server in
  "."%char ∉ name /\
  (login_server = name \/ exists rest, login_server = name ++ s$"." ++ rest).
Proof.
  unfold _registry_name_from_login_server. rewrite split_hd. split.
  - apply before_sep_absent.
  - apply before_sep_prefix.
Qed.

(** X1: [ensure] leaves the world as it is; it fails for the first binary of
    the list that is not found, and succeeds when all are found. *)
Theorem ensure_reports_first_missing binaries w :
  ensure binaries w
  = (match List.find (fun b => negb (which (environ w) (files w) b)) binaries with
     | Some b => Raise (RequiredBinaryMissing b)
     | None => Ok tt
     end, w).
Proof.
  unfold ensure. induction binaries as [|b binaries IH]; simpl; [done|].
  unfold bind at 1. unfold bind at 1. unfold shutil_which at 1.
  destruct (which (environ w) (files w) b); simpl; [|done].
  unfold ret at 1. apply IH.
Qed.

End SmallFunctions.

(** ** Config patcher: one key among others *)
Section PatcherKeys.



(** X8: an upsert of one key changes no assignment of another key. *)
Theorem upsert_leaves_other_keys content key value other :
  key_ok key -> no_lb value -> other <> key ->
  assignments other (_set_tfvar_value content key value) = assignments other content.
Proof. apply set_other_key. Qed.

Lemma upsert_leaves_other_keys_witness :
  assignments s$"b" (_set_tfvar_value two_assignments s$"a" s$"9")
  = assignments s$"b" two_assignments.
Proof.
  apply (upsert_leaves_other_keys two_assignments s$"a" s$"9" s$"b").
  - apply key_ok_a.
  - by repeat constructor.
  - done.
Defined.

Lemma apply_updates_other_key updates content key :
  key ∉ updates.*1 -> Forall (fun kv => key_ok kv.1 /\ no_lb kv.2) updates ->
  assignments key (apply_updates content updates) = assignments key content.
Proof.
  unfold apply_updates. revert content.
  induction updates as [|[k v] updates IH]; intros content Hkey Hok; [done|].
  simpl in Hkey. apply not_elem_of_cons in Hkey as [Hne Hkey].
  apply Forall_cons in Hok as [[Hk Hv] Hok]. simpl in Hk, Hv.
  simpl. rewrite IH by done. by apply set_other_key.
Qed.


End PatcherKeys.

Section PatcherKeysExamples.


End PatcherKeysExamples.

(** ** Token registry: what is read, what is accepted, what is removed *)
Section TokenEntries.
Context `{Externals}.

Lemma rstrip_idem s : rstrip (rstrip s) = rstrip s.
Proof. unfold rstrip. by rewrite rev_involutive, lstrip_idem. Qed.

Lemma lstrip_rstrip_fixed s : lstrip s = s -> lstrip (rstrip s) = rstrip s.
Proof.
  intros Hs. destruct s as [|c r]; [done|].
  pose proof (lstrip_fixed_head c r Hs) as Hc.
  rewrite rstrip_cons_nonspace by done. by apply lstrip_nonspace.
Qed.

Lemma strip_idem s : strip (strip s) = strip s.
Proof.
  unfold strip. rewrite (lstrip_rstrip_fixed (lstrip s)) by apply lstrip_idem.
  apply rstrip_idem.
Qed.

(** X23: whatever is given to [--add], [_parse_name_value] returns a name and
    a value that are not empty, have no space at either end and hold neither
    [:] nor [;], or it fails with one of its four errors. *)
Theorem parse_name_value_gives_components raw :
  match _parse_name_value raw with
  | Ok (name, value) => token_component name /\ token_component value
  | Raise e => e ∈ parse_failures
  end.
Proof.
  unfold _parse_name_value, _validate_component, contains, parse_failures.
  assert (forall name value : str,
    match
      (if bool_decide (strip name = []) || bool_decide (strip value = [])
       then Raise EmptyTokenComponent
       else
         match
           (if bool_decide (":"%char ∈ strip name) || bool_decide (";"%char ∈ strip name)
            then Raise (InvalidTokenComponent s$"name") else Ok tt)
         with
         | Raise e => Raise e
         | Ok _ =>
             match
               (if bool_decide (":"%char ∈ strip value)
                   || bool_decide (";"%char ∈ strip value)
                then Raise (InvalidTokenComponent s$"value") else Ok tt)
             with
             | Raise e => Raise e
             | Ok _ => Ok (strip name, strip value)
             end
         end)
    with
    | Ok (name, value) => token_component name /\ token_component value
    | Raise e =>
        e ∈ [InvalidTokenSyntax; EmptyTokenComponent;
             InvalidTokenComponent s$"name"; InvalidTokenComponent s$"value"]
    end) as Hcheck.
  { intros name value.
    repeat (case_bool_decide; cbn [orb]);
      try (apply list_elem_of_further, list_elem_of_here);
      try (do 2 apply list_elem_of_further; apply list_elem_of_here);
      try (do 3 apply list_elem_of_further; apply list_elem_of_here).
    split; split; auto using strip_idem. }
  destruct (bool_decide (":"%char ∈ raw)); [apply Hcheck|].
  destruct (bool_decide ("="%char ∈ raw)); [apply Hcheck|].
  apply list_elem_of_here.
Qed.

Lemma parse_colon name value :
  token_component name -> token_component value ->
  _parse_name_value (name ++ s$":" ++ value) = Ok (name, value).
Proof.
  intros [Hn1 Hn2 Hn3 Hn4] [Hv1 Hv2 Hv3 Hv4].
  unfold _parse_name_value, _validate_component, contains.
  change s$":" with [":"%char]. cbn [app].
  rewrite (bool_decide_eq_true_2 (":"%char ∈ name ++ ":"%char :: value)).
  2:{ apply elem_of_app. right. by left. }
  rewrite before_sep_app, after_sep_app by done. cbn [default from_option]. unfold id.
  rewrite Hn2, Hv2. by rewrite !bool_decide_eq_false_2.
Qed.

Lemma parse_equals name value :
  token_component name -> token_component value -> "="%char ∉ name ->
  _parse_name_value (name ++ s$"=" ++ value) = Ok (name, value).
Proof.
  intros [Hn1 Hn2 Hn3 Hn4] [Hv1 Hv2 Hv3 Hv4] Heq.
  unfold _parse_name_value, _validate_component, contains.
  change s$"=" with ["="%char]. cbn [app].
  rewrite (bool_decide_eq_false_2 (":"%char ∈ name ++ "="%char :: value)).
  2:{ rewrite elem_of_app, elem_of_cons. intros [?|[?|?]]; done. }
  rewrite (bool_decide_eq_true_2 ("="%char ∈ name ++ "="%char :: value)).
  2:{ apply elem_of_app. right. by left. }
  rewrite before_sep_app, after_sep_app by done. cbn [default from_option]. unfold id.
  rewrite Hn2, Hv2. by rewrite !bool_decide_eq_false_2.
Qed.

(** X24: a name and a value that are not empty, have no space at either end
    and hold neither [:] nor [;] are accepted by [--add] in the form
    [name:value], which is the form the registry lists, and in the form
    [name=value] when the name holds no [=]. *)
Theorem parse_name_value_accepts name value :
  token_component name -> token_component value ->
  _parse_name_value (name ++ s$":" ++ value) = Ok (name, value) /\
  ("="%char ∉ name -> _parse_name_value (name ++ s$"=" ++ value) = Ok (name, value)).
Proof.
  intros Hn Hv. split; [by apply parse_colon|]. intros Heq. by apply parse_equals.
Qed.

Lemma token_component_alice : token_component s$"alice".
Proof. split; [done | by vm_compute | |]; apply (bool_decide_unpack _); by vm_compute. Qed.

Lemma token_component_value : token_component s$"k=1".
Proof. split; [done | by vm_compute | |]; apply (bool_decide_unpack _); by vm_compute. Qed.

Lemma parse_name_value_accepts_witness :
  _parse_name_value s$"alice:k=1" = Ok (s$"alice", s$"k=1") /\
  _parse_name_value s$"alice=k=1" = Ok (s$"alice", s$"k=1").
Proof.
  destruct (parse_name_value_accepts s$"alice" s$"k=1"
              token_component_alice token_component_value) as [Hcolon Hequals].
  split; [exact Hcolon|]. apply Hequals.
  apply (bool_decide_unpack _). by vm_compute.
Defined.

(** [for token in remove: tokens.pop(token, None)] keeps what is not named. *)
Lemma remove_all_filter (names : list str) (T : gmap str str) :
  remove_all names T = filter (fun item => item.1 ∉ names) T.
Proof.
  unfold remove_all. revert T. induction names as [|name names IH]; intros T.
  - simpl. symmetry. apply map_filter_id. intros k v _. apply not_elem_of_nil.
  - simpl. rewrite IH. apply map_eq. intros k. apply option_eq. intros v.
    rewrite !map_lookup_filter_Some, lookup_delete_Some. simpl.
    rewrite not_elem_of_cons. naive_solver.
Qed.

(** X25: removing names keeps exactly the entries whose name is not among
    them; a name that is not in the set, or that is given twice, changes
    nothing more. *)
Theorem remove_all_keeps_the_others (names : list str) (T : gmap str str) :
  remove_all names T = filter (fun item => item.1 ∉ names) T.
Proof. apply remove_all_filter. Qed.

(** Entries without a colon *)
Lemma load_entry_legacy tokens counter entry :
  clean entry ->
  load_entry (tokens, counter) entry
  = (<[legacy_name counter := entry]> tokens, S counter).
Proof.
  intros Hclean. unfold load_entry.
  rewrite (clean_stripped entry Hclean).
  rewrite bool_decide_eq_false_2 by apply Hclean.
  unfold contains. rewrite bool_decide_eq_false_2; [done|].
  apply clean_not_in; [done|]. apply list_elem_of_here.
Qed.

Lemma load_entries_legacy entries tokens counter :
  Forall clean entries ->
  fold_left load_entry entries (tokens, counter)
  = (fold_left (fun m item => <[item.1 := item.2]> m)
       (imap (fun i entry => (legacy_name (counter + i), entry)) entries) tokens,
     counter + length entries).
Proof.
  intros HF. revert tokens counter.
  induction HF as [|entry entries He _ IH]; intros tokens counter.
  - simpl. by rewrite Nat.add_0_r.
  - cbn [fold_left]. rewrite load_entry_legacy by done. rewrite IH.
    rewrite imap_cons. cbn [fold_left fst snd length]. rewrite Nat.add_0_r.
    f_equal; [|lia]. f_equal. apply imap_ext. intros i x _. simpl.
    f_equal. f_equal. lia.
Qed.

Lemma legacy_name_inj : Inj (=) (=) legacy_name.
Proof.
  intros a b Heq. unfold legacy_name in Heq.
  apply app_inv_head in Heq. by apply str_of_nat_inj.
Qed.

Lemma joined_entries_text entries :
  entries <> [] -> Forall clean entries ->
  tokens_of_output (join s$";" entries) = (fold_left load_entry entries (∅, 1)).1.
Proof.
  intros Hne Hclean. unfold tokens_of_output.
  assert (forall c, c ∈ [";"; ","; LF]%char -> Forall (fun p : str => c ∉ p) entries)
    as Hchars.
  { intros c Hc. eapply Forall_impl; [exact Hclean|]. intros p Hp.
    apply clean_not_in; [done|]. by apply list_elem_of_further. }
  assert (forall c, c ∈ [","; LF]%char -> c ∉ join s$";" entries) as Hjoin.
  { intros c Hc Hin.
    assert (Forall (fun x => x <> c) (join s$";" entries)) as HF.
    { apply join_Forall.
      - repeat constructor. intros <-.
        repeat (apply elem_of_cons in Hc as [Hc|Hc]; [discriminate Hc|]).
        by apply elem_of_nil in Hc.
      - eapply Forall_impl; [apply (Hchars c); by apply list_elem_of_further|].
        intros p Hp. apply Forall_forall. by intros x Hx ->. }
    rewrite Forall_forall in HF. by apply (HF c Hin). }
  assert (strip (join s$";" entries) = join s$";" entries /\ join s$";" entries <> [])
    as [Hstrip Hnonempty].
  { destruct entries as [|first others]; [done|].
    inversion Hclean as [|? ? Hfirst _]; subst.
    destruct (clean_ends first Hfirst) as (c & r & _ & _ & -> & _ & Hc & _).
    destruct (exists_last (l := (c :: r) :: others)) as (front & final & Hfl); [done|].
    assert (clean final) as Hfinal.
    { rewrite Hfl in Hclean. apply Forall_app in Hclean as [_ Hf]. by inversion Hf. }
    destruct (clean_ends final Hfinal) as (_ & _ & p & d & _ & Hlast & _ & Hd).
    destruct (join_head s$";" c r others) as [t Ht].
    assert (exists q, join s$";" ((c :: r) :: others) = q ++ [d]) as [q Hq].
    { rewrite Hfl, Hlast. apply join_last_char. }
    rewrite Ht in *. split; [|done]. by apply (strip_fixed_ends c t q d). }
  rewrite Hstrip. rewrite bool_decide_eq_false_2 by done.
  rewrite (replace_absent LF).
  2:{ apply Hjoin. apply list_elem_of_further, list_elem_of_here. }
  rewrite (replace_absent ","%char) by (apply Hjoin; apply list_elem_of_here).
  change s$";" with [";"%char]. rewrite split_join; [done | done |].
  apply Hchars. apply list_elem_of_here.
Qed.

(** X22: a secret made of entries without a colon is read as one token per
    entry, the entries being named [legacy-1], [legacy-2], ... in their
    order. *)
Theorem legacy_entries_are_numbered entries :
  entries <> [] -> Forall clean entries ->
  let T := tokens_of_output (join s$";" entries) in
  size T = length entries /\
  forall i entry, entries !! i = Some entry -> T !! legacy_name (S i) = Some entry.
Proof.
  intros Hne Hclean T. subst T.
  rewrite joined_entries_text, load_entries_legacy by done. cbn [fst].
  rewrite fold_insert_list_to_map.
  set (items := imap (fun i entry => (legacy_name (1 + i), entry)) entries).
  assert (rev items ≡ₚ items) as Hperm by (symmetry; apply Permutation_rev).
  assert (NoDup (rev items).*1) as Hnodup.
  { rewrite Hperm. unfold items. rewrite fmap_imap.
    rewrite (imap_ext _ (fun i _ => legacy_name (1 + i))) by done.
    rewrite (imap_seq entries legacy_name 1).
    apply NoDup_fmap_2; [apply legacy_name_inj | apply NoDup_seq]. }
  split.
  - rewrite map_size_list_to_map by done. unfold items.
    by rewrite length_rev, length_imap.
  - intros i entry Hi. apply elem_of_list_to_map; [done|].
    rewrite Hperm. apply list_elem_of_lookup. exists i.
    unfold items. by rewrite list_lookup_imap, Hi.
Qed.

Lemma legacy_entries_are_numbered_witness :
  let T := tokens_of_output s$"a;b1" in
  size T = 2 /\
  forall i entry, [s$"a"; s$"b1"] !! i = Some entry -> T !! legacy_name (S i) = Some entry.
Proof.
  apply (legacy_entries_are_numbered [s$"a"; s$"b1"]).
  - done.
  - constructor; [exact clean_lit_a|]. constructor; [exact clean_lit_b|]. constructor.
Defined.

End TokenEntries.

(** ** The command executor, for every policy *)
Section ExecutorRuns.
Context `{Externals}.

Lemma start_process_fails cmd cwd w :
  spawn (environ w) (files w) (tick w) cmd cwd = None ->
  start_process cmd cwd w = (Raise (PyError s$"OSError"), with_tick (S (tick w)) w).
Proof.
  intros Hspawn. unfold start_process, bind, next_tick. simpl. by rewrite Hspawn.
Qed.

Lemma readers_run echo lines b w :
  readers echo lines b w
  = (Ok {| stdout_buf := stdout_buf b ++ stream_lines Stdout lines;
           stderr_buf := stderr_buf b ++ stream_lines Stderr lines |},
     with_events (events w ++ match echo with
                              | echo_always => (fun a => EvWrite a.1 a.2) <$> lines
                              | _ => []
                              end) w).
Proof.
  revert b w. induction lines as [|[s line] lines IH]; intros b w.
  - simpl. unfold ret, stream_lines, with_events. simpl. rewrite !app_nil_r.
    destruct b, w, echo; simpl; by rewrite ?app_nil_r.
  - simpl. unfold bind at 1. destruct echo.
    + unfold emit at 1. rewrite IH. unfold with_events. simpl.
      rewrite <- !app_assoc. simpl.
      destruct s; unfold stream_lines; simpl; by rewrite <- !app_assoc.
    + unfold ret at 1. rewrite IH.
      destruct s; unfold stream_lines; simpl; by rewrite <- !app_assoc.
    + unfold ret at 1. rewrite IH.
      destruct s; unfold stream_lines; simpl; by rewrite <- !app_assoc.
Qed.

(** A run with capture, step by step. *)
Lemma run_logged_captured cmd cwd check echo w :
  run_logged cmd cwd true true check echo w
  = match spawn (environ w) (files w) (tick w) cmd cwd with
    | Some (run, fs) =>
        (captured_result cmd run check,
         after_command w fs
           ([EvLog (s$"$ " ++ join s$" " cmd); EvSpawn cmd cwd]
            ++ live_events echo run ++ [EvExit (exit_code run)]
            ++ replay_events echo run))
    | None =>
        (Raise (PyError s$"OSError"),
         with_events (events w ++ [EvLog (s$"$ " ++ join s$" " cmd)])
           (with_tick (S (tick w)) w))
    end.
Proof.
  unfold run_logged. cbn [negb]. unfold log_info.
  unfold bind at 1. unfold emit at 1.
  destruct (spawn (environ w) (files w) (tick w) cmd cwd) as [[run fs]|] eqn:Hspawn.
  - unfold bind at 1. erewrite start_process_run by exact Hspawn.
    unfold bind at 1. rewrite readers_run.
    unfold bind at 1. unfold emit at 1. cbn [stdout_buf stderr_buf app].
    unfold bind at 1. unfold captured_result, failed, replay_events, replay, live_events,
      after_command.
    destruct (exit_code run =? 0)%Z eqn:Hrc; cbn [negb].
    + rewrite andb_false_r.
      destruct echo; unfold ret, with_events, with_files, with_tick; simpl;
        by rewrite <- ?app_assoc, ?app_nil_r.
    + rewrite andb_true_r.
      destruct echo; [| |].
      * unfold ret at 1. unfold ret, raise, with_events, with_files, with_tick. simpl.
        rewrite <- !app_assoc. simpl. rewrite ?app_nil_r. by destruct check.
      * unfold bind at 1. rewrite writelines_run. rewrite writelines_run.
        unfold ret, raise, with_events, with_files, with_tick. simpl.
        rewrite <- !app_assoc. simpl. by destruct check.
      * unfold ret at 1. unfold ret, raise, with_events, with_files, with_tick. simpl.
        rewrite <- !app_assoc. simpl. by destruct check.
  - unfold bind at 1. rewrite start_process_fails by exact Hspawn. done.
Qed.

(** A run without capture, step by step. *)
Lemma run_logged_plain cmd cwd check echo w :
  run_logged cmd cwd false true check echo w
  = match spawn (environ w) (files w) (tick w) cmd cwd with
    | Some (run, fs) =>
        (plain_result cmd run check,
         after_command w fs
           ([EvLog (s$"$ " ++ join s$" " cmd); EvSpawn cmd cwd]
            ++ ((fun a => EvChild a.1 a.2) <$> arrivals run)
            ++ [EvExit (exit_code run)]))
    | None =>
        (Raise (PyError s$"OSError"),
         with_events (events w ++ [EvLog (s$"$ " ++ join s$" " cmd)])
           (with_tick (S (tick w)) w))
    end.
Proof.
  unfold run_logged. cbn [negb]. unfold log_info.
  unfold bind at 1. unfold emit at 1.
  destruct (spawn (environ w) (files w) (tick w) cmd cwd) as [[run fs]|] eqn:Hspawn.
  - unfold bind at 1. erewrite start_process_run by exact Hspawn.
    unfold bind at 1. rewrite for_each_emit.
    unfold bind at 1. unfold emit at 1.
    unfold plain_result, failed, after_command.
    destruct (check && negb (exit_code run =? 0)%Z);
      unfold ret, raise, with_events, with_files, with_tick; simpl;
      by rewrite <- !app_assoc.
  - unfold bind at 1. rewrite start_process_fails by exact Hspawn. done.
Qed.

(** X2: with capture, for each of the three policies: under [always], and
    under no other policy, every line is written when it arrives; under
    [on_error], and under no other policy, the buffered lines are written
    after an exit with another code than 0; what is returned or raised holds
    the captured text of each stream, whatever the policy; and a command
    that cannot be started leaves its log line and an OSError. *)
Theorem captured_run_follows_the_policy cmd cwd check echo w :
  run_logged cmd cwd true true check echo w
  = match spawn (environ w) (files w) (tick w) cmd cwd with
    | Some (run, fs) =>
        (captured_result cmd run check,
         after_command w fs
           ([EvLog (s$"$ " ++ join s$" " cmd); EvSpawn cmd cwd]
            ++ live_events echo run ++ [EvExit (exit_code run)]
            ++ replay_events echo run))
    | None =>
        (Raise (PyError s$"OSError"),
         with_events (events w ++ [EvLog (s$"$ " ++ join s$" " cmd)])
           (with_tick (S (tick w)) w))
    end.
Proof. apply run_logged_captured. Qed.

(** X3: without capture the policy plays no part: the command writes on the
    streams it inherits, the result holds no text, and the failure raised
    for a checked command that exits with another code than 0 holds none
    either. *)
Theorem plain_run_ignores_the_policy cmd cwd check echo w :
  run_logged cmd cwd false true check echo w
  = match spawn (environ w) (files w) (tick w) cmd cwd with
    | Some (run, fs) =>
        (plain_result cmd run check,
         after_command w fs
           ([EvLog (s$"$ " ++ join s$" " cmd); EvSpawn cmd cwd]
            ++ ((fun a => EvChild a.1 a.2) <$> arrivals run)
            ++ [EvExit (exit_code run)]))
    | None =>
        (Raise (PyError s$"OSError"),
         with_events (events w ++ [EvLog (s$"$ " ++ join s$" " cmd)])
           (with_tick (S (tick w)) w))
    end.
Proof. apply run_logged_plain. Qed.

End ExecutorRuns.

(** ** The image tag *)
Section ImageTag.
Context `{Externals}.

Lemma now_stamp_run w :
  now_stamp w = (Ok (utc_timestamp (tick w)), with_tick (S (tick w)) w).
Proof. done. Qed.

(** X4: [derive_image_tag] never fails because a [git] command exits with
    another code than 0: the first command is caught and the two others are
    not checked. *)
Theorem image_tag_survives_git_failures root w returncode cmd output stderr :
  (derive_image_tag root w).1 <> Raise (ProcessFailed returncode cmd output stderr).
Proof.
  unfold derive_image_tag. unfold bind at 1. unfold shutil_which at 1.
  destruct (which (environ w) (files w) s$"git"); [|by rewrite now_stamp_run].
  unfold try_except.
  match goal with |- context [match ?m w with _ => _ end] => destruct (m w) as [[tag|e] w1] end.
  - done.
  - destruct (is_process_failed e) eqn:He.
    + by rewrite now_stamp_run.
    + simpl. intros Heq. injection Heq as ->. discriminate He.
Qed.

(** X5: when the commit is found and the first comparison reports staged
    changes, the tag is the commit, the time and [-dirty], and the second
    comparison is not run. *)
Theorem image_tag_marks_staged_changes root w run1 fs1 run2 fs2 :
  which (environ w) (files w) s$"git" = true ->
  spawn (environ w) (files w) (tick w) (git_rev_parse root) None = Some (run1, fs1) ->
  exit_code run1 = 0%Z ->
  spawn (environ w) fs1 (tick w + 2) (git_diff_staged root) None = Some (run2, fs2) ->
  exit_code run2 <> 0%Z ->
  derive_image_tag root w
  = (Ok (strip (join [] (stream_lines Stdout (arrivals run1)))
         ++ s$"-" ++ utc_timestamp (tick w + 1) ++ s$"-dirty"),
     with_events (events w ++ echoed_command (git_rev_parse root) run1
                  ++ echoed_command (git_diff_staged root) run2)
       (with_files fs2 (with_tick (tick w + 3) w))).
Proof.
  intros Hgit Hspawn1 Hrc1 Hspawn2 Hrc2.
  unfold derive_image_tag. unfold bind at 1. unfold shutil_which at 1. rewrite Hgit.
  unfold try_except. unfold bind at 1.
  fold (git_rev_parse root). fold (git_diff_staged root). fold (git_diff_unstaged root).
  rewrite run_logged_captured, Hspawn1.
  unfold captured_result, failed. rewrite Hrc1. cbn [Z.eqb negb andb stdout default from_option].
  unfold bind at 1. rewrite now_stamp_run.
  unfold bind at 1. cbn [any_diff]. unfold bind at 1.
  rewrite run_logged_captured.
  cbn [environ files tick after_command with_events with_files with_tick].
  replace (S (S (tick w))) with (tick w + 2) by lia. rewrite Hspawn2.
  unfold captured_result, failed. cbn [andb returncode].
  apply Z.eqb_neq in Hrc2. rewrite Hrc2. cbn [negb]. unfold ret.
  unfold echoed_command, after_command, with_events, with_files, with_tick, id.
  cbn [environ files tick events replay_events]. rewrite Hrc1.
  rewrite !app_nil_r. rewrite <- !app_assoc.
  replace (tick w + 1) with (S (tick w)) by lia.
  replace (tick w + 3) with (S (tick w + 2)) by lia.
  reflexivity.
Qed.

(** X6: when [git] is there but cannot name the commit, the tag is the time
    alone, read after the failed command, and no comparison is run. *)
Theorem image_tag_falls_back_to_the_time root w run fs :
  which (environ w) (files w) s$"git" = true ->
  spawn (environ w) (files w) (tick w) (git_rev_parse root) None = Some (run, fs) ->
  exit_code run <> 0%Z ->
  derive_image_tag root w
  = (Ok (utc_timestamp (tick w + 1)),
     with_events (events w ++ echoed_command (git_rev_parse root) run)
       (with_files fs (with_tick (tick w + 2) w))).
Proof.
  intros Hgit Hspawn Hrc.
  unfold derive_image_tag. unfold bind at 1. unfold shutil_which at 1. rewrite Hgit.
  unfold try_except. unfold bind at 1.
  fold (git_rev_parse root).
  rewrite run_logged_captured, Hspawn.
  unfold captured_result, failed. apply Z.eqb_neq in Hrc. rewrite Hrc.
  cbn [negb andb is_process_failed]. rewrite now_stamp_run.
  unfold echoed_command, after_command, with_events, with_files, with_tick.
  cbn [environ files tick events replay_events]. rewrite ?app_nil_r.
  rewrite <- ?app_assoc.
  replace (tick w + 1) with (S (tick w)) by lia.
  replace (tick w + 2) with (S (S (tick w))) by lia.
  reflexivity.
Qed.

End ImageTag.

Section ImageTagExamples.

Lemma image_tag_marks_staged_changes_witness :
  (@derive_image_tag (toy_outside dirty_checkout (fun _ => None))
     (repo_file []) (outside_world dirty_checkout (fun _ => None) [] [])).1
  = Ok s$"0a1b2c3d4e5f-20240101000000-dirty".
Proof.
  rewrite (@image_tag_marks_staged_changes (toy_outside dirty_checkout (fun _ => None))
             (repo_file []) (outside_world dirty_checkout (fun _ => None) [] [])
             (dirty_checkout (git_rev_parse (repo_file []))) []
             (dirty_checkout (git_diff_staged (repo_file []))) []).
  - by vm_compute.
  - reflexivity.
  - by vm_compute.
  - reflexivity.
  - by vm_compute.
  - by vm_compute.
Defined.

Lemma image_tag_falls_back_to_the_time_witness :
  (@derive_image_tag (toy_outside no_checkout (fun _ => None))
     (repo_file []) (outside_world no_checkout (fun _ => None) [] [])).1
  = Ok s$"20240101000000".
Proof.
  rewrite (@image_tag_falls_back_to_the_time (toy_outside no_checkout (fun _ => None))
             (repo_file []) (outside_world no_checkout (fun _ => None) [] [])
             (no_checkout []) []).
  - by vm_compute.
  - reflexivity.
  - reflexivity.
  - by vm_compute.
Defined.

End ImageTagExamples.

(** ** The variable file of a stack *)
Section VariableFile.
Context `{Externals}.

Lemma first_existing_run candidates w :
  first_existing candidates w
  = (Ok (List.find (fun p => fs_exists (files w) p) candidates), w).
Proof.
  induction candidates as [|p candidates IH]; simpl; [done|].
  unfold bind, path_exists. destruct (fs_exists (files w) p); [done | apply IH].
Qed.

(** X10: when a stack has neither its variable file nor any of the three
    examples, [ensure_tfvars] fails with MissingVariableTemplate and leaves
    the world as it found it: nothing is written and nothing is logged. *)
Theorem missing_variable_file_is_reported stack_dir env sub tenant w :
  fs_exists (files w) (tfvars_target stack_dir env) = false ->
  Forall (fun example => fs_exists (files w) example = false)
    (tfvars_examples stack_dir env) ->
  ensure_tfvars stack_dir env sub tenant w
  = (Raise (MissingVariableTemplate env stack_dir), w).
Proof.
  intros Htarget Hexamples. unfold ensure_tfvars. cbv zeta.
  fold (tfvars_target stack_dir env). fold (tfvars_examples stack_dir env).
  unfold bind at 1. rewrite first_existing_run.
  assert (List.find (fun p => fs_exists (files w) p) (tfvars_examples stack_dir env) = None)
    as ->.
  { induction Hexamples as [|p ps Hp _ IH]; simpl; [done|]. by rewrite Hp. }
  unfold bind at 1. unfold path_exists at 1. rewrite Htarget. done.
Qed.


End VariableFile.

Section VariableFileExamples.

Lemma missing_variable_file_is_reported_witness :
  @ensure_tfvars toy (repo_file [s$"stack"]) s$"dev" (VStr s$"sub-1") (VStr s$"ten-1")
    (toy_world [] [])
  = (Raise (MissingVariableTemplate s$"dev" (repo_file [s$"stack"])), toy_world [] []).
Proof.
  apply (@missing_variable_file_is_reported toy).
  - reflexivity.
  - repeat constructor.
Defined.


End VariableFileExamples.

(** ** The outputs of the bootstrap stack *)
Section StackOutputs.
Context `{Externals}.

Lemma required_there items shown key value w :
  has_output items key value -> _required (VDict items shown) key w = (Ok value, w).
Proof.
  intros (fields & shown' & v & Hnode & Hvalue & Hnone & ->).
  unfold _required. rewrite Hnode, Hvalue. by destruct v.
Qed.

Lemma required_lacking items shown key w :
  lacks_output items key ->
  _required (VDict items shown) key w = (Raise (MissingStackOutput key), w).
Proof.
  intros [Hnode|(fields & shown' & Hnode & [Hvalue|Hvalue])];
    unfold _required; rewrite Hnode; [done| |]; by rewrite Hvalue.
Qed.

(** X12: when the four outputs are there with a value that is not [None],
    the state is made of the four values, as [str] shows them, and the world
    is left as it is. *)
Theorem bootstrap_state_reads_the_outputs items shown rg sa ct key w :
  has_output items s$"state_rg_name" rg ->
  has_output items s$"state_storage_account_name" sa ->
  has_output items s$"state_container_name" ct ->
  has_output items s$"state_blob_key" key ->
  bootstrap_state_from_outputs (VDict items shown) w
  = (Ok {| resource_group := rg; storage_account := sa;
           container := ct; blob_key := key |}, w).
Proof.
  intros Hrg Hsa Hct Hkey. unfold bootstrap_state_from_outputs, bind.
  by rewrite (required_there _ _ _ rg), (required_there _ _ _ sa),
    (required_there _ _ _ ct), (required_there _ _ _ key).
Qed.

(** X13: when one of the four outputs is missing, has no value or has the
    value [None], and those asked for before it are there, the failure is
    MissingStackOutput and names that output. *)
Theorem bootstrap_state_names_the_missing_output items shown n key w :
  state_outputs !! n = Some key ->
  Forall (fun earlier => exists value, has_output items earlier value)
    (take n state_outputs) ->
  lacks_output items key ->
  bootstrap_state_from_outputs (VDict items shown) w
  = (Raise (MissingStackOutput key), w).
Proof.
  intros Hn Hbefore Hlacks. unfold bootstrap_state_from_outputs.
  destruct n as [|[|[|[|n]]]]; simpl in Hn; simplify_eq.
  - unfold bind. by rewrite required_lacking.
  - apply Forall_cons in Hbefore as [[v1 H1] _].
    unfold bind. rewrite (required_there _ _ _ v1) by done.
    by rewrite required_lacking.
  - apply Forall_cons in Hbefore as [[v1 H1] Hbefore].
    apply Forall_cons in Hbefore as [[v2 H2] _].
    unfold bind. rewrite (required_there _ _ _ v1), (required_there _ _ _ v2) by done.
    by rewrite required_lacking.
  - apply Forall_cons in Hbefore as [[v1 H1] Hbefore].
    apply Forall_cons in Hbefore as [[v2 H2] Hbefore].
    apply Forall_cons in Hbefore as [[v3 H3] _].
    unfold bind. rewrite (required_there _ _ _ v1), (required_there _ _ _ v2),
      (required_there _ _ _ v3) by done.
    by rewrite required_lacking.
Qed.

End StackOutputs.

Section StackOutputsExamples.

Lemma output_node_there items key value :
  dict_get items key = Some (output_node (VStr value)) ->
  has_output items key value.
Proof.
  intros Hget. exists [(s$"sensitive", VOther false s$"False");
                       (s$"type", VStr s$"string"); (s$"value", VStr value)],
    s$"{...}", (VStr value).
  split; [exact Hget|]. split; [done|]. by split.
Qed.

Lemma bootstrap_state_reads_the_outputs_witness :
  @bootstrap_state_from_outputs toy (VDict dev_outputs s$"{...}") (toy_world [] [])
  = (Ok {| resource_group := s$"rg-dev"; storage_account := s$"stdev";
           container := s$"tfstate"; blob_key := s$"bootstrap.tfstate" |},
     toy_world [] []).
Proof.
  apply (@bootstrap_state_reads_the_outputs toy);
    apply output_node_there; reflexivity.
Defined.

Lemma bootstrap_state_names_the_missing_output_witness :
  @bootstrap_state_from_outputs toy (VDict partial_outputs s$"{...}") (toy_world [] [])
  = (Raise (MissingStackOutput s$"state_storage_account_name"), toy_world [] []).
Proof.
  apply (@bootstrap_state_names_the_missing_output toy partial_outputs s$"{...}" 1).
  - reflexivity.
  - constructor; [|constructor]. exists s$"rg-dev".
    apply output_node_there. reflexivity.
  - right. exists [(s$"sensitive", VOther false s$"False");
                   (s$"type", VStr s$"string"); (s$"value", VNone)], s$"{...}".
    split; [reflexivity|]. by right.
Defined.

End StackOutputsExamples.

(** ** What a piece of the tooling may start and write *)
Implicit Types (spawn_ok : list str -> Prop) (write_ok : Path -> Prop).

Abbreviation emits spawn_ok write_ok := (emits_only (allowed spawn_ok write_ok)).

Lemma emits_silent `{Externals} {A} spawn_ok write_ok (m : M A) :
  (forall w, events (m w).2 = events w) -> emits spawn_ok write_ok m.
Proof. intros Hm w. exists []. rewrite app_nil_r. by split. Qed.

Lemma emits_ret `{Externals} {A} spawn_ok write_ok (a : A) : emits spawn_ok write_ok (ret a).
Proof. by apply emits_silent. Qed.

Lemma emits_raise `{Externals} {A} spawn_ok write_ok e : emits spawn_ok write_ok (@raise _ A e).
Proof. by apply emits_silent. Qed.

Lemma emits_bind `{Externals} {A B} spawn_ok write_ok (m : M A) (k : A -> M B) :
  emits spawn_ok write_ok m -> (forall a, emits spawn_ok write_ok (k a)) ->
  emits spawn_ok write_ok (bind m k).
Proof.
  intros Hm Hk w. unfold bind. destruct (Hm w) as (n1 & H1 & F1).
  destruct (m w) as [[a|e] w1]; simpl in *.
  - destruct (Hk a w1) as (n2 & H2 & F2). exists (n1 ++ n2).
    rewrite H2, H1, app_assoc. split; [done | by apply Forall_app].
  - by exists n1.
Qed.

Lemma emits_bind_ret `{Externals} {A B} spawn_ok write_ok (a : A) (k : A -> M B) :
  emits spawn_ok write_ok (k a) -> emits spawn_ok write_ok (bind (ret a) k).
Proof. done. Qed.

Lemma emits_for_each `{Externals} {A} spawn_ok write_ok (xs : list A) (body : A -> M unit) :
  (forall x, emits spawn_ok write_ok (body x)) -> emits spawn_ok write_ok (for_each xs body).
Proof.
  intros Hbody. induction xs as [|x xs IH]; simpl.
  - apply emits_ret.
  - apply emits_bind; [apply Hbody | intros _; apply IH].
Qed.

Lemma emits_try_except `{Externals} {A} spawn_ok write_ok (m handler : M A) caught :
  emits spawn_ok write_ok m -> emits spawn_ok write_ok handler ->
  emits spawn_ok write_ok (try_except m caught handler).
Proof.
  intros Hm Hh w. unfold try_except. destruct (Hm w) as (n1 & H1 & F1).
  destruct (m w) as [[a|e] w1]; simpl in *; [by exists n1|].
  destruct (caught e); simpl; [|by exists n1].
  destruct (Hh w1) as (n2 & H2 & F2). exists (n1 ++ n2).
  rewrite H2, H1, app_assoc. split; [done | by apply Forall_app].
Qed.

Lemma emits_finally `{Externals} {A} spawn_ok write_ok (m : M A) cleanup :
  (forall w, events (cleanup w) = events w) -> emits spawn_ok write_ok m ->
  emits spawn_ok write_ok (finally m cleanup).
Proof.
  intros Hc Hm w. unfold finally. destruct (Hm w) as (n1 & H1 & F1).
  destruct (m w) as [r w1]; simpl in *. exists n1. by rewrite Hc.
Qed.

Lemma emits_emit `{Externals} spawn_ok write_ok e :
  allowed spawn_ok write_ok e -> emits spawn_ok write_ok (emit e).
Proof. intros He w. exists [e]. split; [done | by constructor]. Qed.

Ltac emits_prim :=
  apply emits_silent; intros ?;
  unfold next_tick, set_files, environ_get, environ_set, path_exists,
    path_is_dir, read_text, fs_step, shutil_which, set_files, lift;
  repeat case_match; done.

Lemma emits_next_tick `{Externals} spawn_ok write_ok : emits spawn_ok write_ok next_tick.
Proof. emits_prim. Qed.
Lemma emits_set_files `{Externals} spawn_ok write_ok fs :
  emits spawn_ok write_ok (set_files fs).
Proof. emits_prim. Qed.
Lemma emits_environ_get `{Externals} spawn_ok write_ok name :
  emits spawn_ok write_ok (environ_get name).
Proof. emits_prim. Qed.
Lemma emits_environ_set `{Externals} spawn_ok write_ok name value :
  emits spawn_ok write_ok (environ_set name value).
Proof. emits_prim. Qed.
Lemma emits_path_exists `{Externals} spawn_ok write_ok p :
  emits spawn_ok write_ok (path_exists p).
Proof. emits_prim. Qed.
Lemma emits_path_is_dir `{Externals} spawn_ok write_ok p :
  emits spawn_ok write_ok (path_is_dir p).
Proof. emits_prim. Qed.
Lemma emits_read_text `{Externals} spawn_ok write_ok p : emits spawn_ok write_ok (read_text p).
Proof. emits_prim. Qed.
Lemma emits_fs_step `{Externals} spawn_ok write_ok op : emits spawn_ok write_ok (fs_step op).
Proof. emits_prim. Qed.
Lemma emits_shutil_which `{Externals} spawn_ok write_ok b :
  emits spawn_ok write_ok (shutil_which b).
Proof. emits_prim. Qed.
Lemma emits_lift `{Externals} {A} spawn_ok write_ok (r : result A) :
  emits spawn_ok write_ok (lift r).
Proof. emits_prim. Qed.

Create HintDb emits discriminated.

#[local] Hint Resolve emits_next_tick emits_set_files emits_environ_get emits_environ_set
  emits_path_exists emits_path_is_dir emits_read_text emits_fs_step
  emits_shutil_which emits_lift : emits.

(** The side conditions on the commands and on the files. *)
Ltac side_condition :=
  cbv beta; intros;
  first [ exact I
        | assumption
        | reflexivity
        | lazymatch goal with
          | |- ~ starts_with _ _ =>
              let Heq := fresh in
              unfold az_account_show; intros [? Heq]; cbn [app] in Heq; by simplify_eq
          end ].

#[local] Hint Extern 8 => solve [side_condition] : emits.
#[local] Hint Extern 1 (allowed _ _ _) => exact I : emits.
#[local] Hint Extern 2 (allowed _ _ _) => progress (cbn [allowed]) : emits.

Ltac emits_step :=
  lazymatch goal with
  | |- emits_only _ (bind (ret _) _) => apply emits_bind_ret
  | |- emits_only _ (bind _ _) => apply emits_bind; [|intros ?]
  | |- emits_only _ (ret _) => apply emits_ret
  | |- emits_only _ (raise _) => apply emits_raise
  | |- emits_only _ (emit _) => apply emits_emit
  | |- emits_only _ (for_each _ _) => apply emits_for_each; intros ?
  | |- emits_only _ (try_except _ _ _) => apply emits_try_except
  | |- emits_only _ (finally _ _) => apply emits_finally; [done|]
  | |- emits_only _ (if ?b then _ else _) => destruct b eqn:?
  | |- emits_only _ (match ?x with _ => _ end) => destruct x eqn:?
  | |- emits_only _ (let _ := _ in _) => cbv zeta
  end.

Ltac emits_tac := repeat (first [solve [eauto with emits] | emits_step]).

Lemma emits_write_text `{Externals} spawn_ok write_ok p text :
  write_ok p -> emits spawn_ok write_ok (write_text p text).
Proof. intros Hp. unfold write_text. emits_tac. Qed.
Lemma emits_mkdir_parents `{Externals} spawn_ok write_ok p :
  emits spawn_ok write_ok (mkdir_parents p).
Proof. unfold mkdir_parents. emits_tac. Qed.
Lemma emits_copy2 `{Externals} spawn_ok write_ok a b : emits spawn_ok write_ok (copy2 a b).
Proof. unfold copy2. emits_tac. Qed.
Lemma emits_copytree `{Externals} spawn_ok write_ok a b :
  emits spawn_ok write_ok (copytree a b).
Proof. unfold copytree. emits_tac. Qed.
Lemma emits_log_info `{Externals} spawn_ok write_ok msg :
  emits spawn_ok write_ok (log_info msg).
Proof. unfold log_info. emits_tac. Qed.
Lemma emits_print `{Externals} spawn_ok write_ok text : emits spawn_ok write_ok (print text).
Proof. unfold print. emits_tac. Qed.

#[local] Hint Resolve emits_write_text emits_mkdir_parents emits_copy2 emits_copytree
  emits_log_info emits_print : emits.

Lemma emits_ensure `{Externals} spawn_ok write_ok binaries :
  emits spawn_ok write_ok (ensure binaries).
Proof. unfold ensure. emits_tac. Qed.

Lemma emits_start_process `{Externals} spawn_ok write_ok cmd cwd :
  spawn_ok cmd -> emits spawn_ok write_ok (start_process cmd cwd).
Proof.
  intros Hcmd. unfold start_process. apply emits_bind; [auto with emits | intros t].
  intros w. cbv beta. destruct (spawn _ _ _ _ _) as [[run fs]|].
  - exists [EvSpawn cmd cwd]. unfold bind, set_files, emit, ret.
    simpl. split; [done | by constructor].
  - exists []. simpl. by rewrite app_nil_r.
Qed.

Lemma emits_readers `{Externals} spawn_ok write_ok echo lines b :
  emits spawn_ok write_ok (readers echo lines b).
Proof.
  revert b. induction lines as [|[s line] lines IH]; intros b; simpl.
  - emits_tac.
  - apply emits_bind; [destruct echo; emits_tac | intros _; apply IH].
Qed.

Lemma emits_writelines `{Externals} spawn_ok write_ok s buffer :
  emits spawn_ok write_ok (writelines s buffer).
Proof. unfold writelines. emits_tac. Qed.

#[local] Hint Resolve emits_ensure emits_start_process emits_readers emits_writelines : emits.

Lemma emits_run_logged `{Externals} spawn_ok write_ok cmd cwd capture text check echo :
  spawn_ok cmd -> emits spawn_ok write_ok (run_logged cmd cwd capture text check echo).
Proof. intros Hcmd. unfold run_logged. emits_tac. Qed.

#[local] Hint Resolve emits_run_logged : emits.

Lemma emits_now_stamp `{Externals} spawn_ok write_ok : emits spawn_ok write_ok now_stamp.
Proof. unfold now_stamp. emits_tac. Qed.

#[local] Hint Resolve emits_now_stamp : emits.

Lemma emits_any_diff `{Externals} spawn_ok write_ok cmds :
  Forall spawn_ok cmds -> emits spawn_ok write_ok (any_diff cmds).
Proof. induction 1 as [|c cmds Hc _ IH]; simpl; emits_tac. Qed.

Lemma emits_derive_image_tag `{Externals} spawn_ok write_ok root :
  (forall args, spawn_ok (s$"git" :: args)) -> emits spawn_ok write_ok (derive_image_tag root).
Proof.
  intros Hgit. unfold derive_image_tag. emits_tac.
  apply emits_any_diff. repeat constructor; apply Hgit.
Qed.

Lemma emits_json_loads_m `{Externals} spawn_ok write_ok text :
  emits spawn_ok write_ok (json_loads_m text).
Proof. unfold json_loads_m. emits_tac. Qed.

Lemma emits_subscript `{Externals} spawn_ok write_ok data key :
  emits spawn_ok write_ok (subscript data key).
Proof. unfold subscript. emits_tac. Qed.

#[local] Hint Resolve emits_derive_image_tag emits_json_loads_m emits_subscript : emits.

Lemma emits_query_identity `{Externals} spawn_ok write_ok :
  spawn_ok az_account_show -> emits spawn_ok write_ok query_identity.
Proof. intros Haz. unfold query_identity. emits_tac. Qed.

#[local] Hint Resolve emits_query_identity : emits.

Lemma emits_azure_context `{Externals} spawn_ok write_ok :
  spawn_ok az_account_show -> emits spawn_ok write_ok azure_context.
Proof. intros Haz. unfold azure_context. emits_tac. Qed.

Lemma emits_first_existing `{Externals} spawn_ok write_ok candidates :
  emits spawn_ok write_ok (first_existing candidates).
Proof. induction candidates as [|p candidates IH]; simpl; emits_tac. Qed.

#[local] Hint Resolve emits_azure_context emits_first_existing : emits.

Lemma emits_ensure_tfvars `{Externals} spawn_ok write_ok stack_dir env sub tenant :
  write_ok (path_div stack_dir (env ++ s$".tfvars")) ->
  emits spawn_ok write_ok (ensure_tfvars stack_dir env sub tenant).
Proof. intros Hw. unfold ensure_tfvars. emits_tac. Qed.

Lemma emits_load_tfvars `{Externals} spawn_ok write_ok p :
  emits spawn_ok write_ok (load_tfvars p).
Proof. unfold load_tfvars. emits_tac. Qed.

Lemma emits_update_tfvars `{Externals} spawn_ok write_ok p updates :
  write_ok p -> emits spawn_ok write_ok (update_tfvars p updates).
Proof. intros Hw. unfold update_tfvars. emits_tac. Qed.

#[local] Hint Resolve emits_ensure_tfvars emits_load_tfvars emits_update_tfvars : emits.

Lemma emits_terraform_init_local `{Externals} spawn_ok write_ok stack_dir state_path :
  (forall args, spawn_ok (s$"terraform" :: s$"init" :: args)) ->
  emits spawn_ok write_ok (terraform_init_local stack_dir state_path).
Proof. intros Hs. unfold terraform_init_local. emits_tac. Qed.

Lemma emits_terraform_init_remote `{Externals} spawn_ok write_ok stack_dir tenant rg sa ct key :
  (forall args, spawn_ok (s$"terraform" :: s$"init" :: args)) ->
  emits spawn_ok write_ok (terraform_init_remote stack_dir tenant rg sa ct key).
Proof. intros Hs. unfold terraform_init_remote. emits_tac. Qed.

Lemma emits_terraform_plan `{Externals} spawn_ok write_ok stack_dir tfvars extra :
  (forall args, spawn_ok (s$"terraform" :: s$"plan" :: args)) ->
  emits spawn_ok write_ok (terraform_plan stack_dir tfvars extra).
Proof. intros Hs. unfold terraform_plan. cbn [app]. emits_tac. Qed.

Lemma emits_terraform_apply `{Externals} spawn_ok write_ok stack_dir tfvars auto extra :
  (forall args, spawn_ok (s$"terraform" :: s$"apply" :: args)) ->
  emits spawn_ok write_ok (terraform_apply stack_dir tfvars auto extra).
Proof. intros Hs. unfold terraform_apply. cbn [app]. emits_tac. Qed.

Lemma emits_terraform_output `{Externals} spawn_ok write_ok stack_dir :
  (forall args, spawn_ok (s$"terraform" :: s$"output" :: args)) ->
  emits spawn_ok write_ok (terraform_output stack_dir).
Proof. intros Hs. unfold terraform_output. emits_tac. Qed.

Lemma emits_required `{Externals} spawn_ok write_ok outputs key :
  emits spawn_ok write_ok (_required outputs key).
Proof. unfold _required. emits_tac. Qed.

#[local] Hint Resolve emits_terraform_init_local emits_terraform_init_remote
  emits_terraform_plan emits_terraform_apply emits_terraform_output
  emits_required : emits.

Lemma emits_bootstrap_state_from_outputs `{Externals} spawn_ok write_ok outputs :
  emits spawn_ok write_ok (bootstrap_state_from_outputs outputs).
Proof. unfold bootstrap_state_from_outputs. emits_tac. Qed.

Lemma emits_export_core_tf_env `{Externals} spawn_ok write_ok env ctx :
  emits spawn_ok write_ok (export_core_tf_env env ctx).
Proof. unfold export_core_tf_env. emits_tac. Qed.

Lemma emits_safe_load_tfvars `{Externals} spawn_ok write_ok p :
  emits spawn_ok write_ok (_safe_load_tfvars p).
Proof. unfold _safe_load_tfvars. emits_tac. Qed.

Lemma emits_registry_login_server `{Externals} spawn_ok write_ok override data :
  emits spawn_ok write_ok (_registry_login_server override data).
Proof. unfold _registry_login_server. emits_tac. Qed.

Lemma emits_acr_docker_login `{Externals} spawn_ok write_ok registry :
  (forall args, spawn_ok (s$"az" :: s$"acr" :: s$"login" :: args)) ->
  emits spawn_ok write_ok (_acr_docker_login registry).
Proof. intros Hs. unfold _acr_docker_login. emits_tac. Qed.

Lemma emits_docker_build_and_push `{Externals} spawn_ok write_ok image dockerfile context_dir :
  (forall args, spawn_ok (s$"docker" :: args)) ->
  emits spawn_ok write_ok (_docker_build_and_push image dockerfile context_dir).
Proof. intros Hs. unfold _docker_build_and_push. emits_tac. Qed.

Lemma emits_acr_run_build `{Externals} spawn_ok write_ok registry template image dockerfile
    build_context workdir :
  (forall args, spawn_ok (s$"az" :: s$"acr" :: s$"run" :: args)) ->
  emits spawn_ok write_ok (_acr_run_build registry template image dockerfile build_context workdir).
Proof. intros Hs. unfold _acr_run_build. emits_tac. Qed.

Lemma emits_copy_into_context `{Externals} spawn_ok write_ok root dest rel :
  emits spawn_ok write_ok (_copy_into_context root dest rel).
Proof. unfold _copy_into_context. emits_tac. Qed.

Lemma emits_mkdtemp `{Externals} spawn_ok write_ok prefix :
  emits spawn_ok write_ok (mkdtemp prefix).
Proof.
  unfold mkdtemp. apply emits_bind; [auto with emits | intros t].
  apply emits_silent. intros w. cbv beta. unfold bind, set_files, ret.
  by destruct (fs_mkdtemp _ _ _) as [[dir fs]|].
Qed.

#[local] Hint Resolve emits_bootstrap_state_from_outputs emits_export_core_tf_env
  emits_safe_load_tfvars emits_registry_login_server emits_acr_docker_login
  emits_docker_build_and_push emits_acr_run_build emits_copy_into_context
  emits_mkdtemp : emits.

Lemma emits_staged_context `{Externals} {A} spawn_ok write_ok root template include_paths
    build_context dockerfile
    target (body : Path -> Path -> Path -> M A) :
  (forall a b c, emits spawn_ok write_ok (body a b c)) ->
  emits spawn_ok write_ok (_staged_context root template include_paths build_context
           dockerfile target body).
Proof. intros Hbody. unfold _staged_context. emits_tac. Qed.


(** The build, the state of the bootstrap stack and the endpoints *)
Lemma emits_build_and_push `{Externals} spawn_ok write_ok env target dockerfile build_context
    include_paths local_docker tfvars_key registry tfvars :
  spawn_ok az_account_show ->
  (forall args, spawn_ok (s$"git" :: args)) ->
  (local_docker = true -> forall args, spawn_ok (s$"az" :: s$"acr" :: s$"login" :: args)) ->
  (local_docker = true -> forall args, spawn_ok (s$"docker" :: args)) ->
  (local_docker = false -> forall args, spawn_ok (s$"az" :: s$"acr" :: s$"run" :: args)) ->
  write_ok tfvars ->
  emits spawn_ok write_ok
    (build_and_push env target dockerfile build_context include_paths
       local_docker tfvars_key registry (Some tfvars)).
Proof.
  intros Haz Hgit Hlogin Hdocker Hrun Hw. unfold build_and_push.
  destruct local_docker.
  - specialize (Hlogin eq_refl). specialize (Hdocker eq_refl). emits_tac.
    all: apply emits_staged_context; intros; emits_tac.
  - specialize (Hrun eq_refl). emits_tac.
    all: apply emits_staged_context; intros; emits_tac.
Qed.

Lemma emits_load_bootstrap_state `{Externals} spawn_ok write_ok env paths ctx :
  (forall args, spawn_ok (s$"terraform" :: s$"init" :: args)) ->
  (forall args, spawn_ok (s$"terraform" :: s$"output" :: args)) ->
  emits spawn_ok write_ok (load_bootstrap_state env paths ctx).
Proof. intros Hinit Hout. unfold load_bootstrap_state. emits_tac. Qed.

Lemma emits_val `{Externals} spawn_ok write_ok
    outputs key :
  emits spawn_ok write_ok (_val outputs key).
Proof. unfold _val. emits_tac. Qed.

#[local] Hint Resolve emits_build_and_push emits_load_bootstrap_state emits_val : emits.

Lemma emits_log_app_endpoints `{Externals} spawn_ok write_ok p :
  (forall args, spawn_ok (s$"terraform" :: s$"output" :: args)) ->
  emits spawn_ok write_ok (_log_app_endpoints p).
Proof. intros Hout. unfold _log_app_endpoints. emits_tac. Qed.

Lemma emits_path_resolve `{Externals} spawn_ok write_ok fs_resolve p :
  emits spawn_ok write_ok (path_resolve fs_resolve p).
Proof.
  apply emits_silent. intros w. unfold path_resolve. by destruct (fs_resolve _ _).
Qed.

#[local] Hint Resolve emits_log_app_endpoints emits_path_resolve : emits.

(** ** What the build starts and writes *)
Section BuildFootprint.
Context `{Externals}.

Ltac names_command :=
  first [ by left
        | right; left; by eexists
        | right; right; left; by eexists
        | right; right; right; by eexists
        | right; right; by eexists ].

(** X16: whatever its outcome, [build_and_push] given a variable file starts
    no other command than the identity query, [git], and either the login
    to the registry and [docker], for a local build, or the build task of
    the registry; and the only file it writes is the variable file. *)
Theorem build_starts_only_its_commands env target dockerfile build_context include_paths
    local_docker tfvars_key registry tfvars w :
  exists new,
    events (build_and_push env target dockerfile build_context include_paths
              local_docker tfvars_key registry (Some tfvars) w).2
    = events w ++ new /\
    Forall (allowed (build_commands local_docker) (fun target => target = tfvars)) new.
Proof.
  apply emits_build_and_push; unfold build_commands.
  - by left.
  - intros args. right. left. by exists args.
  - intros -> args. right. right. left. by exists args.
  - intros -> args. right. right. right. by exists args.
  - intros -> args. right. right. by exists args.
  - done.
Qed.

Lemma eww_raise tfvars e : ends_with_write tfvars (raise e).
Proof. intros w. exists []. rewrite app_nil_r. split; [done | constructor]. Qed.

Lemma eww_bind {A} tfvars (m : M A) (k : A -> M str) :
  emits_only not_write m -> (forall a, ends_with_write tfvars (k a)) ->
  ends_with_write tfvars (bind m k).
Proof.
  intros Hm Hk w. unfold bind. destruct (Hm w) as (n1 & H1 & F1).
  destruct (m w) as [[a|e] w1]; simpl in *.
  - destruct (Hk a w1) as (n2 & H2 & Hlast). exists (n1 ++ n2).
    rewrite H2, H1, app_assoc. split; [done|].
    unfold written_last in *. destruct ((k a w1).1) as [image|e].
    + destruct Hlast as (before & content & -> & Hbefore).
      exists (n1 ++ before), content. rewrite app_assoc. split; [done|].
      by apply Forall_app.
    + by apply Forall_app.
  - by exists n1.
Qed.

Lemma eww_bind_ret {A} tfvars (a : A) (k : A -> M str) :
  ends_with_write tfvars (k a) -> ends_with_write tfvars (bind (ret a) k).
Proof. done. Qed.

Lemma update_tfvars_raise p updates w e w' :
  update_tfvars p updates w = (Raise e, w') -> events w' = events w.
Proof.
  unfold update_tfvars, bind, path_exists, read_text, write_text, bind, fs_step,
    set_files, emit, ret.
  intros Hu. repeat case_match; by simplify_eq.
Qed.

Lemma eww_tail tfvars updates image :
  ends_with_write tfvars (update_tfvars tfvars updates ;;; print image ;;; ret image).
Proof.
  intros w. destruct (update_tfvars tfvars updates w) as [[[]|e] w1] eqn:Hu.
  - assert ((update_tfvars tfvars updates ;;; print image ;;; ret image) w
            = (Ok image, with_events (events w1 ++ [EvPrint image]) w1)) as ->.
    { unfold bind at 1. by rewrite Hu. }
    apply update_tfvars_ok in Hu as [previous Hu].
    exists [EvWriteFile tfvars (apply_updates previous updates); EvPrint image].
    cbn [fst snd events with_events written_last].
    rewrite Hu, <- app_assoc. split; [done|].
    exists [], (apply_updates previous updates). split; [done | constructor].
  - assert ((update_tfvars tfvars updates ;;; print image ;;; ret image) w
            = (Raise e, w1)) as ->.
    { unfold bind at 1. by rewrite Hu. }
    apply update_tfvars_raise in Hu. exists []. cbn [fst snd written_last].
    rewrite app_nil_r. split; [done | constructor].
Qed.

Ltac eww_tac :=
  repeat lazymatch goal with
    | |- ends_with_write _ (bind (update_tfvars _ _) _) => apply eww_tail
    | |- ends_with_write _ (bind (ret _) _) => apply eww_bind_ret
    | |- ends_with_write _ (bind _ _) => apply eww_bind; [|intros ?]
    | |- ends_with_write _ (raise _) => apply eww_raise
    | |- ends_with_write _ (if ?b then _ else _) => destruct b eqn:?
    | |- ends_with_write _ (let _ := _ in _) => cbv zeta
    | |- emits_only not_write _ => unfold not_write; solve [emits_tac]
    end.

(** X17: [build_and_push] given a variable file writes it only once the image
    is built and pushed: when it fails, at whatever step, it has written no
    file; when it succeeds, its last two events are the writing of the
    variable file and the printing of the image, and it has written no other
    file. *)
Theorem build_writes_the_variable_file_last env target dockerfile build_context
    include_paths local_docker tfvars_key registry tfvars w :
  exists new,
    events (build_and_push env target dockerfile build_context include_paths
              local_docker tfvars_key registry (Some tfvars) w).2
    = events w ++ new /\
    written_last tfvars
      (build_and_push env target dockerfile build_context include_paths
         local_docker tfvars_key registry (Some tfvars) w).1 new.
Proof.
  revert w.
  change (ends_with_write tfvars
            (build_and_push env target dockerfile build_context include_paths
               local_docker tfvars_key registry (Some tfvars))).
  unfold build_and_push. eww_tac.
  all: unfold not_write; apply emits_staged_context; intros; emits_tac.
Qed.

End BuildFootprint.

(** ** Plan, then apply *)
Section PlanThenApply.
Context `{Externals}.

Lemma terraform_plan_run stack_dir tfvars extra w :
  terraform_plan stack_dir tfvars extra w
  = match spawn (environ w) (files w) (tick w)
            (plan_command (path_name tfvars) extra) (Some stack_dir) with
    | Some (run, fs) =>
        (if failed run true
         then Raise (ProcessFailed (exit_code run)
                       (plan_command (path_name tfvars) extra) None None)
         else Ok tt,
         after_command w fs
           (plain_command (plan_command (path_name tfvars) extra) (Some stack_dir) run))
    | None =>
        (Raise (PyError s$"OSError"),
         with_events
           (events w ++ [EvLog (s$"$ " ++ join s$" " (plan_command (path_name tfvars) extra))])
           (with_tick (S (tick w)) w))
    end.
Proof.
  unfold terraform_plan. fold (plan_command (path_name tfvars) extra).
  unfold bind. rewrite run_logged_plain.
  destruct (spawn _ _ _ _ _) as [[run fs]|]; [|done].
  unfold plain_result. by destruct (failed run true).
Qed.

Lemma terraform_apply_run stack_dir tfvars extra w :
  terraform_apply stack_dir tfvars true extra w
  = match spawn (environ w) (files w) (tick w)
            (apply_command (path_name tfvars) extra) (Some stack_dir) with
    | Some (run, fs) =>
        (if failed run true
         then Raise (ProcessFailed (exit_code run)
                       (apply_command (path_name tfvars) extra) None None)
         else Ok tt,
         after_command w fs
           (plain_command (apply_command (path_name tfvars) extra) (Some stack_dir) run))
    | None =>
        (Raise (PyError s$"OSError"),
         with_events
           (events w ++ [EvLog (s$"$ " ++ join s$" " (apply_command (path_name tfvars) extra))])
           (with_tick (S (tick w)) w))
    end.
Proof.
  unfold terraform_apply.
  change ([s$"terraform"; s$"apply"; s$"-var-file"; path_name tfvars]
          ++ [s$"--auto-approve"] ++ extra)
    with (apply_command (path_name tfvars) extra).
  unfold bind. rewrite run_logged_plain.
  destruct (spawn _ _ _ _ _) as [[run fs]|]; [|done].
  unfold plain_result. by destruct (failed run true).
Qed.

Lemma plan_is_not_apply var_file extra :
  ~ starts_with [s$"terraform"; s$"apply"] (plan_command var_file extra).
Proof. intros [args Heq]. unfold plan_command in Heq. cbn [app] in Heq. by simplify_eq. Qed.

Lemma children_not_apply (lines : list (stream * str)) :
  Forall not_apply ((fun a => EvChild a.1 a.2) <$> lines)
  /\ Forall is_child ((fun a => EvChild a.1 a.2) <$> lines).
Proof. split; apply Forall_fmap, Forall_true; by intros [s line]. Qed.

Lemma plan_then_apply stack_dir tfvars extra :
  plans_before_applying extra
    (terraform_plan stack_dir tfvars extra ;;; terraform_apply stack_dir tfvars true extra).
Proof.
  intros w. unfold bind. rewrite terraform_plan_run.
  destruct (spawn (environ w) (files w) (tick w) _ _) as [[run fs]|].
  2:{ eexists. split; [reflexivity|]. left. by repeat constructor. }
  unfold failed. cbn [andb].
  destruct (exit_code run =? 0)%Z eqn:Hrc; cbn [negb].
  2:{ eexists. split; [reflexivity|]. left. unfold plain_command.
      constructor; [done|]. constructor; [apply plan_is_not_apply|].
      apply Forall_app. split; [apply children_not_apply | by repeat constructor]. }
  apply Z.eqb_eq in Hrc. rewrite terraform_apply_run.
  destruct (spawn _ _ _ _ _) as [[run2 fs2]|].
  - eexists. split.
    { cbn [snd events after_command with_events]. rewrite <- app_assoc. reflexivity. }
    right. exists [EvLog (s$"$ " ++ join s$" " (plan_command (path_name tfvars) extra))],
             ((fun a => EvChild a.1 a.2) <$> arrivals run),
             (((fun a => EvChild a.1 a.2) <$> arrivals run2) ++ [EvExit (exit_code run2)]),
             stack_dir, (path_name tfvars).
    split; [|split; [|split]].
    + unfold plain_command. rewrite Hrc. by rewrite <- !app_assoc.
    + by repeat constructor.
    + apply children_not_apply.
    + apply Forall_app. split; [apply children_not_apply | by repeat constructor].
  - eexists. split.
    { cbn [snd events after_command with_events]. rewrite <- app_assoc. reflexivity. }
    left. apply Forall_app. split.
    + unfold plain_command. constructor; [done|]. constructor; [apply plan_is_not_apply|].
      apply Forall_app. split; [apply children_not_apply | by repeat constructor].
    + by repeat constructor.
Qed.

Lemma pba_before {A B} extra (m : M A) (k : A -> M B) :
  emits_only not_apply m -> (forall a, plans_before_applying extra (k a)) ->
  plans_before_applying extra (bind m k).
Proof.
  intros Hm Hk w. unfold bind. destruct (Hm w) as (n1 & H1 & F1).
  destruct (m w) as [[a|e] w1]; simpl in *.
  - destruct (Hk a w1) as (n2 & H2 & Hn2). exists (n1 ++ n2).
    rewrite H2, H1, app_assoc. split; [done|].
    destruct Hn2 as [Hn2|(before & children & after & dir & var_file
                          & -> & Hb & Hc & Ha)].
    + left. by apply Forall_app.
    + right. exists (n1 ++ before), children, after, dir, var_file.
      rewrite <- app_assoc. split; [done|]. split; [by apply Forall_app | done].
  - exists n1. split; [done | by left].
Qed.

Lemma pba_after {A B} extra (m : M A) (k : A -> M B) :
  plans_before_applying extra m -> (forall a, emits_only not_apply (k a)) ->
  plans_before_applying extra (bind m k).
Proof.
  intros Hm Hk w. unfold bind. destruct (Hm w) as (n1 & H1 & Hn1).
  destruct (m w) as [[a|e] w1]; simpl in *; [|by exists n1].
  destruct (Hk a w1) as (n2 & H2 & F2). exists (n1 ++ n2).
  rewrite H2, H1, app_assoc. split; [done|].
  destruct Hn1 as [Hn1|(before & children & after & dir & var_file
                        & -> & Hb & Hc & Ha)].
  - left. by apply Forall_app.
  - right. exists before, children, (after ++ n2), dir, var_file.
    rewrite <- !app_assoc. split; [done|]. split; [done|]. split; [done|].
    by apply Forall_app.
Qed.

Lemma pba_ext {A} extra (m m' : M A) :
  (forall w, m w = m' w) -> plans_before_applying extra m' ->
  plans_before_applying extra m.
Proof. intros Heq Hm w. rewrite Heq. apply Hm. Qed.

(** X18: whatever its outcome, [deploy_bootstrap] starts [terraform apply]
    at most once, and only right after [terraform plan], run in the same
    directory on the same variable file, has exited with 0: after a plan
    that fails, or any earlier failure, [terraform apply] is not started. *)
Theorem bootstrap_applies_only_after_plan fs_resolve env w :
  exists new,
    events (deploy_bootstrap fs_resolve env w).2 = events w ++ new /\
    applied_after_plan [] new.
Proof.
  revert w.
  change (plans_before_applying [] (deploy_bootstrap fs_resolve env)).
  unfold deploy_bootstrap, configure_logging.
  repeat lazymatch goal with
    | |- plans_before_applying _ (bind (terraform_plan _ _ _) _) => apply plan_then_apply
    | |- plans_before_applying _ (bind _ _) => apply pba_before; [|intros ?]
    | |- plans_before_applying _ (let _ := _ in _) => cbv zeta
    end.
  all: unfold not_apply; emits_tac.
Qed.

Lemma plan_then_apply_then {B} stack_dir tfvars extra (k : unit -> M B) :
  (forall a, emits_only not_apply (k a)) ->
  plans_before_applying extra
    (terraform_plan stack_dir tfvars extra ;;;
     a <- terraform_apply stack_dir tfvars true extra ;; k a).
Proof.
  intros Hk.
  apply (pba_ext _ _ (bind (terraform_plan stack_dir tfvars extra ;;;
                          terraform_apply stack_dir tfvars true extra) k)).
  - intros w. by rewrite bind_assoc.
  - apply pba_after; [apply plan_then_apply | done].
Qed.

(** [deploy_workload] starts [terraform apply] only after the plan. *)
Lemma deploy_workload_plans_first env extra local_docker registry :
  plans_before_applying extra (deploy_workload env extra local_docker registry).
Proof.
  unfold deploy_workload, configure_logging.
  repeat lazymatch goal with
    | |- plans_before_applying _ (bind (terraform_plan _ _ _) _) =>
        apply plan_then_apply_then; intros ?
    | |- plans_before_applying _ (bind _ _) => apply pba_before; [|intros ?]
    | |- plans_before_applying _ (let _ := _ in _) => cbv zeta
    end.
  all: unfold not_apply; emits_tac.
Qed.

(** X19: whatever its outcome, [deploy_workload] starts [terraform apply] at
    most once, and only right after [terraform plan], run in the same
    directory on the same variable file and with the same further
    arguments, has exited with 0; called through [main], the further
    arguments of both are those the loop of [main] has kept. *)
Theorem workload_applies_only_after_plan env extra local_docker registry w :
  (exists new,
      events (deploy_workload env extra local_docker registry w).2 = events w ++ new /\
      applied_after_plan extra new) /\
  (exists new,
      events (deploy_workload_main env local_docker registry extra w).2
      = events w ++ new /\
      applied_after_plan
        (cleaned_extra (scan_extra extra 0 extra (parsed_flags local_docker registry)))
        new).
Proof.
  split; [apply deploy_workload_plans_first|].
  unfold deploy_workload_main. cbv zeta.
  apply pba_after; [apply deploy_workload_plans_first|].
  intros _. unfold not_apply. apply emits_ret.
Qed.

End PlanThenApply.

(** ** Token registry: what a call starts, saves and prints *)
Section TokenCalls.
Context `{Externals}.

Lemma run_az_run cmd w :
  _run_az cmd w
  = match spawn (environ w) (files w) (tick w) cmd None with
    | Some (run, fs) =>
        (match captured_result cmd run true with
         | Ok r => Ok (stdout r)
         | Raise e => Raise e
         end,
         after_command w fs (on_error_events cmd None run))
    | None =>
        (Raise (PyError s$"OSError"),
         with_events (events w ++ [EvLog (s$"$ " ++ join s$" " cmd)])
           (with_tick (S (tick w)) w))
    end.
Proof.
  unfold _run_az, bind. rewrite run_logged_captured.
  destruct (spawn _ _ _ _ _) as [[run fs]|]; [|done].
  unfold on_error_events, live_events, replay_events. cbn [app].
  by destruct (captured_result cmd run true).
Qed.

(** [_load_tokens] returns a set, whatever the lookup does. *)
Lemma load_tokens_run vault secret w :
  _load_tokens vault secret w
  = (Ok (match (_run_az (secret_show vault secret) w).1 with
         | Ok (Some text) => tokens_of_output text
         | _ => ∅
         end),
     (_run_az (secret_show vault secret) w).2).
Proof.
  unfold _load_tokens, try_except, bind.
  by destruct (_run_az (secret_show vault secret) w) as [[[text|]|e] w1].
Qed.

Lemma generate_numbered_quiet count idx st w :
  events (generate_numbered count idx st w).2 = events w.
Proof.
  revert idx st w. induction count as [|count IH]; intros idx st w; [done|].
  simpl. destruct (skip_taken _ _ _); [|done].
  unfold bind at 1. rewrite generate_token_run. by rewrite IH.
Qed.

Lemma generate_item_quiet item st w :
  events (generate_item item st w).2 = events w.
Proof.
  unfold generate_item. destruct (isdigit item).
  - destruct (int item); [apply generate_numbered_quiet | done].
  - case_bool_decide; [done|]. unfold bind, lift.
    destruct (_validate_component _ _); [|done].
    case_bool_decide; [done|]. by rewrite generate_token_run.
Qed.

Lemma generate_all_quiet items st w :
  events (generate_all items st w).2 = events w.
Proof.
  revert st w. induction items as [|item items IH]; intros st w; [done|].
  simpl. unfold bind. pose proof (generate_item_quiet item st w) as Hq.
  destruct (generate_item item st w) as [[st'|e] w1]; simpl in *; [|done].
  by rewrite IH.
Qed.

Lemma add_all_run (entries : list str) (T : gmap str str) (w : World) :
  (add_all entries T w).2 = w.
Proof.
  revert T. induction entries as [|raw entries IH]; intros T; [done|].
  simpl. unfold bind, lift. destruct (_parse_name_value raw); [apply IH | done].
Qed.

Lemma add_all_names (entries : list str) (T T' : gmap str str) (w w' : World) :
  add_all entries T w = (Ok T', w') ->
  (forall name, is_Some (T !! name) -> is_Some (T' !! name)) /\
  (forall raw name value,
      raw ∈ entries -> _parse_name_value raw = Ok (name, value) -> is_Some (T' !! name)).
Proof.
  revert T. induction entries as [|raw entries IH]; intros T Hadd.
  - simpl in Hadd. unfold ret in Hadd. simplify_eq. split; [done|].
    intros raw name value Hin. by apply elem_of_nil in Hin.
  - simpl in Hadd. unfold bind, lift in Hadd.
    destruct (_parse_name_value raw) as [[n v]|e] eqn:Hparse; [|done].
    apply IH in Hadd as [Hkeep Hnew]. split.
    + intros name Hname. apply Hkeep. simpl.
      destruct (decide (n = name)) as [->|Hne].
      * rewrite lookup_insert_eq. by eexists.
      * by rewrite lookup_insert_ne.
    + intros raw' name value Hin Hparse'.
      apply elem_of_cons in Hin as [->|Hin]; [|by eapply Hnew].
      rewrite Hparse in Hparse'. simplify_eq. apply Hkeep. simpl.
      rewrite lookup_insert_eq. by eexists.
Qed.

Lemma added_names_follow (entries : list str) (T T' : gmap str str) (w w' w0 : World) :
  add_all entries T w = (Ok T', w') ->
  exists names, added_names entries w0 = (Ok names, w0).
Proof.
  revert T. induction entries as [|raw entries IH]; intros T Hadd.
  - by exists [].
  - simpl in Hadd. unfold bind, lift in Hadd. simpl. unfold bind, lift.
    destruct (_parse_name_value raw) as [[n v]|e]; [|done].
    apply IH in Hadd as [names Hnames]. rewrite Hnames. by eexists.
Qed.

Lemma added_names_run (entries : list str) (w : World) :
  (added_names entries w).2 = w.
Proof.
  induction entries as [|raw entries IH]; [done|].
  simpl. unfold bind, lift. destruct (_parse_name_value raw); [|done].
  destruct (added_names entries w) as [[names|e] w1]; simpl in *; by subst.
Qed.

Lemma emits_run_az spawn_ok write_ok cmd :
  spawn_ok cmd -> emits spawn_ok write_ok (_run_az cmd).
Proof. intros Hcmd. unfold _run_az. emits_tac. Qed.

Lemma emits_load_tokens spawn_ok write_ok vault secret :
  spawn_ok (secret_show vault secret) ->
  emits spawn_ok write_ok (_load_tokens vault secret).
Proof.
  intros Hcmd. unfold _load_tokens.
  apply emits_try_except; [|apply emits_ret].
  apply emits_bind; [by apply emits_run_az | intros [text|]; emits_tac].
Qed.

Lemma emits_save_tokens spawn_ok write_ok vault secret tokens :
  spawn_ok (secret_set vault secret tokens) ->
  emits spawn_ok write_ok (_save_tokens vault secret tokens).
Proof.
  intros Hcmd. unfold _save_tokens.
  apply emits_bind; [by apply emits_run_az | intros; apply emits_ret].
Qed.

Lemma emits_bind_ok {A B} spawn_ok write_ok (m : M A) (k : A -> M B) :
  emits spawn_ok write_ok m ->
  (forall a w w1, m w = (Ok a, w1) -> emits spawn_ok write_ok (k a)) ->
  emits spawn_ok write_ok (bind m k).
Proof.
  intros Hm Hk w. unfold bind. destruct (Hm w) as (n1 & H1 & F1).
  destruct (m w) as [[a|e] w1] eqn:Hmw; simpl in *.
  - destruct (Hk a w w1 Hmw w1) as (n2 & H2 & F2). exists (n1 ++ n2).
    rewrite H2, H1, app_assoc. split; [done | by apply Forall_app].
  - by exists n1.
Qed.

Lemma remove_all_lookup (names : list str) (T : gmap str str) name :
  remove_all names T !! name = if bool_decide (name ∈ names) then None else T !! name.
Proof.
  rewrite remove_all_filter. case_bool_decide as Hin.
  - apply map_lookup_filter_None. right. intros v _ Hnot. by apply Hnot.
  - destruct (T !! name) as [v|] eqn:Hv.
    + by apply map_lookup_filter_Some.
    + apply map_lookup_filter_None. by left.
Qed.

Lemma manage_tokens_commands vault secret add remove generate list_only :
  emits (token_commands vault secret add remove) (fun _ => False)
    (manage_tokens vault secret add remove generate list_only).
Proof.
  unfold manage_tokens.
  apply emits_bind; [apply emits_load_tokens; by left | intros loaded].
  apply emits_bind; [apply emits_silent, generate_all_quiet | intros st].
  apply emits_bind_ok.
  { apply emits_silent. intros w. by rewrite add_all_run. }
  intros added w w1 Hadd. apply add_all_names in Hadd as [_ Hadded]. cbv zeta.
  assert (token_commands vault secret add remove
            (secret_set vault secret (remove_all remove added))) as Hsave.
  { right. exists (remove_all remove added). split; [done|]. split.
    - intros name Hin. rewrite remove_all_lookup. by rewrite bool_decide_eq_true_2.
    - intros raw name value Hin Hparse Hkept. rewrite remove_all_lookup.
      rewrite bool_decide_eq_false_2 by done. by eapply Hadded. }
  destruct (list_only && _ && _ && _).
  - emits_tac.
  - apply emits_bind; [by apply emits_save_tokens | intros _].
    repeat (apply emits_bind; [|intros ?]); try solve [emits_tac].
    destruct (bool_decide (add = [])); [apply emits_ret|].
    apply emits_bind; [|intros ?; emits_tac].
    apply emits_silent. intros w0. by rewrite added_names_run.
Qed.

(** X26: whatever its outcome, [manage_tokens] starts no other command than
    the lookup and the saving of a set; a set it saves holds none of the
    names given to remove, even when they were added or generated by the
    same call, and holds every added name that is not removed; and it writes
    no file. *)
Theorem saved_set_follows_add_and_remove vault secret add remove generate list_only w :
  exists new,
    events (manage_tokens vault secret add remove generate list_only w).2
    = events w ++ new /\
    Forall (allowed (token_commands vault secret add remove) (fun _ => False)) new.
Proof. apply manage_tokens_commands. Qed.

End TokenCalls.

Section TokenOutcomes.
Context `{Externals}.

Lemma never_raises_print P text : raises_only P (print text).
Proof. intros w e w' Hr. discriminate Hr. Qed.

Lemma save_tokens_raises (vault secret : str) (tokens : gmap str str) :
  raises_only (fun e => refused e = false) (_save_tokens vault secret tokens).
Proof.
  intros w e w' Hr. unfold _save_tokens, bind in Hr. rewrite run_az_run in Hr.
  destruct (spawn _ _ _ _ _) as [[run fs]|]; [|by simplify_eq].
  unfold captured_result in Hr. destruct (failed run true); by simplify_eq.
Qed.

(** What follows the loops of [manage_tokens] raises no refusal. *)
Lemma report_raises (vault secret : str) (add remove : list str) (st : TokenState)
    (final : gmap str str) (listing : bool) :
  (forall w0, exists names, added_names add w0 = (Ok names, w0)) ->
  raises_only (fun e => refused e = false)
    (if listing
     then for_each (sorted_items final) (fun item => print (item.1 ++ s$":" ++ item.2))
     else
       _save_tokens vault secret final ;;;
       print (s$"vault=" ++ vault) ;;;
       print (s$"secret=" ++ secret) ;;;
       print (s$"total_tokens=" ++ str_of_nat (size final)) ;;;
       (if bool_decide (generated st = []) then ret tt
        else print s$"generated:" ;;;
             for_each (generated st)
               (fun item => print (s$"  " ++ item.1 ++ s$":" ++ item.2))) ;;;
       (if bool_decide (add = []) then ret tt
        else names <- added_names add ;;
             print (s$"added_names=" ++ join s$"," (merge_sort str_le names))) ;;;
       (if bool_decide (remove = []) then ret tt
        else print (s$"removed_names=" ++ join s$"," (merge_sort str_le remove)))).
Proof.
  intros Hnames.
  assert (raises_only (fun e => refused e = false) (added_names add)) as Hadded.
  { intros w e w' Hr. destruct (Hnames w) as [names Hok]. rewrite Hok in Hr. done. }
  destruct listing.
  - apply raises_only_for_each. intros item. apply never_raises_print.
  - repeat lazymatch goal with
      | |- raises_only _ (_save_tokens _ _ _) => apply save_tokens_raises
      | |- raises_only _ (print _) => apply never_raises_print
      | |- raises_only _ (ret _) => apply raises_only_ret
      | |- raises_only _ (added_names _) => exact Hadded
      | |- raises_only _ (for_each _ _) => apply raises_only_for_each; intros ?
      | |- raises_only _ (if ?b then _ else _) => destruct b
      | |- raises_only _ (bind _ _) => apply raises_only_bind; [|intros ?]
      end.
Qed.

(** X27: when [manage_tokens] refuses what it was asked (an entry to add
    that is malformed, a name to generate that is taken or holds a
    delimiter), the events are those of the lookup alone: nothing has been
    saved and nothing has been printed. *)
Theorem refusal_saves_nothing (vault secret : str) (add remove generate : list str)
    (list_only : bool) (w : World) :
  match (manage_tokens vault secret add remove generate list_only w).1 with
  | Raise e =>
      if refused e
      then events (manage_tokens vault secret add remove generate list_only w).2
           = events (_load_tokens vault secret w).2
      else True
  | Ok _ => True
  end.
Proof.
  destruct (manage_tokens vault secret add remove generate list_only w)
    as [[[]|e] final_world] eqn:Hout; [done|].
  cbn [fst snd]. destruct (refused e) eqn:Hrefused; [|done].
  unfold manage_tokens in Hout.
  apply bind_raise in Hout as [Hload|(loaded & w1 & Hload & Hout)].
  { rewrite load_tokens_run in Hload. discriminate Hload. }
  rewrite Hload. cbn [snd].
  apply bind_raise in Hout as [Hgen|(st & w2 & Hgen & Hout)].
  { pose proof (generate_all_quiet generate {| tokens := loaded; generated := [] |} w1)
      as Hquiet. by rewrite Hgen in Hquiet. }
  pose proof (generate_all_quiet generate {| tokens := loaded; generated := [] |} w1)
    as Hquiet. rewrite Hgen in Hquiet. cbn [snd] in Hquiet.
  apply bind_raise in Hout as [Hadd|(added & w3 & Hadd & Hout)].
  { pose proof (add_all_run add (tokens st) w2) as Hsame.
    rewrite Hadd in Hsame. cbn [snd] in Hsame. by subst. }
  exfalso. cbv zeta in Hout.
  apply report_raises in Hout; [congruence|].
  intros w0. by apply (added_names_follow add (tokens st) added w2 w3).
Qed.

(** X28: with [--list] and nothing to add, remove or generate,
    [manage_tokens] only looks the set up and prints its entries, one per
    line, in the order of their names; it saves nothing.  With something to
    add, remove or generate, [--list] changes nothing. *)
Theorem listing_only_prints (vault secret : str) (add remove generate : list str)
    (w : World) :
  (exists loaded,
      (_load_tokens vault secret w).1 = Ok loaded /\
      manage_tokens vault secret [] [] [] true w
      = (Ok tt,
         with_events (events (_load_tokens vault secret w).2
                      ++ ((fun item => EvPrint (entry_text item)) <$> sorted_items loaded))
           (_load_tokens vault secret w).2)) /\
  manage_tokens vault secret add remove generate true w
  = manage_tokens vault secret add remove generate
      (bool_decide (add = []) && bool_decide (remove = []) && bool_decide (generate = [])) w.
Proof.
  split.
  - eexists. split; [by rewrite load_tokens_run|].
    unfold manage_tokens. unfold bind at 1. rewrite load_tokens_run. cbn [fst snd].
    cbn [generate_all add_all remove_all fold_left]. unfold bind at 1. unfold ret at 1.
    unfold bind at 1. unfold ret at 1. cbv zeta. cbn [tokens andb].
    rewrite !bool_decide_eq_true_2 by done. cbn [andb].
    unfold print. by rewrite (for_each_emit (fun item => EvPrint (item.1 ++ s$":" ++ item.2))).
  - unfold manage_tokens.
    by destruct (bool_decide (add = [])), (bool_decide (remove = [])),
      (bool_decide (generate = [])).
Qed.


End TokenOutcomes.

Section TokenOutcomesExamples.


End TokenOutcomesExamples.

(** ** The entry point of the token registry *)
Section TokenMain.
Context `{Externals}.

Lemma emits_weaken {A} (P Q : event -> Prop) (m : M A) :
  (forall e, P e -> Q e) -> emits_only P m -> emits_only Q m.
Proof.
  intros HPQ Hm w. destruct (Hm w) as (new & Hnew & HF). exists new.
  split; [done|]. eapply Forall_impl; [exact HF | exact HPQ].
Qed.

Lemma resolve_targets_ok env vault_override secret_override w vault secret w1 :
  _resolve_targets env vault_override secret_override w = (Ok (vault, secret), w1) ->
  vault <> [] /\ secret <> [].
Proof.
  unfold _resolve_targets. intros Hr.
  apply bind_ok in Hr as (data & w0 & _ & Hr). cbv zeta in Hr.
  case_bool_decide as Hvault; [discriminate Hr|].
  unfold ret in Hr. injection Hr as <- <- <-. split; [done|].
  destruct secret_override as [[|c s]|]; done.
Qed.

Lemma emits_load_tfvars_data spawn_ok write_ok env :
  spawn_ok az_account_show ->
  write_ok (tfvars_target (workload resolve_paths) env) ->
  emits spawn_ok write_ok (_load_tfvars_data env).
Proof. intros Haz Hw. unfold _load_tfvars_data. emits_tac. Qed.

Lemma emits_resolve_targets spawn_ok write_ok env vault_override secret_override :
  spawn_ok az_account_show ->
  write_ok (tfvars_target (workload resolve_paths) env) ->
  emits spawn_ok write_ok (_resolve_targets env vault_override secret_override).
Proof.
  intros Haz Hw. unfold _resolve_targets.
  apply emits_bind; [by apply emits_load_tfvars_data | intros data]. emits_tac.
Qed.

(** X30: whatever its outcome, and also when it is only asked to list, the
    entry point of the token registry starts no other command than the
    identity query, the lookup and the saving of the secret, the last two
    for a vault and a secret whose names are not empty; and the only file it
    writes is the variable file of the workload stack. *)
Theorem token_main_starts_only_its_commands env vault_override secret_override add remove
    generate list_only w :
  exists new,
    events (manage_tokens_main env vault_override secret_override add remove generate
              list_only w).2
    = events w ++ new /\
    Forall (allowed (main_commands add remove)
              (fun target => target = tfvars_target (workload resolve_paths) env)) new.
Proof.
  revert w.
  change (emits (main_commands add remove)
            (fun target => target = tfvars_target (workload resolve_paths) env)
            (manage_tokens_main env vault_override secret_override add remove generate
               list_only)).
  unfold manage_tokens_main, configure_logging. apply emits_bind_ret.
  apply emits_bind_ok.
  { apply emits_resolve_targets; [by left | done]. }
  intros [vault secret] w w1 Hresolved.
  apply resolve_targets_ok in Hresolved as [Hvault Hsecret].
  apply emits_bind; [|intros; apply emits_ret].
  apply (emits_weaken (allowed (token_commands vault secret add remove) (fun _ => False))).
  - intros [] He; try done. cbn [allowed] in *. right. by exists vault, secret.
  - apply manage_tokens_commands.
Qed.

End TokenMain.

(** ** The staging directory *)
Section StagingDirectory.
Context `{Externals}.

(** X15: on a file system where removing a tree removes it, the temporary
    directory that [_staged_context] has made is gone when it is left,
    whether the copies, the check of the build context or the body have
    succeeded or not. *)
Theorem staged_directory_is_removed {A} root template include_paths build_context
    dockerfile target (body : Path -> Path -> Path -> M A) w dir fs :
  (forall fs' d, fs_exists (fs_rmtree fs' d) d = false) ->
  fs_mkdtemp (files w) (tick w) (target ++ s$"-ctx-") = Some (dir, fs) ->
  fs_exists
    (files (_staged_context root template include_paths build_context dockerfile
              target body w).2) dir
  = false.
Proof.
  intros Hremoves Hmade. unfold _staged_context.
  unfold bind at 1. unfold mkdtemp. unfold bind at 1. unfold next_tick at 1.
  cbn [tick files with_tick]. rewrite Hmade.
  unfold bind at 1. unfold set_files at 1. unfold ret at 1.
  unfold finally.
  match goal with |- context [let '(r, w') := ?m ?w0 in _] => destruct (m w0) as [r w1] end.
  unfold rmtree. cbn [snd files with_files]. apply Hremoves.
Qed.

End StagingDirectory.

Section StagingDirectoryExamples.

Lemma toy_rmtree_removes (fs : toy_fs) (d : Path) :
  bool_decide (d ∈ (List.filter (fun entry => negb (bool_decide (entry.1 = d))) fs).*1)
  = false.
Proof.
  apply bool_decide_eq_false_2. induction fs as [|[p text] fs IH]; simpl.
  - apply not_elem_of_nil.
  - case_bool_decide as Hp; simpl; [done|].
    rewrite elem_of_cons. intros [->|Hin]; [done | by apply IH].
Qed.

Lemma staged_directory_is_removed_witness :
  @fs_exists toy
    (@files toy
       (@_staged_context toy unit (repo_file []) (repo_file [s$"acr-build.yaml"]) []
          (path_of_str s$".") (path_of_str s$"Dockerfile") s$"az-reader"
          (fun _ _ _ => ret tt) (toy_world [] [])).2)
    (toy_tmp 0 s$"az-reader-ctx-")
  = false.
Proof.
  apply (@staged_directory_is_removed toy unit (repo_file [])
           (repo_file [s$"acr-build.yaml"]) [] (path_of_str s$".")
           (path_of_str s$"Dockerfile") s$"az-reader" (fun _ _ _ => ret tt)
           (toy_world [] []) (toy_tmp 0 s$"az-reader-ctx-")
           [(toy_tmp 0 s$"az-reader-ctx-", [])]).
  - intros fs' d. apply toy_rmtree_removes.
  - reflexivity.
Defined.

End StagingDirectoryExamples.
